(** * MOT: numerical Hessian by central differences and extrapolation

    A shallow embedding of [mot/cl_routines/numerical_hessian.py] (the
    vectorised routine) and of the older kernel and host-side extrapolation in
    [mot/cl_routines/mapping/numerical_hessian.py].

    Conventions of the embedding:
    - a numpy [float64] and an OpenCL [double] are Rocq's primitive binary64
      floats, so every definition below evaluates on concrete inputs; a C
      [float] is a binary64 float rounded to binary32;
    - a Python exception is [None] in the option monad;
    - an [n]-dimensional array is a nested list; the three dimensional ones
      carry their shape, since the control flow of [numerical_hessian] reads
      [derivatives.shape[2]];
    - arrays that the Python code mutates in place live in a store indexed by
      locations;
    - a kernel runs once per problem instance on that instance's slice of
      every buffer: the work of the lanes of a work group is embedded as the
      sequential computation of lane 0;
    - what is neither Python nor kernel source of this repository (numpy's
      percentile, scipy's pseudo inverse, the C power function, the precision
      macros of the OpenCL runtime) is a field of [CLEnvironment]. *)

From Stdlib Require Import ZArith Lia Floats Sorted.
From stdpp Require Import base option list gmap.

Set Warnings "-inexact-float".
Set Default Proof Using "Type".

(** ** Part I: the embedding *)

(** *** Floating point primitives *)

(** [np.minimum]: the scalar loop of numpy,
    [(in1 <= in2 || isnan(in1)) ? in1 : in2]; a NaN on either side wins. *)
Definition np_minimum (in1 in2 : float) : float :=
  if (in1 <=? in2)%float || is_nan in1 then in1 else in2.

(** OpenCL's [max(x, y)]: [y] if [x < y], otherwise [x]. *)
Definition cl_max (x y : float) : float := if (x <? y)%float then y else x.

(** A numpy boolean promoted to [float64] inside a product. *)
Definition of_bool (b : bool) : float := if b then 1%float else 0%float.

(** A non-negative Python [int] converted to [float]. *)
Definition of_nat (n : nat) : float := of_uint63 (Uint63.of_Z (Z.of_nat n)).

(** The integer part of a float. *)
Definition float_to_Z (x : float) : Z :=
  match Prim2SF x with
  | S754_finite s m e => (if s then Z.opp else id) (Z.shiftl (Z.pos m) e)
  | _ => 0%Z
  end.

(** A Python [int] converted to [float]: the nearest double, ties to even,
    and an [OverflowError] for an integer beyond the doubles. *)
Definition of_int (n : Z) : option float :=
  let x := SF2Prim (binary_normalize prec emax n 0 false) in
  if is_infinity x then None else Some x.

(** The value of a binary64 float stored in a C [float]. *)
Definition to_float32 (x : float) : float :=
  SF2Prim (match Prim2SF x with
           | S754_finite s m e => binary_round 24 128 s m e
           | sf => sf
           end).

(** [np.sum] of a short vector. *)
Definition np_sum (l : list float) : float := foldl PrimFloat.add 0%float l.

(** *** The runtime environment *)

(** What the routines take from outside this repository's sources. *)
Class CLEnvironment := {
  (** the precision of the run: [mot_float_type] is [double] or [float] *)
  double_precision : bool;
  (** the runtime's macros for the machine epsilon and the smallest normal
      number of [mot_float_type] *)
  MOT_EPSILON : float;
  MOT_MIN : float;
  (** OpenCL's [pown(x, n)] *)
  pown : float → nat → float;
  (** C's [pow], behind Python's [float ** int] and numpy's [**] *)
  c_pow : float → float → float;
  (** [scipy.linalg.pinv] *)
  linalg_pinv : list (list float) → list (list float);
  (** [np.nanpercentile(a, q)] of one slice along the reduced axis *)
  np_nanpercentile : list float → float → float
}.

(** *** Arrays *)

Abbreviation vector := (list float) (only parsing).
Abbreviation matrix := (list (list float)) (only parsing).

(** [m[i, j]] *)
Definition mget {A} (m : list (list A)) (i j : nat) : option A :=
  m !! i ≫= (.!! j).

(** [m[i, j] = x] for in-range indices (the only ones the code uses). *)
Definition mset {A} (m : list (list A)) (i j : nat) (x : A) : list (list A) :=
  alter (<[j := x]>) i m.

Definition zeros2 (r c : nat) : matrix := replicate r (replicate c 0%float).

(** [parameters.shape[1]] of a two dimensional array with at least one row
    (with no problem instance every array below is empty). *)
Definition nmr_columns (parameters : matrix) : nat :=
  match parameters with [] => 0 | row :: _ => length row end.

(** [parameters[:, ind]] *)
Definition column (parameters : matrix) (ind : nat) : option vector :=
  mapM (.!! ind) parameters.

(** [a[:, ind] = col] *)
Definition set_column (a : matrix) (ind : nat) (col : vector) : matrix :=
  zip_with (λ row x, <[ind := x]> row) a col.

(** A three dimensional [ndarray] with its shape. *)
Record ndarray3 := Ndarray3 {
  shape0 : nat;
  shape1 : nat;
  shape2 : nat;
  data : list (list (list float))
}.

(** [a[..., 0]]; an [IndexError] when the last axis is empty. *)
Definition take_first (a : ndarray3) : option matrix :=
  match shape2 a with
  | 0 => None
  | S _ => Some (map (map (λ row, hd 0%float row)) (data a))
  end.

(** [a[..., :n]] *)
Definition take_last_axis (n : nat) (a : ndarray3) : ndarray3 :=
  Ndarray3 (shape0 a) (shape1 a) (n `min` shape2 a) (map (map (take n)) (data a)).

(** Element [i] of a buffer a kernel reads; the kernels index inside their
    buffers, and a read outside of one has no defined value in C. *)
Definition buf (b : list float) (i : nat) : float := nth i b 0%float.

(** *** The interface of the model *)

(** [NumericalDerivativeInterface]; the parameter transformation is the
    effect of the model's CL function on the parameter vector of a problem
    instance, whose data is selected by the instance's index. *)
Record NumericalDerivativeInterface := {
  numdiff_get_max_step : list float;
  numdiff_get_scaling_factors : list float;
  numdiff_use_bounds : list bool;
  numdiff_use_upper_bounds : list bool;
  numdiff_use_lower_bounds : list bool;
  numdiff_parameter_transformation : nat → vector → vector
}.

(** One element of [lower_bounds] or [upper_bounds]: a scalar, or a vector
    with a value per problem instance. *)
Inductive bound :=
  | Scalar (b : float)
  | PerProblem (v : list float).

(** The value of a bound for problem [k] of [n], as numpy broadcasts it
    against a column of [parameters]. *)
Definition bound_at (b : bound) (n k : nat) : option float :=
  match b with
  | Scalar x => Some x
  | PerProblem v =>
      if decide (length v = n) then v !! k
      else if decide (length v = 1) then v !! 0
      else None
  end.

(** [np.abs(bounds[ind] - parameters[:, ind]) * scaling], or with the
    operands of the subtraction swapped. *)
Definition distance_to (upper : bool) (b : bound) (x : vector) : option vector :=
  mapM (λ '(k, xk), bk ← bound_at b (length x) k;
                    Some (abs (if upper then bk - xk else xk - bk)%float))
       (imap pair x).

(** The column [ind] of the result of [_get_initial_step_size]: the body of
    its loop. *)
Definition initial_step_column (model : NumericalDerivativeInterface)
    (parameters : matrix) (lower_bounds upper_bounds : list bound) (ind : nat)
    : option vector :=
  max_step ← numdiff_get_max_step model !! ind;
  use_bounds ← numdiff_use_bounds model !! ind;
  if use_bounds : bool then
    use_lower ← numdiff_use_lower_bounds model !! ind;
    use_upper ← numdiff_use_upper_bounds model !! ind;
    x ← column parameters ind;
    scaling ← numdiff_get_scaling_factors model !! ind;
    minimum_allowed_step ←
      (if (use_upper : bool) && negb use_lower then
         ub ← upper_bounds !! ind;
         d ← distance_to true ub x;
         Some (map (λ a, a * scaling)%float d)
       else if use_lower && negb use_upper then
         lb ← lower_bounds !! ind;
         d ← distance_to false lb x;
         Some (map (λ a, a * scaling)%float d)
       else
         lb ← lower_bounds !! ind;
         ub ← upper_bounds !! ind;
         dl ← distance_to false lb x;
         du ← distance_to true ub x;
         Some (map (λ a, a * scaling)%float (zip_with np_minimum dl du)));
    Some (map (λ s, np_minimum s max_step) minimum_allowed_step)
  else
    Some (replicate (length parameters) max_step).

(** [_get_initial_step_size]: [initial_step = np.zeros_like(parameters)],
    then one column per parameter. *)
Definition _get_initial_step_size (model : NumericalDerivativeInterface)
    (parameters : matrix) (lower_bounds upper_bounds : list bound) : option matrix :=
  foldl (λ acc ind,
           initial_step ← acc;
           col ← initial_step_column model parameters lower_bounds upper_bounds ind;
           Some (set_column initial_step ind col))
        (Some (map (map (λ _, 0%float)) parameters))
        (seq 0 (nmr_columns parameters)).

(** The distance of [x] to the bounds that are in use, as the three
    branches of [_get_initial_step_size] compute it. *)
Definition bound_clearance (use_lower use_upper : bool) (l u x : float) : float :=
  if use_upper && negb use_lower then abs (u - x)%float
  else if use_lower && negb use_upper then abs (x - l)%float
  else np_minimum (abs (x - l)%float) (abs (u - x)%float).

(** *** The lower triangular layout of the derivatives *)

(** [itertools.combinations_with_replacement(range(nmr_params), 2)], the
    coordinate table of [_derivation_kernel]: entry [coord_ind] is the pair
    of parameters whose derivative is stored at index [coord_ind]. *)
Definition coords (nmr_params : nat) : list (nat * nat) :=
  x ← seq 0 nmr_params; y ← seq x (nmr_params - x); [(x, y)].

(** [(nmr_params ** 2 - nmr_params) // 2 + nmr_params] *)
Definition nmr_derivatives_of (nmr_params : nat) : nat :=
  (nmr_params ^ 2 - nmr_params) `div` 2 + nmr_params.

(** The entry [c] of the coordinate table holds the derivative to the
    parameters [px] and [py], in either order. *)
Definition stored_at (px py : nat) (c : nat * nat) : Prop :=
  c = (px `min` py, px `max` py).

#[global] Instance stored_at_dec px py c : Decision (stored_at px py c).
Proof. unfold stored_at. apply _. Defined.

(** The linear index the kernel gives to the unordered pair [(px, py)]: its
    position in the coordinate table. *)
Definition pack (nmr_params px py : nat) : option nat :=
  fst <$> list_find (stored_at px py) (coords nmr_params).

(** The pair stored at a linear index, [coords[coord_ind]]. *)
Definition unpack (nmr_params coord_ind : nat) : option (nat * nat) :=
  coords nmr_params !! coord_ind.

(** The loop state of [_results_vector_to_matrix]: the matrix under
    construction and [ltr_ind]. *)
Abbreviation fill_state := (list (list float) * nat)%type (only parsing).

(** Body of the inner loop: [matrices[px, py] = matrices[py, px] =
    vectors[ltr_ind]; ltr_ind += 1]. *)
Definition fill_off_diagonal (vectors : vector) (px : nat)
    (st : option fill_state) (py : nat) : option fill_state :=
  '(matrices, ltr_ind) ← st;
  x ← vectors !! ltr_ind;
  Some (mset (mset matrices px py x) py px x, S ltr_ind).

(** Body of the outer loop. *)
Definition fill_row (vectors : vector) (nmr_params : nat)
    (st : option fill_state) (px : nat) : option fill_state :=
  '(matrices, ltr_ind) ← st;
  x ← vectors !! ltr_ind;
  foldl (fill_off_diagonal vectors px) (Some (mset matrices px px x, S ltr_ind))
        (seq (S px) (nmr_params - S px)).

(** The assignments of one iteration, for the entry [c] of the coordinate
    table: on the diagonal the second one repeats the first. *)
Definition fill_entry (vectors : vector) (st : option fill_state) (c : nat * nat)
    : option fill_state :=
  '(matrices, ltr_ind) ← st;
  x ← vectors !! ltr_ind;
  Some (mset (mset matrices c.1 c.2 x) c.2 c.1 x, S ltr_ind).

(** [_results_vector_to_matrix] on the vector of one problem. *)
Definition results_vector_to_matrix1 (vectors : vector) (nmr_params : nat) : option matrix :=
  fst <$> foldl (fill_row vectors nmr_params)
                (Some (zeros2 nmr_params nmr_params, 0)) (seq 0 nmr_params).

(** [_results_vector_to_matrix(vectors, nmr_params)] for [vectors] of shape
    [(nmr_problems, nmr_derivatives)]: the leading axis is carried along by
    the ellipsis of every assignment. *)
Definition _results_vector_to_matrix (vectors : list vector) (nmr_params : nat)
    : option (list matrix) :=
  mapM (λ v, results_vector_to_matrix1 v nmr_params) vectors.

(** [np.outer(a, b)] *)
Definition np_outer (a b : vector) : matrix :=
  map (λ x, map (λ y, x * y)%float b) a.

(** [finalize_derivatives], the closure of [numerical_hessian], for a model
    with one scaling for every parameter, as the interface asks: the product
    broadcasts the [(p, p)] outer product of the scalings over the problems.
    With another number [k] of scalings there is no result here: numpy
    raises, or stretches an axis of length one ([p = 1] to [k], [k = 1] to
    [p]), and with [k < p] the kernel has read outside of
    [parameter_scalings_inv] before. *)
Definition finalize_derivatives (model : NumericalDerivativeInterface)
    (nmr_params : nat) (derivatives : list vector) : option (list matrix) :=
  let parameter_scalings := numdiff_get_scaling_factors model in
  matrices ← _results_vector_to_matrix derivatives nmr_params;
  guard (length parameter_scalings = nmr_params);;
  Some (map (λ m, zip_with (zip_with PrimFloat.mul) m
                           (np_outer parameter_scalings parameter_scalings))
            matrices).

(** *** The central difference kernel *)

Section kernels.
Context `{env : CLEnvironment}.

(** A value converted to [mot_float_type]. *)
Definition to_mot_float_type (x : float) : float :=
  if double_precision then x else to_float32 x.

(** [x_tmp[dim] += perturb] on a [mot_float_type] array. *)
Definition perturb (x_tmp : vector) (dim : nat) (perturbation : float) : vector :=
  alter (λ v, to_mot_float_type (v + perturbation)%float) dim x_tmp.

(** [_eval_step]: the objective at the transformed perturbed parameters. The
    perturbations arrive as [mot_float_type] arguments. *)
Definition _eval_step (model : NumericalDerivativeInterface)
    (objective_func : nat → vector → float) (problem_id : nat) (x_input : vector)
    (perturb_dim_0 : nat) (perturb_0 : float)
    (perturb_dim_1 : nat) (perturb_1 : float) : float :=
  let x_tmp := perturb x_input perturb_dim_0 (to_mot_float_type perturb_0) in
  let x_tmp := perturb x_tmp perturb_dim_1 (to_mot_float_type perturb_1) in
  objective_func problem_id (numdiff_parameter_transformation model problem_id x_tmp).

(** One iteration of the loops of [_compute_steps]: the raw finite difference
    of the pair [(px, py)] at step [step_ind]. *)
Definition _compute_step_value (model : NumericalDerivativeInterface)
    (objective_func : nat → vector → float) (problem_id : nat)
    (step_ratio : float) (x_input : vector) (f_x_input : float)
    (parameter_scalings_inv initial_step : list float)
    (px py step_ind : nat) : float :=
  let ev := _eval_step model objective_func problem_id x_input in
  if decide (px = py) then
    let step_x := (buf initial_step px / pown step_ratio step_ind)%float in
    let sx := (step_x * buf parameter_scalings_inv px)%float in
    ((ev px (2 * sx) 0%nat 0 + ev px (-2 * sx) 0%nat 0
      - to_mot_float_type (2 * f_x_input))
     / (4 * step_x * step_x))%float
  else
    let step_x := (buf initial_step px / pown step_ratio step_ind)%float in
    let step_y := (buf initial_step py / pown step_ratio step_ind)%float in
    let sx := (step_x * buf parameter_scalings_inv px)%float in
    let sxn := (- step_x * buf parameter_scalings_inv px)%float in
    let sy := (step_y * buf parameter_scalings_inv py)%float in
    let syn := (- step_y * buf parameter_scalings_inv py)%float in
    ((ev px sx py sy - ev px sx py syn - ev px sxn py sy + ev px sxn py syn)
     / (4 * step_x * step_y))%float.

(** The kernel of [_derivation_kernel] on one problem instance: for every
    entry of the coordinate table, the values of all steps, written at
    [step_evaluates + coord_ind * nmr_steps]. *)
Definition derivation_kernel (model : NumericalDerivativeInterface)
    (objective_func : nat → vector → float) (nmr_params nmr_steps : nat)
    (step_ratio : float) (problem_id : nat)
    (parameters parameter_scalings_inv initial_step : list float) : list (list float) :=
  let f_x_input := to_mot_float_type (objective_func problem_id parameters) in
  map (λ '(px, py),
         map (_compute_step_value model objective_func problem_id step_ratio
                parameters f_x_input parameter_scalings_inv initial_step px py)
             (seq 0 nmr_steps))
      (coords nmr_params).

(** Python's [v ** n] for a [float] and an [int], as [float.__pow__] has
    it: the exponent is converted to [float]; the cases of a zero exponent,
    of a NaN, an infinite or a zero base and of the bases [1] and [-1] are
    decided before C's [pow] is asked, a zero base with a negative exponent
    being a [ZeroDivisionError]; a negative base is raised by its absolute
    value and the sign restored for an odd exponent; and a result of [pow]
    beyond the doubles is an [OverflowError]. *)
Definition float_pow_int (v : float) (n : Z) : option float :=
  iw ← of_int n;
  if (iw =? 0)%float then Some 1%float
  else if is_nan v then Some v
  else
    let iw_is_odd := Z.odd (float_to_Z iw) in
    if is_infinity v then
      Some (if (0 <? iw)%float then (if iw_is_odd then v else abs v)
            else (if iw_is_odd then (if (v <? 0)%float then (-0)%float else 0%float)
                  else 0%float))
    else if (v =? 0)%float then
      if (iw <? 0)%float then None
      else Some (if iw_is_odd then v else 0%float)
    else
      let negate_result := (v <? 0)%float && iw_is_odd in
      let v := if (v <? 0)%float then (- v)%float else v in
      if (v =? 1)%float then Some (if negate_result then (-1)%float else 1%float)
      else
        let ix := c_pow v iw in
        if is_infinity ix then None
        else Some (if negate_result then (- ix)%float else ix).

(** Lines 135 and 136 of [_compute_derivatives]:
    [if step_offset: initial_step *= float(step_ratio) ** -step_offset].
    [step_offset] is [None] or an integer, of which zero is false. *)
Definition offset_initial_step (step_ratio : float) (step_offset : option Z)
    (initial_step : matrix) : option matrix :=
  match step_offset with
  | Some off =>
      if decide (off = 0%Z) then Some initial_step
      else
        factor ← float_pow_int step_ratio (- off);
        Some (map (map (λ s, s * factor)%float) initial_step)
  | None => Some initial_step
  end.

(** [_compute_derivatives] *)
Definition _compute_derivatives (model : NumericalDerivativeInterface)
    (objective_func : nat → vector → float) (parameters : matrix)
    (step_ratio : float) (step_offset : option Z) (nmr_steps : nat)
    (lower_bounds upper_bounds : list bound) : option ndarray3 :=
  let parameter_scalings := numdiff_get_scaling_factors model in
  let nmr_params := nmr_columns parameters in
  let nmr_derivatives := nmr_derivatives_of nmr_params in
  initial_step ← _get_initial_step_size model parameters lower_bounds upper_bounds;
  initial_step ← offset_initial_step step_ratio step_offset initial_step;
  let parameter_scalings_inv := map (λ s, to_float32 (1 / s)%float) parameter_scalings in
  Some (Ndarray3 (length parameters) nmr_derivatives nmr_steps
          (imap (λ problem_id '(x, h),
                   derivation_kernel model objective_func nmr_params nmr_steps step_ratio
                     problem_id (map to_mot_float_type x) parameter_scalings_inv
                     (map to_float32 h))
                (zip parameters initial_step))).

(** *** Richardson extrapolation *)

(** [r_matrix(num_terms)]: a column of ones, then
    [(1 / step_ratio) ** (i * (2 * j + 2))]. The division is the one of the
    doubles, as it is for a [numpy.float64]; for a [step_ratio] that is a
    Python number and zero, Python raises its [ZeroDivisionError] here. *)
Definition r_matrix (step_ratio : float) (num_terms : nat) : matrix :=
  map (λ i, 1%float ::
            map (λ j, c_pow (1 / step_ratio)%float (of_nat (i * (2 * j + 2))))
                (seq 0 num_terms))
      (seq 0 (num_terms + 1)).

(** [_get_richardson_coefficients]: row 0 of the pseudo inverse. *)
Definition _get_richardson_coefficients (step_ratio : float) (nmr_extrapolations : nat)
    : option (list float) :=
  if decide (nmr_extrapolations = 0) then Some [1%float]
  else linalg_pinv (r_matrix step_ratio nmr_extrapolations) !! 0.

(** The index [kernel_step_ind] after the reflection at the last step. *)
Definition reflect (nmr_steps kernel_step_ind : nat) : nat :=
  if decide (nmr_steps ≤ kernel_step_ind)
  then kernel_step_ind - (2 * (kernel_step_ind - nmr_steps) + 1)
  else kernel_step_ind.

(** [_apply_richardson_convolution] on the steps of one derivative. *)
Definition _apply_richardson_convolution (nmr_steps nmr_convolutions : nat)
    (richardson_coefficients derivatives : list float) : list float :=
  map (λ step_ind,
         foldl (λ acc kernel_ind,
                  (acc + buf derivatives (reflect nmr_steps (step_ind + kernel_ind))
                         * buf richardson_coefficients kernel_ind)%float)
               0%float (seq 0 (length richardson_coefficients)))
      (seq 0 nmr_convolutions).

(** The factor of the error estimate. Python evaluates the product and
    writes it into the kernel source, the kernel casts it. *)
Definition richardson_fact (richardson_coefficients : list float) : float :=
  cl_max
    (to_mot_float_type
       (12.7062047361747
        * sqrt (np_sum (map (λ c, c * c) richardson_coefficients)))%float)
    (to_mot_float_type (to_mot_float_type MOT_EPSILON * 10)%float).

(** [_compute_richardson_errors] on one derivative. *)
Definition _compute_richardson_errors (nmr_steps nmr_convolutions : nat)
    (richardson_coefficients derivatives richardson_extrapolations : list float)
    : list float :=
  let fact := richardson_fact richardson_coefficients in
  map (λ conv_ind,
         let r0 := buf richardson_extrapolations conv_ind in
         let r1 := buf richardson_extrapolations (conv_ind + 1) in
         let tolerance := (cl_max (abs r1) (abs r0) * MOT_EPSILON * fact)%float in
         let error := (abs (r0 - r1) * fact)%float in
         if (error <=? tolerance)%float then (error + tolerance * 10)%float
         else (error
               + abs (r0 - buf derivatives (nmr_steps + 1 - nmr_convolutions + conv_ind))
                 * fact)%float)
      (seq 0 (nmr_convolutions - 1)).

(** [_richardson_extrapolation]. A negative size of an output buffer is a
    [ValueError] of its allocation. *)
Definition _richardson_extrapolation (derivatives : ndarray3) (step_ratio : float)
    : option (ndarray3 * ndarray3) :=
  let nmr_steps := shape2 derivatives in
  guard (1 ≤ nmr_steps);;
  richardson_coefficients ←
    _get_richardson_coefficients step_ratio (nmr_steps `min` 3 - 1);
  guard (length richardson_coefficients ≤ nmr_steps + 1);;
  let nmr_convolutions_needed := nmr_steps + 2 - length richardson_coefficients in
  let final_nmr_convolutions := nmr_convolutions_needed - 1 in
  let extrapolate row :=
    _apply_richardson_convolution nmr_steps nmr_convolutions_needed
      richardson_coefficients row in
  let richardson_extrapolations :=
    Ndarray3 (shape0 derivatives) (shape1 derivatives) nmr_convolutions_needed
             (map (map extrapolate) (data derivatives)) in
  let errors :=
    Ndarray3 (shape0 derivatives) (shape1 derivatives) final_nmr_convolutions
             (map (map (λ row, _compute_richardson_errors nmr_steps nmr_convolutions_needed
                                 richardson_coefficients row (extrapolate row)))
                  (data derivatives)) in
  Some (take_last_axis final_nmr_convolutions richardson_extrapolations, errors).

(** What the routine relies on from scipy: the pseudo inverse of a square
    matrix is a square matrix of the same order. *)
Definition pinv_keeps_square : Prop :=
  ∀ (m : list (list float)) k,
    length m = k → Forall (λ row, length row = k) m →
    length (linalg_pinv m) = k ∧ Forall (λ row, length row = k) (linalg_pinv m).

(** *** Wynn's epsilon algorithm *)

(** One iteration of the kernel of [_wynn_extrapolation_kernel]: the
    extrapolation of [derivatives[i .. i + 2]] and its error. *)
Definition wynn_step (derivatives : list float) (i : nat) : float * float :=
  let v0 := buf derivatives i in
  let v1 := buf derivatives (i + 1) in
  let v2 := buf derivatives (i + 2) in
  let delta0 := (v1 - v0)%float in
  let delta1 := (v2 - v1)%float in
  let err0 := abs delta0 in
  let err1 := abs delta1 in
  let tol0 := (cl_max (abs v0) (abs v1) * MOT_EPSILON)%float in
  let tol1 := (cl_max (abs v1) (abs v2) * MOT_EPSILON)%float in
  let delta0 := if (err0 <? MOT_MIN)%float then MOT_MIN else delta0 in
  let delta1 := if (err1 <? MOT_MIN)%float then MOT_MIN else delta1 in
  let ss := (1 / delta1 - 1 / delta0 + MOT_MIN)%float in
  let converged :=
    ((err0 <=? tol0)%float && (err1 <=? tol1)%float)
    || (abs (ss * v1) <=? 1e-3)%float in
  let result := if converged then v2 else (v1 + 1 / ss)%float in
  (result,
   (err0 + err1 + (if converged then tol1 * 10 else abs (result - v2)))%float).

(** [_wynn_extrapolate]: [nmr_steps - 2] extrapolations of every derivative;
    with fewer than two steps the size of the output buffers is negative. *)
Definition _wynn_extrapolate (derivatives : ndarray3) : option (ndarray3 * ndarray3) :=
  let nmr_steps := shape2 derivatives in
  guard (2 ≤ nmr_steps);;
  let nmr_extrapolations := nmr_steps - 2 in
  let run (component : float * float → float) :=
    Ndarray3 (shape0 derivatives) (shape1 derivatives) nmr_extrapolations
             (map (map (λ row, map (λ i, component (wynn_step row i))
                                   (seq 0 nmr_extrapolations)))
                  (data derivatives)) in
  Some (run fst, run snd).

End kernels.

(** *** Arrays shared with the caller *)

(** The arrays a Python function receives are references: a store maps the
    location of an array to its contents, and an in-place assignment
    replaces the contents at the location. *)
Abbreviation loc := nat (only parsing).
Abbreviation store := (gmap nat ndarray3) (only parsing).

(** A computation on the store that may raise. The store it leaves behind
    is the one at the moment of the exception. *)
Definition St (A : Type) : Type := store → option A * store.

Definition st_ret {A} (x : A) : St A := λ σ, (Some x, σ).

Definition st_bind {A B} (f : A → St B) (m : St A) : St B :=
  λ σ, match m σ with
       | (Some x, σ') => f x σ'
       | (None, σ') => (None, σ')
       end.

#[global] Instance St_ret : MRet St := @st_ret.
#[global] Instance St_bind : MBind St := @st_bind.

(** A pure step that may raise. *)
Definition st_lift {A} (o : option A) : St A := λ σ, (o, σ).

Definition st_read (l : loc) : St ndarray3 := λ σ, (σ !! l, σ).

Definition st_write (l : loc) (a : ndarray3) : St unit := λ σ, (Some (), <[l := a]> σ).

(** [a[i, j, k]] *)
Definition get3 (a : ndarray3) (i j k : nat) : option float :=
  plane ← data a !! i; row ← plane !! j; row !! k.

(** [a[i, j, :]]: the candidates of one entry. *)
Definition row3 (a : ndarray3) (i j : nat) : option (list float) :=
  plane ← data a !! i; plane !! j.

(** [a[i, j, k] = x]; an [IndexError] outside of the array. *)
Definition set3 (a : ndarray3) (i j k : nat) (x : float) : option ndarray3 :=
  plane ← data a !! i;
  row ← plane !! j;
  guard (k < length row);;
  Some (Ndarray3 (shape0 a) (shape1 a) (shape2 a)
          (<[i := <[j := <[k := x]> row]> plane]> (data a))).

(** [m[i, j] = x] on a two dimensional array; an [IndexError] outside. *)
Definition set2 (m : matrix) (i j : nat) (x : float) : option matrix :=
  _ ← mget m i j; Some (mset m i j x).

(** *** Selection of the best estimate *)

Section selection.
Context `{env : CLEnvironment}.

(** The row of [_get_median_outliers_errors(der)] for the candidates of one
    derivative. On boolean arrays [+] is the disjunction and [*] the
    conjunction. *)
Definition _get_median_outliers_errors (der : list float) : list float :=
  let trim_fact := 10%float in
  let p25 := np_nanpercentile der 25 in
  let median := np_nanpercentile der 50 in
  let p75 := np_nanpercentile der 75 in
  let iqr := abs (p75 - p25)%float in
  let a_median := abs median in
  map (λ d,
         let outliers :=
           ((abs d <? a_median / trim_fact)%float || (a_median * trim_fact <? abs d)%float)
           && (1e-8 <? a_median)%float
           || ((d <? p25 - 1.5 * iqr)%float || (p75 + 1.5 * iqr <? d)%float) in
         (of_bool outliers * abs (d - median))%float)
      der.

(** The index pairs of [np.where(np.sum(np.isnan(errors), axis=2) ==
    errors.shape[2])], in row major order. *)
Definition all_nan_entries (errors : ndarray3) : list (nat * nat) :=
  mjoin (imap (λ i plane,
                 omap (λ '(j, row), if forallb is_nan row then Some (i, j) else None)
                      (imap pair plane))
              (data errors)).

(** [a[all_nan[0], all_nan[1], 0] = x] *)
Definition set_first_candidates (x : float) (entries : list (nat * nat)) (a : ndarray3)
    : option ndarray3 :=
  foldl (λ acc '(i, j), a ← acc; set3 a i j 0 x) (Some a) entries.

(** [m[all_nan[0], all_nan[1]] = x] *)
Definition set_entries (x : float) (entries : list (nat * nat)) (m : matrix)
    : option matrix :=
  foldl (λ acc '(i, j), m ← acc; set2 m i j x) (Some m) entries.

(** The loop of numpy's [argmin] over doubles after the first element. *)
Fixpoint argmin_loop (mp : float) (min_ind i : nat) (ip : list float) : nat :=
  match ip with
  | [] => min_ind
  | v :: ip' =>
      if negb (mp <=? v)%float
      then (if is_nan v then i else argmin_loop v i (S i) ip')
      else argmin_loop mp min_ind (S i) ip'
  end.

(** [np.argmin] of a one dimensional slice: the first index of the minimum;
    a [ValueError] on an empty one. *)
Definition np_argmin (a : list float) : option nat :=
  match a with
  | [] => None
  | mp :: ip => Some (if is_nan mp then 0 else argmin_loop mp 0 1 ip)
  end.

(** [np.nanargmin] of a slice: NaN reads as [+inf]; a [ValueError] when
    every element is NaN. *)
Definition np_nanargmin (a : list float) : option nat :=
  if forallb is_nan a then None
  else np_argmin (map (λ x, if is_nan x then infinity else x) a).

(** [a[indices[0], indices[1], minpos]] *)
Definition gather (a : ndarray3) (minpos : list (list nat)) : option matrix :=
  mapM (λ '(plane, pos), mapM (λ '(row, k), (row : list float) !! (k : nat)) (zip plane pos))
       (zip (data a) minpos).

(** [errors += penalties], elementwise on arrays of one shape. *)
Definition add_in_place (errors : ndarray3) (penalties : list (list (list float)))
    : ndarray3 :=
  Ndarray3 (shape0 errors) (shape1 errors) (shape2 errors)
           (zip_with (zip_with (zip_with PrimFloat.add)) (data errors) penalties).

(** [_median_outlier_extrapolation(derivatives, errors)] on the arrays at
    two locations. The results are new arrays. *)
Definition _median_outlier_extrapolation (derivatives errors : loc)
    : St (matrix * matrix) :=
  e ← st_read errors;
  let all_nan := all_nan_entries e in
  e ← st_lift (set_first_candidates 0 all_nan e);
  st_write errors e;;
  d ← st_read derivatives;
  d ← st_lift (set_first_candidates 0 all_nan d);
  st_write derivatives d;;
  d ← st_read derivatives;
  e ← st_read errors;
  st_lift (guard ((shape0 d, shape1 d, shape2 d) = (shape0 e, shape1 e, shape2 e)));;
  st_write errors (add_in_place e (map (map _get_median_outliers_errors) (data d)));;
  e ← st_read errors;
  minpos ← st_lift (mapM (mapM np_nanargmin) (data e));
  d ← st_read derivatives;
  derivatives_final ← st_lift (gather d minpos);
  errors_final ← st_lift (gather e minpos);
  derivatives_final ← st_lift (set_entries nan all_nan derivatives_final);
  errors_final ← st_lift (set_entries nan all_nan errors_final);
  mret (derivatives_final, errors_final).

End selection.

(** *** The routine *)

Section routine.
Context `{env : CLEnvironment}.

(** [parameters]: one dimensional, or problems by parameters. *)
Inductive parameters_array :=
  | Parameters1d (v : vector)
  | Parameters2d (m : matrix).

(** [if len(parameters.shape) == 1: parameters = parameters[None, :]] *)
Definition at_least_2d (parameters : parameters_array) : matrix :=
  match parameters with
  | Parameters1d v => [v]
  | Parameters2d m => m
  end.

(** The call of [_median_outlier_extrapolation] by [numerical_hessian]: its
    two local arrays are the only ones of the store. *)
Definition run_median_outlier_extrapolation (derivatives errors : ndarray3)
    : option (matrix * matrix) :=
  fst (_median_outlier_extrapolation 0 1 (<[1 := errors]> (<[0 := derivatives]> ∅))).

(** Lines 102 and 103 of [numerical_hessian]: one pass of Wynn's algorithm
    when more than two candidates are left. *)
Definition wynn_stage (candidates : ndarray3 * ndarray3) : option (ndarray3 * ndarray3) :=
  let '(derivatives, errors) := candidates in
  if decide (2 < shape2 derivatives) then _wynn_extrapolate derivatives
  else Some (derivatives, errors).

(** Lines 105 to 108: the candidate of every derivative that is returned. *)
Definition select_stage (candidates : ndarray3 * ndarray3) : option matrix :=
  let '(derivatives, errors) := candidates in
  if decide (shape2 derivatives = 1) then take_first derivatives
  else fst <$> run_median_outlier_extrapolation derivatives errors.

(** [numerical_hessian]. [step_ratio] is the float the routine converts it
    to, [nmr_steps] a natural number, [step_offset] is [None] or an int. *)
Definition numerical_hessian (model : NumericalDerivativeInterface)
    (objective_func : nat → vector → float) (parameters : parameters_array)
    (lower_bounds upper_bounds : list bound)
    (step_ratio : float) (nmr_steps : nat) (step_offset : option Z)
    : option (list matrix) :=
  let parameters := at_least_2d parameters in
  let nmr_params := nmr_columns parameters in
  let finalize := finalize_derivatives model nmr_params in
  derivatives ← _compute_derivatives model objective_func parameters step_ratio
                   step_offset nmr_steps lower_bounds upper_bounds;
  if decide (nmr_steps = 1) then take_first derivatives ≫= finalize
  else
    candidates ← _richardson_extrapolation derivatives step_ratio;
    if decide (nmr_steps ≤ 3) then take_first candidates.1 ≫= finalize
    else
      candidates ← wynn_stage candidates;
      select_stage candidates ≫= finalize.

End routine.

(** *** The older routine of [cl_routines/mapping/numerical_hessian.py] *)

Module Mapping.

(** What [NumericalHessian.calculate] asks of its model. The objective is
    the value of [_calculate_function], the sum of the objective over the
    observations of a problem instance; the bound check is the model's CL
    function [(data, x, step, param_ind)]; [prepare_parameters] is the
    codec's [encode] followed by [decode], the identity without a codec. *)
Record model := {
  get_objective : nat → vector → float;
  numdiff_get_bound_check_function : nat → float → float → nat → bool;
  numdiff_get_max_step : list float;
  numdiff_get_scaling_factors : list float;
  prepare_parameters : nat → vector → vector
}.

(** The slices of the buffers [steps], [step_evaluates] and
    [step_evaluates_convoluted] of one problem instance. *)
Record buffers := Buffers {
  steps : list float;
  step_evaluates : list float;
  step_evaluates_convoluted : list float
}.

(** [ptr[offset + k] = values[k]] for every [k]. *)
Definition write_at (offset : nat) (values ptr : list float) : list float :=
  foldl (λ acc '(k, v), <[offset + k := v]> acc) ptr (imap pair values).

Section kernel.
Context `{env : CLEnvironment}.
Context (m : model) (problem_id nmr_params nmr_steps : nat) (step_ratio : float).

(** [_eval_step] *)
Definition _eval_step (x_input : vector)
    (perturb_loc_0 : nat) (perturb_0 : float)
    (perturb_loc_1 : nat) (perturb_1 : float) : float :=
  let x_tmp := perturb x_input perturb_loc_0 (to_mot_float_type perturb_0) in
  let x_tmp := perturb x_tmp perturb_loc_1 (to_mot_float_type perturb_1) in
  get_objective m problem_id (prepare_parameters m problem_id x_tmp).

(** [_compute_step]: the values lane 0 writes at [step_evaluate_ptr], in the
    order of [result_ind]. *)
Definition _compute_step (x_input : vector) (f_x_input : float)
    (step_sizes : list float) : list float :=
  let scaling := buf (numdiff_get_scaling_factors m) in
  let mot := to_mot_float_type in
  map (λ '(px, py),
         let hx := (buf step_sizes px / scaling px)%float in
         let hxn := (- buf step_sizes px / scaling px)%float in
         if decide (px = py) then
           ((_eval_step x_input px (2 * hx) 0%nat 0
             + _eval_step x_input px (-2 * hx) 0%nat 0
             - mot (2 * f_x_input))
            / mot (mot (4 * buf step_sizes px) * buf step_sizes px))%float
         else
           let hy := (buf step_sizes py / scaling py)%float in
           let hyn := (- buf step_sizes py / scaling py)%float in
           ((_eval_step x_input px hx py hy - _eval_step x_input px hx py hyn
             - _eval_step x_input px hxn py hy + _eval_step x_input px hxn py hyn)
            / mot (mot (4 * buf step_sizes px) * buf step_sizes py))%float)
      (coords nmr_params).

(** [_get_richardson_rules]: row 0 of the pseudo inverses for one and for
    two terms. *)
Definition _get_richardson_rules : option (list float * list float) :=
  kernel_2 ← linalg_pinv (r_matrix step_ratio 1) !! 0;
  kernel_3 ← linalg_pinv (r_matrix step_ratio 2) !! 0;
  Some (kernel_2, kernel_3).

(** [_apply_richardson_convolution]: every element of every step row
    accumulates the convolution into [step_evaluates_convoluted]. *)
Definition _apply_richardson_convolution (richardson_rules : list float * list float)
    (step_evaluates step_evaluates_convoluted : list float) : list float :=
  let elements_needed := nmr_derivatives_of nmr_params in
  if decide (nmr_steps ≤ 1) then step_evaluates_convoluted
  else
    let '(kernel_ptr, kernel_length) :=
      if decide (nmr_steps = 2) then (richardson_rules.1, 2) else (richardson_rules.2, 3) in
    foldl (λ conv '(element_ind, step_ind, kernel_ind),
             let kernel_step_ind := reflect nmr_steps (step_ind + kernel_ind) in
             let at_ := step_ind * elements_needed + element_ind in
             <[at_ := (buf conv at_
                       + buf step_evaluates (kernel_step_ind * elements_needed + element_ind)
                         * buf kernel_ptr kernel_ind)%float]> conv)
          step_evaluates_convoluted
          (element_ind ← seq 0 elements_needed;
           step_ind ← seq 0 nmr_steps;
           kernel_ind ← seq 0 kernel_length;
           [(element_ind, step_ind, kernel_ind)]).

(** [_initial_point_within_bounds]. Its loop runs over [nmr_steps]
    indices, as the kernel source has it. *)
Definition _initial_point_within_bounds (x : vector) : bool :=
  forallb (λ param_ind,
             numdiff_get_bound_check_function m problem_id (buf x param_ind) 0%float param_ind)
          (seq 0 nmr_steps).

(** One of the ten iterations of the search for the first step of a
    parameter; the state is [first_step], [first_step_found] and the step
    sizes. *)
Definition halve_first_step (x_input : vector) (param_ind : nat)
    (st : float * bool * list float) (i : nat) : float * bool * list float :=
  let '(first_step, first_step_found, step_sizes) := st in
  if numdiff_get_bound_check_function m problem_id (buf x_input param_ind)
       (first_step / buf (numdiff_get_scaling_factors m) param_ind)%float param_ind
  then (first_step, true, <[param_ind := first_step]> step_sizes)
  else (to_mot_float_type (first_step / 2)%float, first_step_found, step_sizes).

(** The loop over the parameters of [_generate_grid_points], with its early
    return. *)
Fixpoint generate_grid_points_loop (x_input : vector) (params : list nat)
    (first_step_found : bool) (step_sizes : list float) : bool * list float :=
  match params with
  | [] => (true, step_sizes)
  | param_ind :: params' =>
      let '(first_step, first_step_found, step_sizes) :=
        foldl (halve_first_step x_input param_ind)
              (to_mot_float_type (buf (numdiff_get_max_step m) param_ind),
               first_step_found, step_sizes)
              (seq 0 10) in
      if negb first_step_found then (false, step_sizes)
      else
        generate_grid_points_loop x_input params' first_step_found
          (foldl (λ acc step_ind,
                    <[param_ind + step_ind * nmr_params :=
                        to_mot_float_type (first_step / pown step_ratio step_ind)%float]> acc)
                 step_sizes (seq 1 (nmr_steps - 1)))
  end.

(** [_generate_grid_points]: [first_step_found] starts as [true]. *)
Definition _generate_grid_points (x_input : vector) (step_sizes : list float)
    : bool * list float :=
  generate_grid_points_loop x_input (seq 0 nmr_params) true step_sizes.

(** The kernel [compute] on one problem instance: the buffers it leaves. *)
Definition compute (richardson_rules : list float * list float)
    (parameters : vector) (b : buffers) : buffers :=
  let elements_needed := nmr_derivatives_of nmr_params in
  let x_input := map to_mot_float_type parameters in
  let f_x_input := get_objective m problem_id x_input in
  if negb (_initial_point_within_bounds x_input) then b
  else
    let '(within_bounds, steps') := _generate_grid_points x_input (steps b) in
    if negb within_bounds then Buffers steps' (step_evaluates b) (step_evaluates_convoluted b)
    else
      let step_evaluates' :=
        foldl (λ acc step_ind,
                 write_at (step_ind * elements_needed)
                   (_compute_step x_input (to_mot_float_type f_x_input)
                      (drop (step_ind * nmr_params) steps'))
                   acc)
              (step_evaluates b) (seq 0 nmr_steps) in
      Buffers steps' step_evaluates'
        (_apply_richardson_convolution richardson_rules step_evaluates'
           (step_evaluates_convoluted b)).

End kernel.

(** [RunProcedure.run_procedure] on the kernel: every problem instance runs
    it on its own slices. [steps] is allocated as zeros by [calculate], the
    contents of the two allocated output buffers are those of their
    allocation. *)
Definition run_procedure `{env : CLEnvironment} (m : model) (nmr_steps : nat)
    (step_ratio : float) (parameters : matrix) (allocated : list buffers)
    : option (list buffers) :=
  richardson_rules ← _get_richardson_rules step_ratio;
  Some (imap (λ problem_id '(x, b),
                compute m problem_id (nmr_columns parameters) nmr_steps step_ratio
                  richardson_rules x
                  (Buffers (replicate (nmr_steps * nmr_columns parameters) 0%float)
                           (step_evaluates b) (step_evaluates_convoluted b)))
             (zip parameters allocated)).


(** [np.fmin] of two doubles: the smaller one, a NaN loses. *)
Definition np_fmin (in1 in2 : float) : float :=
  if (in1 <=? in2)%float || is_nan in2 then in1 else in2.

(** [np.nanmin] of a slice that is not all NaN. *)
Definition np_nanmin (a : list float) : float :=
  match a with
  | [] => nan
  | x :: rest => foldl np_fmin x rest
  end.

(** [np.flatnonzero(a == x)] *)
Definition flatnonzero_eq (a : list float) (x : float) : list nat :=
  omap (λ '(k, v), if (v =? x)%float then Some k else None) (imap pair a).

(** The body of the loop of [_get_arg_min] for the errors of one entry:
    the middle one of the indices of the minimal error. *)
Definition arg_min_of_entry (errors_i : list float) : option nat :=
  let min_error := np_nanmin errors_i in
  let idx := flatnonzero_eq errors_i min_error in
  idx !! (length idx `div` 2).

(** [Extrapolate._get_arg_min(errors)] for [errors] of shape (candidates,
    entries): the flat index of the chosen candidate of every entry. When
    [np.nanargmin] raises its [ValueError] the first candidate is taken for
    every entry. *)
Definition _get_arg_min (errors : matrix) : option (list nat) :=
  let shape1 := nmr_columns errors in
  match mapM (λ i, column errors i ≫= np_nanargmin) (seq 0 shape1) with
  | None => Some (seq 0 shape1)
  | Some _ =>
      mapM (λ i, errors_i ← column errors i;
                 arg_min ← arg_min_of_entry errors_i;
                 Some (arg_min * shape1 + i))
           (seq 0 shape1)
  end.

End Mapping.

(** *** The host side extrapolation of the older routine

    The older routine extrapolates on the host, with the functions it copied
    from numdifftools. Its arrays have the steps along the first axis and
    the entries of the Hessian along the second. *)

Module Extrapolation.

(** [np.finfo(float).eps] and [np.finfo(float).tiny] *)
Definition EPS : float := 0x1p-52%float.
Definition _TINY : float := 0x1p-1022%float.

(** [np.maximum]: the scalar loop of numpy,
    [(in1 >= in2 || isnan(in1)) ? in1 : in2]. *)
Definition np_maximum (in1 in2 : float) : float :=
  if (in2 <=? in1)%float || is_nan in1 then in1 else in2.

(** [max_abs] *)
Definition max_abs (a1 a2 : float) : float := np_maximum (abs a1) (abs a2).

(** An elementwise operation on two arrays of one shape. Operands of
    different shapes give [None]: numpy raises for them, or stretches an
    axis of length one, which no call followed here relies on. *)
Definition zip_same {A B C} (f : A → B → C) (a : list A) (b : list B)
    : option (list C) :=
  if decide (length a = length b) then Some (zip_with f a b) else None.

Definition map2 {A B C} (f : A → B → C) (a : list (list A)) (b : list (list B))
    : option (list (list C)) :=
  if decide (length a = length b)
  then mapM (λ rows, zip_same f rows.1 rows.2) (zip a b)
  else None.

(** [dea3] on one element of its three arrays: the extrapolated value and
    the estimate of its absolute error. *)
Definition dea3_element (e0 e1 e2 : float) : float * float :=
  let delta2 := (e2 - e1)%float in
  let delta1 := (e1 - e0)%float in
  let err2 := abs delta2 in
  let err1 := abs delta1 in
  let tol2 := (max_abs e2 e1 * EPS)%float in
  let tol1 := (max_abs e1 e0 * EPS)%float in
  let delta1 := if (err1 <? _TINY)%float then _TINY else delta1 in
  let delta2 := if (err2 <? _TINY)%float then _TINY else delta2 in
  let ss := (1 / delta2 - 1 / delta1 + _TINY)%float in
  let smalle2 := (abs (ss * e1) <=? 1.0e-3)%float in
  let converged := (err1 <=? tol1)%float && (err2 <=? tol2)%float || smalle2 in
  let result := if converged then (e2 * 1)%float else (e1 + 1 / ss)%float in
  (result,
   (err1 + err2 + (if converged then tol2 * 10 else abs (result - e2)))%float).

(** [dea3(v0, v1, v2, symmetric)] *)
Definition dea3 (v0 v1 v2 : list (list float)) (symmetric : bool)
    : option (list (list float) * list (list float)) :=
  v12 ← map2 pair v1 v2;
  both ← map2 (λ e0 '(e1, e2), dea3_element e0 e1 e2) v0 v12;
  let result := map (map fst) both in
  let abserr := map (map snd) both in
  Some (if symmetric && bool_decide (1 < length result)
        then (take (length result - 1) result, drop 1 abserr)
        else (result, abserr)).

(** [Extrapolate._wynn_extrapolate(der, steps)] *)
Definition _wynn_extrapolate (der steps : list (list float))
    : option (list (list float) * list (list float) * list (list float)) :=
  '(der', errors) ←
    dea3 (take (length der - 2) der) (drop 1 (take (length der - 1) der)) (drop 2 der)
         false;
  Some (der', errors, drop 2 steps).

(** [a[-k:]] for a non-negative [k]: the last [k] rows, and all of them for
    [k = 0] since [-0] is [0]. *)
Definition py_last {A} (k : nat) (l : list A) : list A :=
  if decide (k = 0) then l else drop (length l - k) l.

(** [a[:m]] for an integer [m], negative ones counting from the end. *)
Definition py_take {A} (m : Z) (l : list A) : list A :=
  if (0 <=? m)%Z then take (Z.to_nat m) l
  else take (length l - Z.to_nat (- m)) l.

(** [np.diff(a, axis=0)] *)
Definition np_diff (a : list (list float)) : option (list (list float)) :=
  map2 (λ x y, x - y)%float (drop 1 a) (take (length a - 1) a).

(** [err + np.where(err <= tol, tol * 10, otherwise)] *)
Definition add_where (err tol otherwise : list (list float))
    : option (list (list float)) :=
  err_tol ← map2 pair err tol;
  map2 (λ '(e, t) d, e + (if e <=? t then t * 10 else d))%float err_tol otherwise.

(** The class [Richardson]. *)
Record Richardson := {
  step_ratio : float;
  step : nat;
  order : nat;
  num_terms : nat
}.

Section host.
Context `{env : CLEnvironment}.

(** [Richardson._r_matrix]. The division is the one of the doubles, as it
    is for a [numpy.float64]; for a [step_ratio] that is a Python number and
    zero, Python raises its [ZeroDivisionError] here. *)
Definition _r_matrix (self : Richardson) (num_terms : nat) : list (list float) :=
  map (λ i, 1%float ::
            map (λ j, c_pow (1 / step_ratio self)%float
                            (of_nat (i * (step self * j + order self))))
                (seq 0 num_terms))
      (seq 0 (num_terms + 1)).

(** [Richardson.rule] *)
Definition rule (self : Richardson) (sequence_length : option nat) : option (list float) :=
  let sequence_length := default (num_terms self + 1) sequence_length in
  let num_terms := num_terms self `min` (sequence_length - 1) in
  if decide (0 < num_terms) then linalg_pinv (_r_matrix self num_terms) !! 0
  else Some [1%float].

(** The factor of [_estimate_error]. *)
Definition estimate_fact (rule : list float) : float :=
  np_maximum (12.7062047361747 * sqrt (np_sum (map (λ c, c * c) rule)))%float
             (EPS * 10)%float.

(** [Richardson._estimate_error] *)
Definition _estimate_error (new_sequence old_sequence steps : list (list float))
    (rule : list float) : option (list (list float)) :=
  let m := length new_sequence in
  let mo := length old_sequence in
  let fact := estimate_fact rule in
  if decide (mo < 2) then
    map2 (λ n s, (abs n * EPS + s) * fact)%float new_sequence steps
  else if decide (m < 2) then
    delta ← np_diff old_sequence;
    tol ← map2 (λ a b, max_abs a b * fact)%float
               (take (mo - 1) old_sequence) (drop 1 old_sequence);
    let err := map (map abs) delta in
    otherwise ← map2 (λ n o, abs (n - o) * fact)%float
                     new_sequence (py_last m old_sequence);
    add_where (py_last m err) (py_last m tol) otherwise
  else
    delta ← np_diff new_sequence;
    let err := map (map (λ d, abs d * fact)%float) delta in
    tol ← map2 (λ a b, max_abs a b * EPS * fact)%float
               (drop 1 new_sequence) (take (m - 1) new_sequence);
    otherwise ← map2 (λ n o, abs (n - o) * fact)%float
                     (take (m - 1) new_sequence) (py_last (m - 1) old_sequence);
    add_where err tol otherwise.

(** [Richardson.__call__] *)
Definition call (self : Richardson) (sequence new_sequence steps : list (list float))
    : option (list (list float) * list (list float) * list (list float)) :=
  let ne := length sequence in
  rule ← rule self (Some ne);
  let nr := (Z.of_nat (length rule) - 1)%Z in
  let m := (Z.of_nat ne - nr)%Z in
  let mm := (Z.of_nat ne `min` (m + 1))%Z in
  abserr ← _estimate_error (py_take mm new_sequence) sequence steps rule;
  Some (py_take m new_sequence, py_take m abserr, py_take m steps).

End host.
End Extrapolation.

(** *** A double precision environment

    The examples and the concrete instances of the theorems run in this
    environment: IEEE doubles throughout, powers by repeated multiplication
    (exact on the powers of two the examples use), the pseudo inverse of an
    invertible matrix of order at most three by its adjugate, and numpy's
    percentile with linear interpolation. *)

Fixpoint pow_nat (x : float) (n : nat) : float :=
  match n with
  | 0 => 1%float
  | S n' => (x * pow_nat x n')%float
  end.

Definition pow_int (x y : float) : float :=
  let n := float_to_Z y in
  if decide (0 ≤ n)%Z then pow_nat x (Z.to_nat n)
  else (1 / pow_nat x (Z.to_nat (- n)))%float.

Definition det2 (a b c d : float) : float := (a * d - b * c)%float.

Definition adjugate_inverse (m : matrix) : matrix :=
  match m with
  | [[a]] => [[(1 / a)%float]]
  | [[a; b]; [c; d]] =>
      let det := det2 a b c d in
      [[(d / det)%float; (- b / det)%float]; [(- c / det)%float; (a / det)%float]]
  | [[a; b; c]; [d; e; f]; [g; h; i]] =>
      let det := (a * det2 e f h i - b * det2 d f g i + c * det2 d e g h)%float in
      [[(det2 e f h i / det)%float; (- det2 b c h i / det)%float; (det2 b c e f / det)%float];
       [(- det2 d f g i / det)%float; (det2 a c g i / det)%float; (- det2 a c d f / det)%float];
       [(det2 d e g h / det)%float; (- det2 a b g h / det)%float; (det2 a b d e / det)%float]]
  | _ => m
  end.

Fixpoint insert_sorted (x : float) (l : list float) : list float :=
  match l with
  | [] => [x]
  | y :: l' => if (x <=? y)%float then x :: l else y :: insert_sorted x l'
  end.

Definition sort_floats (l : list float) : list float := foldr insert_sorted [] l.

Definition percentile_linear (a : list float) (q : float) : float :=
  let sorted := sort_floats (filter (λ x, is_nan x = false) a) in
  match length sorted with
  | 0 => nan
  | S n =>
      let virtual_index := (of_nat n * (q / 100))%float in
      let previous := Z.to_nat (float_to_Z virtual_index) in
      let gamma := (virtual_index - of_nat previous)%float in
      let lo := buf sorted previous in
      let hi := buf sorted (S previous `min` n) in
      let diff := (hi - lo)%float in
      if (0.5 <=? gamma)%float then (hi - diff * (1 - gamma))%float
      else (lo + diff * gamma)%float
  end.

Definition double_env : CLEnvironment := {|
  double_precision := true;
  MOT_EPSILON := 0x1p-52%float;
  MOT_MIN := 0x1p-1022%float;
  pown := pow_nat;
  c_pow := pow_int;
  linalg_pinv := adjugate_inverse;
  np_nanpercentile := percentile_linear
|}.

(** Two models for the examples: [f(x) = x0^2 + x1^2] without bounds and with
    unit scalings, and a model of one bounded parameter. *)
Definition sum_of_squares (problem_id : nat) (x : vector) : float :=
  (buf x 0 * buf x 0 + buf x 1 * buf x 1)%float.

Definition unbounded_model : NumericalDerivativeInterface := {|
  numdiff_get_max_step := [0.5; 0.5]%float;
  numdiff_get_scaling_factors := [1; 1]%float;
  numdiff_use_bounds := [false; false];
  numdiff_use_upper_bounds := [false; false];
  numdiff_use_lower_bounds := [false; false];
  numdiff_parameter_transformation := λ _ x, x
|}.

(** A model of four parameters: the first bounded from above only, the
    second from below only, the third on both sides, the fourth without
    bounds; and bounds for it. *)
Definition bounded_model : NumericalDerivativeInterface := {|
  numdiff_get_max_step := [1; 1; 1; 1]%float;
  numdiff_get_scaling_factors := [1; 2; 1; 1]%float;
  numdiff_use_bounds := [true; true; true; false];
  numdiff_use_upper_bounds := [true; false; true; false];
  numdiff_use_lower_bounds := [false; true; true; false];
  numdiff_parameter_transformation := λ _ x, x
|}.


Definition example_lower_bounds : list bound :=
  [Scalar 0; Scalar 0.75; PerProblem [0.5; 0]; Scalar 0]%float.

Definition example_upper_bounds : list bound :=
  [Scalar 1.25; Scalar 8; Scalar 1.125; Scalar 8]%float.

(** The values of one derivative of one problem at seven steps, and at four. *)
Definition seven_steps : ndarray3 :=
  Ndarray3 1 1 7 [[[2.5; 2.125; 2.0625; 2.03125; 2; 2.25; 1.75]]]%float.


(** The candidates and the errors of two derivatives of one problem: every
    error of the first is NaN; the third candidate of the second is an
    outlier with the smallest error. *)
Definition example_candidates : ndarray3 :=
  Ndarray3 1 2 3 [[[nan; nan; nan]; [2; 2.5; 50]]]%float.

Definition example_errors : ndarray3 :=
  Ndarray3 1 2 3 [[[nan; nan; nan]; [0.5; 0.25; 0.125]]]%float.

(** Three candidates with equal errors and no outlier. *)
Definition tied_candidates : ndarray3 := Ndarray3 1 1 3 [[[5; 6; 7]]]%float.

Definition tied_errors : ndarray3 := Ndarray3 1 1 3 [[[1; 1; 1]]]%float.

(** Two models for the older kernel, both of the objective [x0^2] with unit
    scaling and maximal step [1]: one whose parameter is bounded to
    [[0, 1]], and one whose bound check admits no step but the zero one. *)
Definition square (problem_id : nat) (x : list float) : float :=
  (buf x 0 * buf x 0)%float.

Definition unit_interval_model : Mapping.model := {|
  Mapping.get_objective := square;
  Mapping.numdiff_get_bound_check_function :=
    λ _ x step _, ((0 <=? x - step) && (x + step <=? 1))%float;
  Mapping.numdiff_get_max_step := [1%float];
  Mapping.numdiff_get_scaling_factors := [1%float];
  Mapping.prepare_parameters := λ _ x, x
|}.

Definition no_step_model : Mapping.model := {|
  Mapping.get_objective := square;
  Mapping.numdiff_get_bound_check_function := λ _ x step _, (step =? 0)%float;
  Mapping.numdiff_get_max_step := [1%float];
  Mapping.numdiff_get_scaling_factors := [1%float];
  Mapping.prepare_parameters := λ _ x, x
|}.

(** *** Arrays that fill their shape *)

(** The data of a three dimensional array has the extent its shape gives
    along every axis, as the data of every [ndarray] has. *)
Definition well_shaped (a : ndarray3) : Prop :=
  length (data a) = shape0 a
  ∧ Forall (λ plane, length plane = shape1 a
                     ∧ Forall (λ row : list float, length row = shape2 a) plane) (data a).

(** An array of the older routine with [n] rows of [k] entries. *)
Definition of_shape {A} (n k : nat) (a : list (list A)) : Prop :=
  length a = n ∧ Forall (λ row, length row = k) a.

(** *** The order of the doubles

    The comparison of two doubles that are not NaN is the lexicographic
    order of these triples: the class of the number, its exponent and its
    mantissa, the last two negated for a negative number. *)

Definition order_key (f : spec_float) : Z * Z * Z :=
  match f with
  | S754_zero _ => (0, 0, 0)
  | S754_infinity s => (if s then -2 else 2, 0, 0)
  | S754_nan => (3, 0, 0)
  | S754_finite s m e => if s then (-1, - e, Z.neg m) else (1, e, Z.pos m)
  end%Z.

Definition key_le (a b : Z * Z * Z) : Prop :=
  (a.1.1 < b.1.1 ∨ a.1.1 = b.1.1 ∧ (a.1.2 < b.1.2 ∨ a.1.2 = b.1.2 ∧ a.2 ≤ b.2))%Z.

(** The doubles that are zero or above it, [+0] but not [-0]. *)
Definition sf_nonneg (y : spec_float) : bool :=
  match y with
  | S754_zero false | S754_infinity false | S754_finite false _ _ => true
  | _ => false
  end.

(** ** Part II: properties *)

(** *** Floating point facts *)

(** IEEE multiplication commutes, NaN and signed zeros included. *)
Lemma mul_comm (x y : float) : (x * y = y * x)%float.
Proof.
  apply Prim2SF_inj. rewrite !mul_spec. unfold SF64mul, SFmul.
  destruct (Prim2SF x) as [sx|sx| |sx mx ex], (Prim2SF y) as [sy|sy| |sy my ey];
    rewrite ?(xorb_comm sx sy); try reflexivity.
  by rewrite Pos.mul_comm, Z.add_comm.
Qed.

Lemma mget_mset {A} (m : list (list A)) x y a i j :
  mget (mset m x y a) i j =
  if decide (i = x ∧ j = y) then (λ _, a) <$> mget m i j else mget m i j.
Proof.
  unfold mget, mset. rewrite list_lookup_alter.
  destruct (decide (x = i)) as [->|Hx].
  - destruct (m !! i) as [row|]; simpl.
    + rewrite list_lookup_insert.
      destruct (decide (i = i ∧ j = y)) as [[_ ->]|Hn].
      * destruct (row !! y) eqn:E.
        -- apply lookup_lt_Some in E. by rewrite decide_True.
        -- apply lookup_ge_None in E. by rewrite decide_False by lia.
      * rewrite decide_False; [done|]. intros [-> _]. by apply Hn.
    + by destruct (decide _).
  - rewrite decide_False; [done|]. intros [-> _]. done.
Qed.

Lemma elem_of_coords p x y : (x, y) ∈ coords p ↔ x ≤ y ∧ y < p.
Proof.
  unfold coords. rewrite list_elem_of_bind. split.
  - intros (x' & H & Hx'). apply list_elem_of_bind in H as (y' & H & Hy').
    apply list_elem_of_singleton in H as [= -> ->].
    apply elem_of_seq in Hx', Hy'. lia.
  - intros [H1 H2]. exists x. split; [|apply elem_of_seq; lia].
    apply list_elem_of_bind. exists y. split; [by apply list_elem_of_singleton|].
    apply elem_of_seq. lia.
Qed.

Lemma NoDup_coords p : NoDup (coords p).
Proof.
  unfold coords. apply NoDup_bind; [| |apply NoDup_seq].
  - intros x1 x2 [a b] _ _ H1 H2.
    apply list_elem_of_bind in H1 as (y1 & H1 & _), H2 as (y2 & H2 & _).
    apply list_elem_of_singleton in H1, H2. congruence.
  - intros x _. apply NoDup_bind; [| |apply NoDup_seq].
    + intros y1 y2 [a b] _ _ H1 H2.
      apply list_elem_of_singleton in H1, H2. congruence.
    + intros. apply NoDup_singleton.
Qed.

Lemma length_coords_row (x0 x n : nat) :
  length (seq x n ≫= λ y, [(x0, y)]) = n.
Proof.
  revert x. induction n as [|n IH]; intros x; [done|].
  simpl. by rewrite IH.
Qed.

Lemma length_coords_from p d a :
  2 * length (seq a d ≫= λ x, seq x (p - x) ≫= λ y, [(x, y)])
  + d * (d + 1) = 2 * d * (p - a) + 2 * d  ∨ p < a + d.
Proof.
  revert a. induction d as [|d IH]; intros a; [left; done|].
  destruct (decide (p < a + S d)) as [|Hle]; [by right|left].
  destruct (IH (S a)) as [E|E]; [|lia].
  change (seq a (S d) ≫= λ x, seq x (p - x) ≫= λ y, [(x, y)])
    with ((seq a (p - a) ≫= λ y, [(a, y)])
          ++ (seq (S a) d ≫= λ x, seq x (p - x) ≫= λ y, [(x, y)])).
  rewrite length_app, length_coords_row.
  replace (p - S a) with (p - a - 1) in E by lia.
  assert (d + 1 ≤ p - a) as Hq by lia.
  revert E Hq. generalize (p - a) as q.
  generalize (length (seq (S a) d ≫= λ x, seq x (p - x) ≫= λ y, [(x, y)])) as n.
  intros n q E Hq. destruct q as [|q]; [lia|].
  replace (S q - 1) with q in E by lia. nia.
Qed.

Lemma length_coords p : length (coords p) = nmr_derivatives_of p.
Proof.
  unfold nmr_derivatives_of.
  destruct (length_coords_from p p 0) as [E|E]; [|lia].
  fold (coords p) in E. rewrite Nat.sub_0_r in E.
  assert (p ^ 2 - p = 2 * (length (coords p) - p)) as ->.
  { simpl. nia. }
  rewrite (Nat.mul_comm 2), Nat.div_mul by done. nia.
Qed.

Lemma mset_mset_same {A} (m : list (list A)) x y a :
  mset (mset m x y a) x y a = mset m x y a.
Proof.
  unfold mset. apply list_eq; intros i. rewrite !list_lookup_alter.
  destruct (decide (x = i)) as [->|]; [|done]. rewrite decide_True by done.
  destruct (m !! i) as [row|]; simpl; [|done]. f_equal.
  apply list_eq. intros k. rewrite !list_lookup_insert, length_insert.
  by destruct (decide (y = k ∧ y < length row)).
Qed.

Lemma foldl_fill_entry_None v cs : foldl (fill_entry v) None cs = None.
Proof. by induction cs. Qed.

Lemma foldl_bind_singleton {A B C} (f : A → C → A) (g : B → C) st (l : list B) :
  foldl f st (l ≫= λ y, [g y]) = foldl (λ st y, f st (g y)) st l.
Proof. revert st. induction l as [|y l IH]; intros st; [done|]. simpl. apply IH. Qed.

Lemma fill_row_coords v p st px :
  px < p →
  fill_row v p st px = foldl (fill_entry v) st (seq px (p - px) ≫= λ y, [(px, y)]).
Proof.
  intros Hpx. replace (p - px) with (S (p - S px)) by lia.
  rewrite foldl_bind_singleton. simpl.
  destruct st as [[m l]|]; simpl.
  - destruct (v !! l) as [x|]; simpl.
    + by rewrite mset_mset_same.
    + clear. induction (seq _ _) as [|y ys IH]; [done|]. simpl. apply IH.
  - clear. induction (seq _ _) as [|y ys IH]; [done|]. simpl. apply IH.
Qed.

Lemma foldl_fill_row_coords v p st a d :
  a + d ≤ p →
  foldl (fill_row v p) st (seq a d)
  = foldl (fill_entry v) st (seq a d ≫= λ x, seq x (p - x) ≫= λ y, [(x, y)]).
Proof.
  revert st a. induction d as [|d IH]; intros st a Hle; [done|].
  change (seq a (S d) ≫= λ x, seq x (p - x) ≫= λ y, [(x, y)])
    with ((seq a (p - a) ≫= λ y, [(a, y)])
          ++ (seq (S a) d ≫= λ x, seq x (p - x) ≫= λ y, [(x, y)])).
  rewrite foldl_app. simpl. rewrite IH by lia. by rewrite fill_row_coords by lia.
Qed.

Lemma results_vector_to_matrix1_coords v p :
  results_vector_to_matrix1 v p
  = fst <$> foldl (fill_entry v) (Some (zeros2 p p, 0)) (coords p).
Proof. unfold results_vector_to_matrix1. by rewrite foldl_fill_row_coords. Qed.

Lemma foldl_fill_entry_spec v cs m0 k0 m k i j :
  Forall (λ c : nat * nat, c.1 ≤ c.2) cs → NoDup cs →
  foldl (fill_entry v) (Some (m0, k0)) cs = Some (m, k) →
  k = k0 + length cs ∧
  match list_find (stored_at i j) cs with
  | Some (t, _) => ∃ x, v !! (k0 + t) = Some x ∧ mget m i j = (λ _, x) <$> mget m0 i j
  | None => mget m i j = mget m0 i j
  end.
Proof.
  revert m0 k0. induction cs as [|c cs IH]; intros m0 k0 Hord Hnd Hf.
  { simpl in Hf. injection Hf as <- <-. split; [simpl; lia|done]. }
  apply Forall_cons in Hord as [Hc Hord]. apply NoDup_cons in Hnd as [Hnin Hnd].
  simpl in Hf. destruct (v !! k0) as [x|] eqn:Hx; simpl in Hf;
    [|by rewrite foldl_fill_entry_None in Hf].
  destruct (IH _ _ Hord Hnd Hf) as [-> Hspec]. split; [simpl; lia|].
  assert (mget (mset (mset m0 c.1 c.2 x) c.2 c.1 x) i j
          = if decide (stored_at i j c) then (λ _, x) <$> mget m0 i j else mget m0 i j) as Hm1.
  { rewrite !mget_mset. unfold stored_at. destruct c as [a b]; simpl in *.
    repeat case_decide; destruct_and?; simplify_eq; try done;
      try (by destruct (mget m0 _ _));
      try (exfalso; lia);
      exfalso; match goal with H : (_, _) ≠ _ |- _ => apply H; f_equal; lia end. }
  simpl. unfold decide at 1. destruct (stored_at_dec i j c) as [Hs|Hs].
  - simpl. rewrite Nat.add_0_r. exists x. split; [done|].
    assert (list_find (stored_at i j) cs = None) as Hnone.
    { apply list_find_None, Forall_forall. intros c' Hin Hs'.
      unfold stored_at in *. subst. done. }
    rewrite Hnone in Hspec. rewrite Hspec, Hm1. by rewrite decide_True.
  - destruct (list_find (stored_at i j) cs) as [[t c']|] eqn:Hfind; simpl.
    + destruct Hspec as (y & Hy & Hm). exists y.
      replace (k0 + S t) with (S k0 + t) by lia. split; [done|].
      rewrite Hm, Hm1. by rewrite decide_False.
    + rewrite Hspec, Hm1. by rewrite decide_False.
Qed.

Lemma foldl_fill_entry_is_Some (v : vector) cs m0 k0 :
  k0 + length cs ≤ length v → is_Some (foldl (fill_entry v) (Some (m0, k0)) cs).
Proof.
  revert m0 k0. induction cs as [|c cs IH]; intros m0 k0 Hlen; [by eexists|].
  simpl in *. destruct (v !! k0) as [x|] eqn:E;
    [|apply lookup_ge_None in E; lia].
  simpl. apply IH. lia.
Qed.

Lemma coords_ordered p : Forall (λ c : nat * nat, c.1 ≤ c.2) (coords p).
Proof.
  apply Forall_forall. intros [x y] H. apply elem_of_coords in H. simpl. lia.
Qed.

Lemma pack_comm p px py : pack p px py = pack p py px.
Proof.
  unfold pack. f_equal. apply list_find_ext. intros c. unfold stored_at.
  by rewrite (Nat.min_comm px), (Nat.max_comm px).
Qed.

Lemma pack_is_Some p px py :
  px < p → py < p →
  ∃ k, pack p px py = Some k ∧ unpack p k = Some (px `min` py, px `max` py).
Proof.
  intros Hx Hy. unfold pack, unpack.
  destruct (list_find_elem_of (stored_at px py) (coords p) (px `min` py, px `max` py))
    as [[k c] Hfind]; [apply elem_of_coords; lia|done|].
  rewrite Hfind. exists k. split; [done|].
  apply list_find_Some in Hfind as (Hk & -> & _). done.
Qed.

Lemma pack_unpack p k c : unpack p k = Some c → pack p c.1 c.2 = Some k.
Proof.
  unfold unpack, pack. intros Hk.
  assert (stored_at c.1 c.2 c) as Hc.
  { destruct c as [x y]. apply list_elem_of_lookup_2, elem_of_coords in Hk.
    unfold stored_at. simpl. f_equal; lia. }
  destruct (list_find_elem_of (stored_at c.1 c.2) (coords p) c)
    as [[k' c'] Hfind]; [by eapply list_elem_of_lookup_2|done|].
  rewrite Hfind. simpl. f_equal.
  apply list_find_Some in Hfind as (Hk' & Hc' & _).
  unfold stored_at in Hc, Hc'. rewrite <-Hc in Hc'. subst c'.
  eapply NoDup_lookup; eauto using NoDup_coords.
Qed.

Lemma unpack_is_Some p k : k < nmr_derivatives_of p → is_Some (unpack p k).
Proof. intros H. apply lookup_lt_is_Some_2. by rewrite length_coords. Qed.

Lemma mget_zeros2 r c i j : i < r → j < c → mget (zeros2 r c) i j = Some 0%float.
Proof.
  intros Hi Hj. unfold mget, zeros2.
  rewrite lookup_replicate_2 by done. simpl. by rewrite lookup_replicate_2.
Qed.

(** Both entries [(px, py)] and [(py, px)] of the matrix are the element of
    the vector at the linear index of the pair. *)
Lemma results_vector_to_matrix1_entry v p M px py :
  results_vector_to_matrix1 v p = Some M → px < p → py < p →
  ∃ k x, pack p px py = Some k ∧ v !! k = Some x
         ∧ mget M px py = Some x ∧ mget M py px = Some x.
Proof.
  intros HM Hx Hy. rewrite results_vector_to_matrix1_coords in HM.
  destruct (foldl _ _ _) as [[M' k']|] eqn:Hfold; simplify_eq/=.
  pose proof (foldl_fill_entry_spec _ _ _ _ _ _ px py (coords_ordered p) (NoDup_coords p) Hfold)
    as [_ H1].
  pose proof (foldl_fill_entry_spec _ _ _ _ _ _ py px (coords_ordered p) (NoDup_coords p) Hfold)
    as [_ H2].
  destruct (pack_is_Some p px py Hx Hy) as (k & Hk & _).
  pose proof Hk as Hpack. pose proof Hk as Hk'. rewrite pack_comm in Hk'.
  unfold pack in Hk, Hk'.
  destruct (list_find (stored_at px py) _) as [[t c]|]; simplify_eq/=.
  destruct (list_find (stored_at py px) _) as [[t' c']|]; simplify_eq/=.
  destruct H1 as (x & Hv & H1), H2 as (x' & Hv' & H2). simplify_eq.
  exists k, x. rewrite H1, H2, !mget_zeros2 by done. done.
Qed.

Lemma results_vector_to_matrix1_is_Some (v : vector) p :
  nmr_derivatives_of p ≤ length v → is_Some (results_vector_to_matrix1 v p).
Proof.
  intros H. rewrite results_vector_to_matrix1_coords.
  destruct (foldl_fill_entry_is_Some v (coords p) (zeros2 p p) 0) as [st ->];
    [by rewrite length_coords|by eexists].
Qed.

(** *** The final Hessian *)

Lemma mget_zip_with {A B C} (f : A → B → C) (m1 : list (list A)) (m2 : list (list B)) i j :
  mget (zip_with (zip_with f) m1 m2) i j
  = x ← mget m1 i j; y ← mget m2 i j; Some (f x y).
Proof.
  unfold mget. rewrite lookup_zip_with.
  destruct (m1 !! i) as [r1|]; simpl; [|done].
  destruct (m2 !! i) as [r2|]; simpl.
  - rewrite lookup_zip_with. by destruct (r1 !! j).
  - by destruct (r1 !! j).
Qed.

Lemma mget_np_outer a b i j :
  mget (np_outer a b) i j = x ← a !! i; y ← b !! j; Some (x * y)%float.
Proof.
  unfold mget, np_outer. rewrite list_lookup_fmap.
  destruct (a !! i) as [x|]; simpl; [|done].
  rewrite list_lookup_fmap. by destruct (b !! j).
Qed.

(** One entry of the result of [finalize_derivatives]: the element of the
    derivative vector at the linear index of the pair, times the product of
    the two scalings. *)
Lemma finalize_derivatives_entry model p derivatives H k M px py :
  finalize_derivatives model p derivatives = Some H → H !! k = Some M →
  px < p → py < p →
  ∃ v idx x sx sy,
    derivatives !! k = Some v ∧ pack p px py = Some idx ∧ v !! idx = Some x
    ∧ numdiff_get_scaling_factors model !! px = Some sx
    ∧ numdiff_get_scaling_factors model !! py = Some sy
    ∧ mget M px py = Some (x * (sx * sy))%float
    ∧ mget M py px = Some (x * (sy * sx))%float.
Proof.
  unfold finalize_derivatives. intros HH HM Hx Hy.
  destruct (_results_vector_to_matrix derivatives p) as [matrices|] eqn:Hm; simplify_eq/=.
  case_guard as Hlen; simplify_eq/=.
  rewrite list_lookup_fmap in HM.
  destruct (matrices !! k) as [M0|] eqn:HM0; simplify_eq/=.
  apply mapM_Some in Hm.
  destruct (Forall2_lookup_r _ _ _ _ _ Hm HM0) as (v & Hv & Hv1).
  destruct (results_vector_to_matrix1_entry _ _ _ _ _ Hv1 Hx Hy) as (idx & x & ? & ? & E1 & E2).
  destruct (lookup_lt_is_Some_2 (numdiff_get_scaling_factors model) px) as [sx Hsx]; [lia|].
  destruct (lookup_lt_is_Some_2 (numdiff_get_scaling_factors model) py) as [sy Hsy]; [lia|].
  exists v, idx, x, sx, sy.
  rewrite !mget_zip_with, !mget_np_outer, E1, E2, Hsx, Hsy. done.
Qed.

Lemma finalize_derivatives_symmetric model p derivatives H k M i j :
  finalize_derivatives model p derivatives = Some H → H !! k = Some M →
  mget M i j = mget M j i.
Proof.
  intros HH HM.
  destruct (decide (i < p ∧ j < p)) as [[Hi Hj]|Hout].
  - destruct (finalize_derivatives_entry _ _ _ _ _ _ i j HH HM Hi Hj)
      as (v & idx & x & sx & sy & _ & _ & _ & _ & _ & -> & ->).
    by rewrite (mul_comm sx sy).
  - unfold finalize_derivatives in HH.
    destruct (_results_vector_to_matrix derivatives p) as [matrices|]; simplify_eq/=.
    case_guard as Hlen; simplify_eq/=.
    rewrite list_lookup_fmap in HM.
    destruct (matrices !! k) as [M0|]; simplify_eq/=.
    rewrite !mget_zip_with, !mget_np_outer.
    assert (numdiff_get_scaling_factors model !! i = None
            ∨ numdiff_get_scaling_factors model !! j = None) as [E|E].
    { destruct (decide (i < length (numdiff_get_scaling_factors model)));
        [right|left]; apply lookup_ge_None; lia. }
    + rewrite E. simpl. destruct (mget M0 i j), (mget M0 j i); simpl; try done;
        by destruct (_ !! j).
    + rewrite E. simpl. destruct (mget M0 i j), (mget M0 j i); simpl; try done;
        by destruct (_ !! i).
Qed.

(** Every path through [numerical_hessian] ends in [finalize_derivatives]. *)
Lemma numerical_hessian_finalized `{env : CLEnvironment} model f parameters lb ub
    step_ratio nmr_steps step_offset H :
  numerical_hessian model f parameters lb ub step_ratio nmr_steps step_offset = Some H →
  ∃ derivatives,
    finalize_derivatives model (nmr_columns (at_least_2d parameters)) derivatives = Some H.
Proof.
  unfold numerical_hessian. intros HH.
  destruct (_compute_derivatives _ _ _ _ _ _ _ _) as [d|]; simplify_eq/=.
  case_decide.
  { destruct (take_first d) as [raw|]; simplify_eq/=. by exists raw. }
  destruct (_richardson_extrapolation d step_ratio) as [c|]; simplify_eq/=.
  case_decide.
  { destruct (take_first c.1) as [first|]; simplify_eq/=. by exists first. }
  destruct (wynn_stage c) as [w|]; simplify_eq/=.
  destruct (select_stage w) as [best|]; simplify_eq/=. by exists best.
Qed.

(** C2. The Hessian [numerical_hessian] returns is symmetric, entry by
    entry and for every problem instance: the entries [(px, py)] and
    [(py, px)] are both the derivative at the linear index [pack px py] of
    the pair, times the product of the two scalings. The index of a pair
    does not depend on the order of the pair, [unpack] is the inverse of
    [pack] on ordered pairs, and [pack] is the inverse of [unpack] on the
    [nmr_derivatives] indices. *)
Theorem hessian_symmetric_by_layout `{env : CLEnvironment} model f parameters lb ub
    step_ratio nmr_steps step_offset H k M px py :
  numerical_hessian model f parameters lb ub step_ratio nmr_steps step_offset = Some H →
  H !! k = Some M →
  px < nmr_columns (at_least_2d parameters) →
  py < nmr_columns (at_least_2d parameters) →
  (∀ i j, mget M i j = mget M j i)
  ∧ (∃ derivatives v idx x sx sy,
       finalize_derivatives model (nmr_columns (at_least_2d parameters)) derivatives = Some H
       ∧ derivatives !! k = Some v
       ∧ pack (nmr_columns (at_least_2d parameters)) px py = Some idx
       ∧ pack (nmr_columns (at_least_2d parameters)) py px = Some idx
       ∧ unpack (nmr_columns (at_least_2d parameters)) idx = Some (px `min` py, px `max` py)
       ∧ v !! idx = Some x
       ∧ numdiff_get_scaling_factors model !! px = Some sx
       ∧ numdiff_get_scaling_factors model !! py = Some sy
       ∧ mget M px py = Some (x * (sx * sy))%float
       ∧ mget M py px = Some (x * (sy * sx))%float
       ∧ (x * (sx * sy) = x * (sy * sx))%float)
  ∧ (∀ idx, idx < nmr_derivatives_of (nmr_columns (at_least_2d parameters)) →
       ∃ c, unpack (nmr_columns (at_least_2d parameters)) idx = Some c
            ∧ c.1 ≤ c.2 ∧ c.2 < nmr_columns (at_least_2d parameters)
            ∧ pack (nmr_columns (at_least_2d parameters)) c.1 c.2 = Some idx
            ∧ pack (nmr_columns (at_least_2d parameters)) c.2 c.1 = Some idx).
Proof.
  set (p := nmr_columns (at_least_2d parameters)).
  intros HH HM Hx Hy.
  destruct (numerical_hessian_finalized _ _ _ _ _ _ _ _ _ HH) as [derivatives Hfin].
  fold p in Hfin. split; [|split].
  - intros i j. by eapply finalize_derivatives_symmetric.
  - destruct (finalize_derivatives_entry _ _ _ _ _ _ px py Hfin HM Hx Hy)
      as (v & idx & x & sx & sy & ? & Hpack & ? & ? & ? & ? & ?).
    exists derivatives, v, idx, x, sx, sy.
    destruct (pack_is_Some p px py Hx Hy) as (idx' & Hpack' & Hunpack).
    simplify_eq. rewrite <-(pack_comm p px py).
    repeat split; try done. by rewrite (mul_comm sx sy).
  - intros idx Hidx. destruct (unpack_is_Some p idx Hidx) as [[a b] Hc].
    exists (a, b). pose proof (list_elem_of_lookup_2 _ _ _ Hc) as Hin.
    apply elem_of_coords in Hin.
    pose proof (pack_unpack p idx (a, b) Hc) as Hpack. simpl in *.
    rewrite (pack_comm p b a), Hpack. repeat split; try done; lia.
Qed.

(** The instance of C2 at the Hessian of [x0^2 + x1^2] at [(1, 1)], three
    steps, entries [(0, 1)] and [(1, 0)]. *)
Lemma hessian_symmetric_by_layout_witness :
  @numerical_hessian double_env unbounded_model sum_of_squares
    (Parameters1d [1; 1]%float) [] [] 2%float 3 None
  = Some [[[2; 0]; [0; 2]]]%float
  ∧ mget [[2; 0]; [0; 2]]%float 0 1 = mget [[2; 0]; [0; 2]]%float 1 0
  ∧ pack 2 0 1 = Some 1 ∧ pack 2 1 0 = Some 1 ∧ unpack 2 1 = Some (0, 1).
Proof.
  assert (@numerical_hessian double_env unbounded_model sum_of_squares
            (Parameters1d [1; 1]%float) [] [] 2%float 3 None
          = Some [[[2; 0]; [0; 2]]]%float) as Hrun by (vm_compute; reflexivity).
  destruct (@hessian_symmetric_by_layout double_env _ _ _ _ _ _ _ _ _ 0
              [[2; 0]; [0; 2]]%float 0 1 Hrun eq_refl)
    as (Hsym & (d & v & idx & x & sx & sy & _ & _ & Hp1 & Hp2 & Hu & _) & _);
    [simpl; lia|simpl; lia|].
  simpl in Hp1, Hp2, Hu.
  assert (idx = 1) as -> by (vm_compute in Hp1; congruence).
  split; [exact Hrun|]. split; [apply Hsym|].
  split; [exact Hp1|]. split; [exact Hp2|exact Hu].
Defined.

(** *** The raw derivatives *)

Lemma offset_initial_step_length `{env : CLEnvironment} step_ratio step_offset
    (initial_step shifted : list (list float)) :
  offset_initial_step step_ratio step_offset initial_step = Some shifted →
  length shifted = length initial_step.
Proof.
  unfold offset_initial_step. intros H.
  destruct step_offset as [off|]; [|by simplify_eq].
  case_decide; [by simplify_eq|].
  destruct (float_pow_int step_ratio (- off)); simplify_eq/=. by rewrite length_map.
Qed.

(** The row of [_compute_derivatives] for problem [k] at the linear index
    [idx]: the central differences of the pair [unpack idx] at every step. *)
Lemma compute_derivatives_row `{env : CLEnvironment} model f (parameters : list (list float))
    step_ratio step_offset nmr_steps lb ub raw k plane idx row :
  _compute_derivatives model f parameters step_ratio step_offset nmr_steps lb ub = Some raw →
  data raw !! k = Some plane → plane !! idx = Some row →
  ∃ x h c,
    parameters !! k = Some x
    ∧ unpack (nmr_columns parameters) idx = Some c
    ∧ row = map (_compute_step_value model f k step_ratio (map to_mot_float_type x)
                   (to_mot_float_type (f k (map to_mot_float_type x)))
                   (map (λ s, to_float32 (1 / s)%float) (numdiff_get_scaling_factors model))
                   h c.1 c.2)
                (seq 0 nmr_steps).
Proof.
  unfold _compute_derivatives. intros Hraw Hplane Hrow.
  destruct (_get_initial_step_size _ _ _ _) as [initial_step0|]; simplify_eq/=.
  destruct (offset_initial_step _ _ _) as [initial_step|]; simplify_eq/=.
  apply list_lookup_imap_Some in Hplane as ([x h] & Hxh & ->).
  apply lookup_zip_with_Some in Hxh as (x' & h' & [= <- <-] & Hx & Hh).
  unfold derivation_kernel in Hrow. rewrite list_lookup_fmap in Hrow.
  destruct (coords (nmr_columns parameters) !! idx) as [[px py]|] eqn:Hc; simplify_eq/=.
  exists x, (map to_float32 h), (px, py). by split_and!.
Qed.

(** *** The short runs of [numerical_hessian] *)

(** An entry of the Hessian finalized from [a[..., 0]]: the first element
    of the row of [a] at the linear index of the pair, rescaled. *)
Lemma take_first_finalize_entry model p (a : ndarray3) H k M px py :
  take_first a ≫= finalize_derivatives model p = Some H → H !! k = Some M →
  px < p → py < p →
  ∃ plane idx row sx sy,
    data a !! k = Some plane ∧ pack p px py = Some idx ∧ plane !! idx = Some row
    ∧ numdiff_get_scaling_factors model !! px = Some sx
    ∧ numdiff_get_scaling_factors model !! py = Some sy
    ∧ mget M px py = Some (hd 0 row * (sx * sy))%float.
Proof.
  intros HH HM Hx Hy.
  destruct (take_first a) as [first|] eqn:Hfirst; simplify_eq/=.
  destruct (finalize_derivatives_entry _ _ _ _ _ _ px py HH HM Hx Hy)
    as (v & idx & x & sx & sy & Hv & Hpack & Hx' & Hsx & Hsy & HM1 & _).
  unfold take_first in Hfirst. destruct (shape2 a); simplify_eq/=.
  rewrite list_lookup_fmap in Hv.
  destruct (data a !! k) as [plane|] eqn:Hplane; simplify_eq/=.
  rewrite list_lookup_fmap in Hx'.
  destruct (plane !! idx) as [row|] eqn:Hrow; simplify_eq/=.
  by exists plane, idx, row, sx, sy.
Qed.

(** C1. With one step the Hessian is finalized from the raw values of
    [_compute_derivatives]: every entry is the single central difference of
    its pair times the product of the two scalings, and neither
    extrapolation takes part. With two or three steps it is finalized from
    the first candidate of the Richardson extrapolation of every
    derivative, and Wynn's algorithm takes no part. *)
Theorem short_runs_skip_extrapolation `{env : CLEnvironment} model f parameters lb ub
    step_ratio nmr_steps step_offset H k M px py :
  numerical_hessian model f parameters lb ub step_ratio nmr_steps step_offset = Some H →
  H !! k = Some M →
  px < nmr_columns (at_least_2d parameters) →
  py < nmr_columns (at_least_2d parameters) →
  (nmr_steps = 1 →
     ∃ raw plane idx row sx sy,
       _compute_derivatives model f (at_least_2d parameters) step_ratio step_offset
         nmr_steps lb ub = Some raw
       ∧ take_first raw
           ≫= finalize_derivatives model (nmr_columns (at_least_2d parameters)) = Some H
       ∧ data raw !! k = Some plane
       ∧ pack (nmr_columns (at_least_2d parameters)) px py = Some idx
       ∧ plane !! idx = Some row
       ∧ numdiff_get_scaling_factors model !! px = Some sx
       ∧ numdiff_get_scaling_factors model !! py = Some sy
       ∧ mget M px py = Some (hd 0 row * (sx * sy))%float
       ∧ ∃ x h,
           at_least_2d parameters !! k = Some x
           ∧ row = [_compute_step_value model f k step_ratio (map to_mot_float_type x)
                      (to_mot_float_type (f k (map to_mot_float_type x)))
                      (map (λ s, to_float32 (1 / s)%float)
                           (numdiff_get_scaling_factors model))
                      h (px `min` py) (px `max` py) 0])
  ∧ (nmr_steps = 2 ∨ nmr_steps = 3 →
     ∃ raw candidates errors plane idx row sx sy,
       _compute_derivatives model f (at_least_2d parameters) step_ratio step_offset
         nmr_steps lb ub = Some raw
       ∧ _richardson_extrapolation raw step_ratio = Some (candidates, errors)
       ∧ take_first candidates
           ≫= finalize_derivatives model (nmr_columns (at_least_2d parameters)) = Some H
       ∧ data candidates !! k = Some plane
       ∧ pack (nmr_columns (at_least_2d parameters)) px py = Some idx
       ∧ plane !! idx = Some row
       ∧ numdiff_get_scaling_factors model !! px = Some sx
       ∧ numdiff_get_scaling_factors model !! py = Some sy
       ∧ mget M px py = Some (hd 0 row * (sx * sy))%float).
Proof.
  unfold numerical_hessian. intros HH HM Hx Hy.
  destruct (_compute_derivatives _ _ _ _ _ _ _ _) as [raw|] eqn:Hraw; simplify_eq/=.
  split.
  - intros ->. rewrite decide_True in HH by done.
    destruct (take_first_finalize_entry _ _ _ _ _ _ _ _ HH HM Hx Hy)
      as (plane & idx & row & sx & sy & Hplane & Hpack & Hrow & ?).
    exists raw, plane, idx, row, sx, sy. destruct_and!. split_and!; try done.
    destruct (compute_derivatives_row _ _ _ _ _ _ _ _ _ _ _ _ _ Hraw Hplane Hrow)
      as (x & h & c & Hxk & Hc & ->).
    destruct (pack_is_Some _ px py Hx Hy) as (idx' & Hpack' & Hunpack).
    simplify_eq. by exists x, h.
  - intros Hn. rewrite decide_False in HH by lia.
    destruct (_richardson_extrapolation raw step_ratio) as [[candidates errors]|] eqn:Hr;
      simplify_eq/=.
    rewrite decide_True in HH by lia.
    destruct (take_first_finalize_entry _ _ _ _ _ _ _ _ HH HM Hx Hy)
      as (plane & idx & row & sx & sy & ?).
    exists raw, candidates, errors, plane, idx, row, sx, sy. destruct_and!. by split_and!.
Qed.

(** The instances of C1 at the Hessian of [x0^2 + x1^2] at [(1, 1)], with
    one step and with three steps, entry [(0, 0)]. *)
Lemma short_runs_skip_extrapolation_witness :
  (∃ raw plane row,
     @_compute_derivatives double_env unbounded_model sum_of_squares [[1; 1]]%float
       2%float None 1 [] [] = Some raw
     ∧ data raw !! 0 = Some plane ∧ plane !! 0 = Some row
     ∧ mget [[2; 0]; [0; 2]]%float 0 0 = Some (hd 0 row * (1 * 1))%float)
  ∧ (∃ raw candidates errors plane row,
       @_compute_derivatives double_env unbounded_model sum_of_squares [[1; 1]]%float
         2%float None 3 [] [] = Some raw
       ∧ @_richardson_extrapolation double_env raw 2%float = Some (candidates, errors)
       ∧ data candidates !! 0 = Some plane ∧ plane !! 0 = Some row
       ∧ mget [[2; 0]; [0; 2]]%float 0 0 = Some (hd 0 row * (1 * 1))%float).
Proof.
  split.
  - destruct (@short_runs_skip_extrapolation double_env unbounded_model sum_of_squares
                (Parameters1d [1; 1]%float) [] [] 2%float 1 None
                [[[2; 0]; [0; 2]]]%float 0 [[2; 0]; [0; 2]]%float 0 0)
      as [H1 _]; [vm_compute; reflexivity|reflexivity|simpl; lia|simpl; lia|].
    destruct (H1 eq_refl) as (raw & plane & idx & row & sx & sy & Hraw & _ & Hplane
                              & Hpack & Hrow & Hsx & Hsy & HM & _).
    vm_compute in Hpack. injection Hpack as <-.
    vm_compute in Hsx. injection Hsx as <-.
    vm_compute in Hsy. injection Hsy as <-.
    exists raw, plane, row. split; [exact Hraw|]. split; [exact Hplane|].
    split; [exact Hrow|exact HM].
  - destruct (@short_runs_skip_extrapolation double_env unbounded_model sum_of_squares
                (Parameters1d [1; 1]%float) [] [] 2%float 3 None
                [[[2; 0]; [0; 2]]]%float 0 [[2; 0]; [0; 2]]%float 0 0)
      as [_ H3]; [vm_compute; reflexivity|reflexivity|simpl; lia|simpl; lia|].
    destruct (H3 (or_intror eq_refl))
      as (raw & candidates & errors & plane & idx & row & sx & sy & Hraw & Hr & _ & Hplane
          & Hpack & Hrow & Hsx & Hsy & HM).
    vm_compute in Hpack. injection Hpack as <-.
    vm_compute in Hsx. injection Hsx as <-.
    vm_compute in Hsy. injection Hsy as <-.
    exists raw, candidates, errors, plane, row. split; [exact Hraw|]. split; [exact Hr|].
    split; [exact Hplane|]. split; [exact Hrow|exact HM].
Defined.

(** *** The initial step *)

Lemma column_lookup (m : list (list float)) ind c k row :
  column m ind = Some c → m !! k = Some row → c !! k = row !! ind ∧ is_Some (row !! ind).
Proof.
  unfold column. intros Hc Hrow. apply mapM_Some in Hc.
  destruct (Forall2_lookup_l _ _ _ _ _ Hc Hrow) as (x & Hx & Hx').
  rewrite Hx, Hx'. by eauto.
Qed.

Lemma distance_to_lookup upper b (x d : list float) k xk :
  distance_to upper b x = Some d → x !! k = Some xk →
  ∃ bk, bound_at b (length x) k = Some bk
        ∧ d !! k = Some (abs (if upper then bk - xk else xk - bk)%float).
Proof.
  unfold distance_to. intros Hd Hk. apply mapM_Some in Hd.
  assert (imap pair x !! k = Some (k, xk)) as Hik.
  { by rewrite list_lookup_imap, Hk. }
  destruct (Forall2_lookup_l _ _ _ _ _ Hd Hik) as (y & Hy & Hy').
  destruct (bound_at b (length x) k) as [bk|]; simplify_eq/=. by exists bk.
Qed.

Lemma distance_to_length upper b (x d : list float) :
  distance_to upper b x = Some d → length d = length x.
Proof.
  unfold distance_to. intros Hd. apply length_mapM in Hd.
  by rewrite length_imap in Hd.
Qed.

Lemma initial_step_column_length model parameters lb ub ind col :
  initial_step_column model parameters lb ub ind = Some col →
  length col = length parameters.
Proof.
  unfold initial_step_column. intros H.
  destruct (numdiff_get_max_step model !! ind) as [ms|]; simplify_eq/=.
  destruct (numdiff_use_bounds model !! ind) as [[]|]; simplify_eq/=;
    [|by rewrite length_replicate].
  destruct (numdiff_use_lower_bounds model !! ind) as [ul|]; simplify_eq/=.
  destruct (numdiff_use_upper_bounds model !! ind) as [uu|]; simplify_eq/=.
  destruct (column parameters ind) as [x|] eqn:Hx; simplify_eq/=.
  apply length_mapM in Hx.
  destruct (numdiff_get_scaling_factors model !! ind) as [sc|]; simplify_eq/=.
  destruct (uu && negb ul); [|destruct (ul && negb uu)]; simpl in H.
  - destruct (ub !! ind) as [b|]; simplify_eq/=.
    destruct (distance_to true b x) as [d|] eqn:Hd; simplify_eq/=.
    apply distance_to_length in Hd. rewrite !length_map. congruence.
  - destruct (lb !! ind) as [b|]; simplify_eq/=.
    destruct (distance_to false b x) as [d|] eqn:Hd; simplify_eq/=.
    apply distance_to_length in Hd. rewrite !length_map. congruence.
  - destruct (lb !! ind) as [b|]; simplify_eq/=.
    destruct (ub !! ind) as [b'|]; simplify_eq/=.
    destruct (distance_to false b x) as [d|] eqn:Hd; simplify_eq/=.
    destruct (distance_to true b' x) as [d'|] eqn:Hd'; simplify_eq/=.
    apply distance_to_length in Hd, Hd'.
    rewrite !length_map, length_zip_with. lia.
Qed.

(** The element of a column of initial steps for one problem. *)
Lemma initial_step_column_lookup model (parameters : list (list float)) lb ub ind col k x :
  initial_step_column model parameters lb ub ind = Some col →
  mget parameters k ind = Some x →
  ∃ max_step use_bounds,
    numdiff_get_max_step model !! ind = Some max_step
    ∧ numdiff_use_bounds model !! ind = Some use_bounds
    ∧ if use_bounds : bool then
        ∃ use_lower use_upper scaling,
          numdiff_use_lower_bounds model !! ind = Some use_lower
          ∧ numdiff_use_upper_bounds model !! ind = Some use_upper
          ∧ numdiff_get_scaling_factors model !! ind = Some scaling
          ∧ ∃ l u,
              (use_upper && negb use_lower = false →
                 lb !! ind ≫= (λ b, bound_at b (length parameters) k) = Some l)
              ∧ (use_upper && negb use_lower || negb (use_lower && negb use_upper) = true →
                 ub !! ind ≫= (λ b, bound_at b (length parameters) k) = Some u)
              ∧ col !! k
                = Some (np_minimum (bound_clearance use_lower use_upper l u x * scaling)
                                   max_step)%float
      else col !! k = Some max_step.
Proof.
  unfold initial_step_column, mget. intros H Hx.
  destruct (parameters !! k) as [row|] eqn:Hrow; simplify_eq/=.
  destruct (numdiff_get_max_step model !! ind) as [ms|]; simplify_eq/=.
  destruct (numdiff_use_bounds model !! ind) as [[]|]; simplify_eq/=; exists ms; eexists;
    (split; [done|]); (split; [done|]); simpl;
    [|apply lookup_replicate_2; by eapply lookup_lt_Some].
  destruct (numdiff_use_lower_bounds model !! ind) as [ul|]; simplify_eq/=.
  destruct (numdiff_use_upper_bounds model !! ind) as [uu|]; simplify_eq/=.
  destruct (column parameters ind) as [xs|] eqn:Hxs; simplify_eq/=.
  destruct (column_lookup _ _ _ _ _ Hxs Hrow) as [Hxk _]. rewrite Hx in Hxk.
  pose proof (length_mapM _ _ _ Hxs) as Hlen.
  destruct (numdiff_get_scaling_factors model !! ind) as [sc|]; simplify_eq/=.
  exists ul, uu, sc. do 3 (split; [done|]). unfold bound_clearance.
  destruct (uu && negb ul) eqn:E1; [|destruct (ul && negb uu) eqn:E2]; simpl in H.
  - destruct (ub !! ind) as [b|]; simplify_eq/=.
    destruct (distance_to true b xs) as [d|] eqn:Hd; simplify_eq/=.
    destruct (distance_to_lookup _ _ _ _ _ _ Hd Hxk) as (u & Hu & Hdk).
    exists 0%float, u. rewrite Hlen. split; [done|]. split; [done|].
    rewrite !list_lookup_fmap, Hdk. done.
  - destruct (lb !! ind) as [b|]; simplify_eq/=.
    destruct (distance_to false b xs) as [d|] eqn:Hd; simplify_eq/=.
    destruct (distance_to_lookup _ _ _ _ _ _ Hd Hxk) as (l & Hl & Hdk).
    exists l, 0%float. rewrite Hlen. split; [done|]. split; [done|].
    rewrite !list_lookup_fmap, Hdk. done.
  - destruct (lb !! ind) as [b|]; simplify_eq/=.
    destruct (ub !! ind) as [b'|]; simplify_eq/=.
    destruct (distance_to false b xs) as [d|] eqn:Hd; simplify_eq/=.
    destruct (distance_to true b' xs) as [d'|] eqn:Hd'; simplify_eq/=.
    destruct (distance_to_lookup _ _ _ _ _ _ Hd Hxk) as (l & Hl & Hdk).
    destruct (distance_to_lookup _ _ _ _ _ _ Hd' Hxk) as (u & Hu & Hdk').
    exists l, u. rewrite Hlen. split; [done|]. split; [done|].
    rewrite !list_lookup_fmap, lookup_zip_with, Hdk, Hdk'. done.
Qed.

Lemma mget_set_column (a : list (list float)) ind (col : list float) k j :
  length col = length a →
  mget (set_column a ind col) k j
  = row ← a !! k; if decide (j = ind ∧ ind < length row) then col !! k else row !! j.
Proof.
  intros Hlen. unfold mget, set_column. rewrite lookup_zip_with.
  destruct (a !! k) as [row|] eqn:Hrow; simpl; [|done].
  destruct (lookup_lt_is_Some_2 col k) as [x Hx].
  { rewrite Hlen. by eapply lookup_lt_Some. }
  rewrite Hx. simpl. rewrite list_lookup_insert.
  destruct (decide (ind = j ∧ ind < length row)) as [[-> ?]|Hn].
  - by rewrite decide_True.
  - rewrite decide_False; [done|]. intros [-> ?]. by apply Hn.
Qed.

Lemma set_column_shape (a : list (list float)) ind (col : list float) :
  length col = length a →
  length (set_column a ind col) = length a
  ∧ ∀ k, length <$> set_column a ind col !! k = length <$> a !! k.
Proof.
  intros Hlen. unfold set_column. split; [rewrite length_zip_with; lia|].
  intros k. rewrite lookup_zip_with.
  destruct (a !! k) as [row|] eqn:Hrow; simpl; [|done].
  destruct (lookup_lt_is_Some_2 col k) as [x Hx].
  { rewrite Hlen. by eapply lookup_lt_Some. }
  rewrite Hx. simpl. by rewrite length_insert.
Qed.

(** The loop of [_get_initial_step_size] over a list of distinct columns:
    every column it has passed holds the steps of [initial_step_column]. *)
Lemma initial_step_loop model (parameters : list (list float)) lb ub inds st0 st :
  NoDup inds →
  foldl (λ acc ind,
           initial_step ← acc;
           col ← initial_step_column model parameters lb ub ind;
           Some (set_column initial_step ind col))
        (Some st0) inds = Some st →
  length st0 = length parameters →
  length st = length parameters
  ∧ (∀ k, length <$> st !! k = length <$> st0 !! k)
  ∧ ∀ ind, ind ∈ inds →
      ∃ col, initial_step_column model parameters lb ub ind = Some col
             ∧ ∀ k row, st0 !! k = Some row → ind < length row →
                 mget st k ind = col !! k.
Proof.
  revert st. induction inds as [|ind inds IH] using rev_ind; intros st Hnd Hf Hlen0.
  { simpl in Hf. simplify_eq. split; [done|]. split; [done|]. by intros ? ?%elem_of_nil. }
  rewrite foldl_app in Hf. simpl in Hf.
  apply NoDup_app in Hnd as (Hnd & Hnin & _).
  destruct (foldl _ _ inds) as [st1|] eqn:Hf1; simplify_eq/=.
  destruct (initial_step_column model parameters lb ub ind) as [col|] eqn:Hcol;
    simplify_eq/=.
  destruct (IH st1 Hnd eq_refl Hlen0) as (Hlen1 & Hrows1 & Hcols1).
  pose proof (initial_step_column_length _ _ _ _ _ _ Hcol) as Hlc.
  destruct (set_column_shape st1 ind col) as [Hlen2 Hrows2]; [congruence|].
  split; [congruence|]. split; [intros k; by rewrite Hrows2|].
  intros ind' [Hin|Hin]%elem_of_app; [|apply list_elem_of_singleton in Hin as ->].
  - destruct (Hcols1 ind' Hin) as (col' & Hcol' & Hspec). exists col'. split; [done|].
    intros k row Hrow Hlt. rewrite mget_set_column by congruence.
    specialize (Hrows1 k). rewrite Hrow in Hrows1.
    destruct (st1 !! k) as [row1|] eqn:Hrow1; simplify_eq/=.
    rewrite decide_False.
    + specialize (Hspec k row Hrow Hlt). unfold mget in Hspec.
      by rewrite Hrow1 in Hspec.
    + intros [-> _]. apply (Hnin ind); [done|by apply list_elem_of_singleton].
  - exists col. split; [done|].
    intros k row Hrow Hlt. rewrite mget_set_column by congruence.
    specialize (Hrows1 k). rewrite Hrow in Hrows1.
    destruct (st1 !! k) as [row1|] eqn:Hrow1; simplify_eq/=.
    by rewrite decide_True by (split; [done|congruence]).
Qed.




(** *** The number of candidates *)

Lemma r_matrix_square `{env : CLEnvironment} step_ratio n :
  length (r_matrix step_ratio n) = n + 1
  ∧ Forall (λ row, length row = n + 1) (r_matrix step_ratio n).
Proof.
  unfold r_matrix. split; [by rewrite length_map, length_seq|].
  apply Forall_forall. intros row (i & -> & _)%list_elem_of_fmap.
  simpl. rewrite length_map, length_seq. lia.
Qed.

Lemma richardson_coefficients_length `{env : CLEnvironment} step_ratio n :
  pinv_keeps_square →
  ∃ coefficients,
    _get_richardson_coefficients step_ratio n = Some coefficients
    ∧ length coefficients = n + 1.
Proof.
  intros Hpinv. unfold _get_richardson_coefficients.
  case_decide as Hn; [subst; by exists [1%float]|].
  destruct (r_matrix_square step_ratio n) as [Hlen Hrows].
  destruct (Hpinv _ _ Hlen Hrows) as [Hlen' Hrows'].
  destruct (linalg_pinv (r_matrix step_ratio n)) as [|row rest] eqn:E;
    [simpl in Hlen'; lia|].
  exists row. split; [done|]. by apply Forall_cons in Hrows' as [? _].
Qed.

Lemma double_env_pinv_keeps_square : @pinv_keeps_square double_env.
Proof.
  intros m k <- Hrows. simpl.
  destruct m as [|r1 [|r2 [|r3 [|r4 m]]]]; simpl in *.
  - done.
  - apply Forall_cons in Hrows as [H1 _].
    destruct r1 as [|a [|b r1]]; simplify_eq/=. split; [done|]. by repeat constructor.
  - apply Forall_cons in Hrows as [H1 [H2 _]%Forall_cons].
    destruct r1 as [|a1 [|b1 [|c1 r1]]]; simplify_eq/=.
    destruct r2 as [|a2 [|b2 [|c2 r2]]]; simplify_eq/=.
    split; [done|]. by repeat constructor.
  - apply Forall_cons in Hrows as [H1 [H2 [H3 _]%Forall_cons]%Forall_cons].
    destruct r1 as [|a1 [|b1 [|c1 [|d1 r1]]]]; simplify_eq/=.
    destruct r2 as [|a2 [|b2 [|c2 [|d2 r2]]]]; simplify_eq/=.
    destruct r3 as [|a3 [|b3 [|c3 [|d3 r3]]]]; simplify_eq/=.
    split; [done|]. by repeat constructor.
  - pose proof Hrows as Hrows'. apply Forall_cons in Hrows' as [H1 _].
    destruct r1 as [|a1 [|b1 [|c1 [|d1 r1]]]]; simplify_eq/=. done.
Qed.

Lemma richardson_shape `{env : CLEnvironment} (d : ndarray3) step_ratio :
  pinv_keeps_square → 1 ≤ shape2 d →
  ∃ coefficients r e,
    _get_richardson_coefficients step_ratio (shape2 d `min` 3 - 1) = Some coefficients
    ∧ length coefficients = shape2 d `min` 3
    ∧ _richardson_extrapolation d step_ratio = Some (r, e)
    ∧ shape2 r = shape2 d + 1 - length coefficients
    ∧ shape2 e = shape2 r
    ∧ Forall (Forall (λ row, length row = shape2 r)) (data r)
    ∧ Forall (Forall (λ row, length row = shape2 e)) (data e).
Proof.
  intros Hpinv Hn.
  destruct (richardson_coefficients_length step_ratio (shape2 d `min` 3 - 1) Hpinv)
    as (coefficients & Hc & Hlen).
  unfold _richardson_extrapolation. rewrite Hc. simpl.
  case_guard; [|lia]. simpl. case_guard; [|lia]. simpl.
  eexists coefficients, _, _. split; [done|]. split; [lia|]. split; [done|]. simpl.
  split; [lia|]. split; [lia|]. split.
  - apply Forall_forall. intros plane (plane1 & -> & Hin)%list_elem_of_fmap.
    apply list_elem_of_fmap in Hin as (plane0 & -> & _).
    apply Forall_forall. intros row (row1 & -> & Hin)%list_elem_of_fmap.
    apply list_elem_of_fmap in Hin as (row0 & -> & _).
    rewrite length_take. unfold _apply_richardson_convolution.
    rewrite length_map, length_seq. lia.
  - apply Forall_forall. intros plane (plane0 & -> & _)%list_elem_of_fmap.
    apply Forall_forall. intros row (row0 & -> & _)%list_elem_of_fmap.
    unfold _compute_richardson_errors. rewrite length_map, length_seq. lia.
Qed.

Lemma wynn_shape `{env : CLEnvironment} (a : ndarray3) :
  2 ≤ shape2 a →
  ∃ w we,
    _wynn_extrapolate a = Some (w, we)
    ∧ shape2 w = shape2 a - 2 ∧ shape2 we = shape2 a - 2
    ∧ Forall (Forall (λ row, length row = shape2 a - 2)) (data w)
    ∧ Forall (Forall (λ row, length row = shape2 a - 2)) (data we).
Proof.
  intros Hn. unfold _wynn_extrapolate. case_guard; [|lia]. simpl.
  eexists _, _. split; [done|]. simpl. split; [done|]. split; [done|].
  split; apply Forall_forall; intros plane (plane0 & -> & _)%list_elem_of_fmap;
    apply Forall_forall; intros row (row0 & -> & _)%list_elem_of_fmap;
    by rewrite length_map, length_seq.
Qed.

Lemma wynn_needs_two_steps `{env : CLEnvironment} (a : ndarray3) :
  shape2 a < 2 → _wynn_extrapolate a = None.
Proof. intros Hn. unfold _wynn_extrapolate. case_guard; [lia|done]. Qed.

(** C4. From [nmr_steps >= 2] steps the Richardson extrapolation returns
    [nmr_steps - (coefficient_length - 1)] candidates of every derivative,
    with as many errors, for the coefficient vector of [min(nmr_steps, 3) - 1]
    terms; a pass of Wynn's algorithm returns [n - 2] values from [n]. *)
Theorem candidate_counts `{env : CLEnvironment} (derivatives : ndarray3) step_ratio :
  pinv_keeps_square → 2 ≤ shape2 derivatives →
  (∃ coefficients r e,
     _get_richardson_coefficients step_ratio (shape2 derivatives `min` 3 - 1)
       = Some coefficients
     ∧ _richardson_extrapolation derivatives step_ratio = Some (r, e)
     ∧ shape2 r = shape2 derivatives - (length coefficients - 1)
     ∧ shape2 e = shape2 r
     ∧ Forall (Forall (λ row, length row = shape2 r)) (data r)
     ∧ Forall (Forall (λ row, length row = shape2 r)) (data e))
  ∧ (∀ a : ndarray3, 2 ≤ shape2 a →
       ∃ w we,
         _wynn_extrapolate a = Some (w, we)
         ∧ shape2 w = shape2 a - 2 ∧ shape2 we = shape2 a - 2
         ∧ Forall (Forall (λ row, length row = shape2 a - 2)) (data w)
         ∧ Forall (Forall (λ row, length row = shape2 a - 2)) (data we)).
Proof.
  intros Hpinv Hn. split; [|intros a; apply wynn_shape].
  destruct (richardson_shape derivatives step_ratio Hpinv)
    as (coefficients & r & e & Hc & Hlen & Hr & Hsr & Hse & Hdr & Hde); [lia|].
  exists coefficients, r, e. rewrite Hse in Hde. split_and!; try done. lia.
Qed.

(** The instance of C4 at seven steps: five candidates, then three. *)
Lemma candidate_counts_witness :
  ∃ r e w we,
    @_richardson_extrapolation double_env seven_steps 2%float = Some (r, e)
    ∧ shape2 r = 5 ∧ shape2 e = 5
    ∧ @_wynn_extrapolate double_env r = Some (w, we)
    ∧ shape2 w = 3 ∧ shape2 we = 3.
Proof.
  destruct (@candidate_counts double_env seven_steps 2%float double_env_pinv_keeps_square)
    as [(coefficients & r & e & Hc & Hr & Hsr & Hse & _) Hwynn]; [simpl; lia|].
  vm_compute in Hc. injection Hc as <-. simpl in Hsr.
  destruct (Hwynn r) as (w & we & Hw & Hsw & Hswe & _); [lia|].
  exists r, e, w, we. rewrite Hsw, Hswe, Hse, Hsr. split_and!; done.
Defined.

(** *** The single pass of Wynn's algorithm *)





(** *** The selection of the best estimate *)

(** What a successful run of [_median_outlier_extrapolation] on two distinct
    arrays has computed, statement by statement, and the store it leaves. *)
Lemma median_outlier_extrapolation_inv `{env : CLEnvironment} (σ σ' : gmap nat ndarray3)
    dl el d e r :
  dl ≠ el → σ !! dl = Some d → σ !! el = Some e →
  _median_outlier_extrapolation dl el σ = (Some r, σ') →
  ∃ e0 d0 minpos df0 ef0,
    set_first_candidates 0 (all_nan_entries e) e = Some e0
    ∧ set_first_candidates 0 (all_nan_entries e) d = Some d0
    ∧ (shape0 d0, shape1 d0, shape2 d0) = (shape0 e0, shape1 e0, shape2 e0)
    ∧ mapM (mapM np_nanargmin)
        (data (add_in_place e0 (map (map _get_median_outliers_errors) (data d0))))
      = Some minpos
    ∧ gather d0 minpos = Some df0
    ∧ gather (add_in_place e0 (map (map _get_median_outliers_errors) (data d0))) minpos
      = Some ef0
    ∧ set_entries nan (all_nan_entries e) df0 = Some r.1
    ∧ set_entries nan (all_nan_entries e) ef0 = Some r.2
    ∧ σ' = <[el := add_in_place e0 (map (map _get_median_outliers_errors) (data d0))]>
             (<[dl := d0]> (<[el := e0]> σ)).
Proof.
  intros Hne Hd He. unfold _median_outlier_extrapolation.
  unfold mbind, St_bind, st_bind, st_read, st_lift, st_write, mret, St_ret, st_ret.
  rewrite He.
  destruct (set_first_candidates 0 (all_nan_entries e) e) as [e0|] eqn:He0; [|intros; simplify_eq].
  rewrite lookup_insert_ne by done. rewrite Hd.
  destruct (set_first_candidates 0 (all_nan_entries e) d) as [d0|] eqn:Hd0; [|intros; simplify_eq].
  rewrite lookup_insert_eq, lookup_insert_ne, lookup_insert_eq by done.
  destruct (guard _) as [Hshape|] eqn:Hg; [|intros; simplify_eq].
  rewrite lookup_insert_eq.
  destruct (mapM _ _) as [minpos|] eqn:Hmin; [|intros; simplify_eq].
  rewrite lookup_insert_ne, lookup_insert_eq by done.
  destruct (gather d0 minpos) as [df0|] eqn:Hdf0; [|intros; simplify_eq].
  destruct (gather (add_in_place e0 _) minpos) as [ef0|] eqn:Hef0; [|intros; simplify_eq].
  destruct (set_entries nan _ df0) as [df|] eqn:Hdf; [|intros; simplify_eq].
  destruct (set_entries nan _ ef0) as [ef|] eqn:Hef; [|intros; simplify_eq].
  intros [= <- <-]. exists e0, d0, minpos, df0, ef0. by split_and!.
Qed.

Lemma foldl_set_entries_None x entries :
  foldl (λ acc '(i, j), m ← acc; set2 m i j x) None entries = None.
Proof. induction entries as [|[i j] entries IH]; [done|]. simpl. apply IH. Qed.

Lemma set_entries_spec x entries (m m' : list (list float)) i j :
  set_entries x entries m = Some m' →
  mget m' i j = if decide ((i, j) ∈ entries) then Some x else mget m i j.
Proof.
  unfold set_entries. revert m. induction entries as [|[a b] entries IH]; intros m Hm.
  { simpl in Hm. simplify_eq. rewrite decide_False; [done|]. apply not_elem_of_nil. }
  simpl in Hm. unfold set2 in Hm at 2.
  destruct (mget m a b) as [old|] eqn:Hold; simpl in Hm;
    [|by rewrite foldl_set_entries_None in Hm].
  rewrite (IH _ Hm), mget_mset.
  destruct (decide ((i, j) ∈ entries)) as [Hin|Hnin].
  - rewrite decide_True; [done|]. by apply list_elem_of_further.
  - destruct (decide (i = a ∧ j = b)) as [[-> ->]|Hne].
    + rewrite Hold. simpl. rewrite decide_True; [done|]. apply list_elem_of_here.
    + rewrite decide_False; [done|].
      intros [[= -> ->]|?]%elem_of_cons; [by apply Hne|done].
Qed.

Lemma foldl_set_first_candidates_None x entries :
  foldl (λ acc '(i, j), a ← acc; set3 a i j 0 x) None entries = None.
Proof. induction entries as [|[i j] entries IH]; [done|]. simpl. apply IH. Qed.

Lemma get3_set3 (a a' : ndarray3) i j k x i' j' k' :
  set3 a i j k x = Some a' →
  get3 a' i' j' k' = if decide (i' = i ∧ j' = j ∧ k' = k) then Some x else get3 a i' j' k'.
Proof.
  unfold set3, get3. intros Ha.
  destruct (data a !! i) as [plane|] eqn:Hplane; simplify_eq/=.
  destruct (plane !! j) as [row|] eqn:Hrow; simplify_eq/=.
  case_guard as Hk; simplify_eq/=.
  rewrite list_lookup_insert.
  destruct (decide (i = i' ∧ i < length (data a))) as [[<- _]|Hi]; simpl.
  - rewrite list_lookup_insert.
    destruct (decide (j = j' ∧ j < length plane)) as [[<- _]|Hj]; simpl.
    + rewrite list_lookup_insert. rewrite Hplane. simpl. rewrite Hrow. simpl.
      destruct (decide (k = k' ∧ k < length row)) as [[<- _]|Hk'].
      * by rewrite decide_True.
      * rewrite decide_False; [done|]. intros (_ & _ & ->). by apply Hk'.
    + rewrite Hplane. simpl. rewrite decide_False; [done|].
      intros (_ & -> & _). apply Hj. split; [done|]. by eapply lookup_lt_Some.
  - rewrite decide_False; [done|].
    intros (-> & _ & _). apply Hi. split; [done|]. by eapply lookup_lt_Some.
Qed.

Lemma set3_shape (a a' : ndarray3) i j k x :
  set3 a i j k x = Some a' →
  (shape0 a', shape1 a', shape2 a') = (shape0 a, shape1 a, shape2 a).
Proof.
  unfold set3. intros Ha.
  destruct (data a !! i) as [plane|]; simplify_eq/=.
  destruct (plane !! j) as [row|]; simplify_eq/=.
  case_guard; by simplify_eq/=.
Qed.

Lemma set_first_candidates_spec x entries (a a' : ndarray3) i j k :
  set_first_candidates x entries a = Some a' →
  get3 a' i j k = if decide (k = 0 ∧ (i, j) ∈ entries) then Some x else get3 a i j k.
Proof.
  unfold set_first_candidates. revert a.
  induction entries as [|[b c] entries IH]; intros a Ha.
  { simpl in Ha. simplify_eq. rewrite decide_False; [done|].
    intros [_ ?%elem_of_nil]. done. }
  simpl in Ha. destruct (set3 a b c 0 x) as [a1|] eqn:Ha1;
    [|by rewrite foldl_set_first_candidates_None in Ha].
  rewrite (IH _ Ha), (get3_set3 _ _ _ _ _ _ _ _ _ Ha1).
  destruct (decide (k = 0 ∧ (i, j) ∈ entries)) as [[-> Hin]|Hnin].
  - rewrite decide_True; [done|]. split; [done|]. by apply list_elem_of_further.
  - destruct (decide (i = b ∧ j = c ∧ k = 0)) as [(-> & -> & ->)|Hne].
    + rewrite decide_True; [done|]. split; [done|]. apply list_elem_of_here.
    + rewrite decide_False; [done|].
      intros [-> [[= -> ->]|?]%elem_of_cons]; [by apply Hne|by apply Hnin].
Qed.

Lemma set_first_candidates_shape x entries (a a' : ndarray3) :
  set_first_candidates x entries a = Some a' →
  (shape0 a', shape1 a', shape2 a') = (shape0 a, shape1 a, shape2 a).
Proof.
  unfold set_first_candidates. revert a.
  induction entries as [|[b c] entries IH]; intros a Ha; [by simplify_eq/=|].
  simpl in Ha. destruct (set3 a b c 0 x) as [a1|] eqn:Ha1;
    [|by rewrite foldl_set_first_candidates_None in Ha].
  rewrite (IH _ Ha). by eapply set3_shape.
Qed.

Lemma elem_of_all_nan_entries (e : ndarray3) i j :
  (i, j) ∈ all_nan_entries e
  ↔ ∃ plane row, data e !! i = Some plane ∧ plane !! j = Some row
                 ∧ forallb is_nan row = true.
Proof.
  unfold all_nan_entries. rewrite list_elem_of_join. split.
  - intros (l & Hin & Hl). apply list_elem_of_lookup in Hl as [i' Hl].
    apply list_lookup_imap_Some in Hl as (plane & Hplane & ->).
    apply list_elem_of_omap in Hin as ([j' row] & Hin & Hrow).
    apply list_elem_of_lookup in Hin as [j'' Hin].
    apply list_lookup_imap_Some in Hin as (row' & Hrow' & [= -> ->]).
    destruct (forallb is_nan row') eqn:Hnan; simplify_eq/=. by exists plane, row'.
  - intros (plane & row & Hplane & Hrow & Hnan).
    eexists. split; [|eapply list_elem_of_lookup_2; rewrite list_lookup_imap, Hplane; done].
    apply list_elem_of_omap. exists (j, row). rewrite Hnan. split; [|done].
    eapply list_elem_of_lookup_2. by rewrite list_lookup_imap, Hrow.
Qed.

Lemma get3_add_in_place (e : ndarray3) (penalties : list (list (list float))) i j k :
  get3 (add_in_place e penalties) i j k
  = x ← get3 e i j k;
    p ← (plane ← penalties !! i; row ← plane !! j; row !! k);
    Some (x + p)%float.
Proof.
  unfold get3, add_in_place. simpl. rewrite lookup_zip_with.
  destruct (data e !! i) as [plane|]; simpl; [|done].
  destruct (penalties !! i) as [pplane|]; simpl.
  - rewrite lookup_zip_with.
    destruct (plane !! j) as [row|]; simpl; [|done].
    destruct (pplane !! j) as [prow|]; simpl.
    + rewrite lookup_zip_with. by destruct (row !! k).
    + by destruct (row !! k).
  - destruct (plane !! j) as [row|]; simpl; [|done]. by destruct (row !! k).
Qed.

(** C8. When every error of the candidates of an entry is NaN, the first
    candidate and its error are set to [0] in the two arrays, and the
    derivative and the error returned for the entry are NaN, not [0]. *)
Theorem all_nan_entry_stays_nan `{env : CLEnvironment} (σ σ' : gmap nat ndarray3)
    dl el d e r i j plane row :
  dl ≠ el → σ !! dl = Some d → σ !! el = Some e →
  _median_outlier_extrapolation dl el σ = (Some r, σ') →
  data e !! i = Some plane → plane !! j = Some row → forallb is_nan row = true →
  (∃ e0 d0,
     set_first_candidates 0 (all_nan_entries e) e = Some e0
     ∧ set_first_candidates 0 (all_nan_entries e) d = Some d0
     ∧ get3 e0 i j 0 = Some 0%float ∧ get3 d0 i j 0 = Some 0%float
     ∧ σ' !! dl = Some d0)
  ∧ mget r.1 i j = Some nan ∧ mget r.2 i j = Some nan
  ∧ is_nan nan = true ∧ (nan =? 0)%float = false.
Proof.
  intros Hne Hd He Hrun Hplane Hrow Hnan.
  assert ((i, j) ∈ all_nan_entries e) as Hin.
  { apply elem_of_all_nan_entries. by exists plane, row. }
  destruct (median_outlier_extrapolation_inv _ _ _ _ _ _ _ Hne Hd He Hrun)
    as (e0 & d0 & minpos & df0 & ef0 & He0 & Hd0 & _ & _ & _ & _ & Hdf & Hef & ->).
  split; [|split; [|split; [|done]]].
  - exists e0, d0. split; [done|]. split; [done|].
    rewrite (set_first_candidates_spec _ _ _ _ i j 0 He0).
    rewrite (set_first_candidates_spec _ _ _ _ i j 0 Hd0).
    rewrite !decide_True by done. split; [done|]. split; [done|].
    by rewrite lookup_insert_ne, lookup_insert_eq.
  - rewrite (set_entries_spec _ _ _ _ i j Hdf). by rewrite decide_True.
  - rewrite (set_entries_spec _ _ _ _ i j Hef). by rewrite decide_True.
Qed.

(** The run of the selection on the example arrays. *)
Lemma example_selection_run :
  @_median_outlier_extrapolation double_env 0 1
    (<[1 := example_errors]> (<[0 := example_candidates]> ∅))
  = (Some ([[nan; 2.5]]%float, [[nan; 0.25]]%float),
     <[1 := Ndarray3 1 2 3 [[[0; nan; nan]; [0.5; 0.25; 47.625]]]%float]>
       (<[0 := Ndarray3 1 2 3 [[[0; nan; nan]; [2; 2.5; 50]]]%float]>
          (<[1 := Ndarray3 1 2 3 [[[0; nan; nan]; [0.5; 0.25; 0.125]]]%float]>
             (<[1 := example_errors]> (<[0 := example_candidates]> ∅))))).
Proof.
  unfold _median_outlier_extrapolation.
  unfold mbind, St_bind, st_bind, st_read, st_lift, st_write, mret, St_ret, st_ret.
  rewrite lookup_insert_eq.
  change (set_first_candidates 0 (all_nan_entries example_errors) example_errors)
    with (Some (Ndarray3 1 2 3 [[[0; nan; nan]; [0.5; 0.25; 0.125]]]%float)).
  cbv beta iota. rewrite lookup_insert_ne, lookup_insert_ne, lookup_insert_eq by done.
  change (set_first_candidates 0 (all_nan_entries example_errors) example_candidates)
    with (Some (Ndarray3 1 2 3 [[[0; nan; nan]; [2; 2.5; 50]]]%float)).
  cbv beta iota.
  rewrite lookup_insert_eq, lookup_insert_ne, lookup_insert_eq by done.
  cbv beta iota. simpl guard. cbv beta iota.
  rewrite lookup_insert_eq, lookup_insert_ne, lookup_insert_eq by done.
  vm_compute add_in_place. reflexivity.
Qed.

Lemma example_store_lookups :
  (<[1 := example_errors]> (<[0 := example_candidates]> ∅) : gmap nat ndarray3) !! 0
  = Some example_candidates
  ∧ (<[1 := example_errors]> (<[0 := example_candidates]> ∅) : gmap nat ndarray3) !! 1
    = Some example_errors.
Proof. split; [by rewrite lookup_insert_ne, lookup_insert_eq|by rewrite lookup_insert_eq]. Qed.

(** The instance of C8 at an entry whose three errors are NaN. *)
Lemma all_nan_entry_stays_nan_witness :
  @_median_outlier_extrapolation double_env 0 1
    (<[1 := example_errors]> (<[0 := example_candidates]> ∅))
  = (Some ([[nan; 2.5]]%float, [[nan; 0.25]]%float),
     <[1 := Ndarray3 1 2 3 [[[0; nan; nan]; [0.5; 0.25; 47.625]]]%float]>
       (<[0 := Ndarray3 1 2 3 [[[0; nan; nan]; [2; 2.5; 50]]]%float]>
          (<[1 := Ndarray3 1 2 3 [[[0; nan; nan]; [0.5; 0.25; 0.125]]]%float]>
             (<[1 := example_errors]> (<[0 := example_candidates]> ∅)))))
  ∧ mget [[nan; 2.5]]%float 0 0 = Some nan ∧ mget [[nan; 0.25]]%float 0 0 = Some nan.
Proof.
  split; [exact example_selection_run|].
  destruct example_store_lookups as [Hd He].
  destruct (@all_nan_entry_stays_nan double_env _ _ 0 1 example_candidates example_errors
              _ 0 0 [[nan; nan; nan]; [0.5; 0.25; 0.125]]%float [nan; nan; nan]%float
              ltac:(done) Hd He example_selection_run eq_refl eq_refl eq_refl)
    as (_ & H1 & H2 & _).
  split; [exact H1|exact H2].
Defined.

(** C10. [_median_outlier_extrapolation] changes the arrays of its caller:
    after the call the array of the derivatives holds [0] in the first
    candidate of every entry whose errors were all NaN, and the array of the
    errors holds, element by element, the error (or that [0]) plus the
    penalty of the candidate; no other array of the store is touched. *)
Theorem median_outlier_extrapolation_mutates_inputs `{env : CLEnvironment}
    (σ σ' : gmap nat ndarray3) dl el d e r :
  dl ≠ el → σ !! dl = Some d → σ !! el = Some e →
  _median_outlier_extrapolation dl el σ = (Some r, σ') →
  ∃ d' e',
    σ' !! dl = Some d' ∧ σ' !! el = Some e'
    ∧ (∀ i j k,
         get3 d' i j k
         = if decide (k = 0 ∧ (i, j) ∈ all_nan_entries e) then Some 0%float
           else get3 d i j k)
    ∧ (∀ i j k,
         get3 e' i j k
         = x ← (if decide (k = 0 ∧ (i, j) ∈ all_nan_entries e) then Some 0%float
                else get3 e i j k);
           p ← (plane ← data d' !! i; row ← plane !! j;
                _get_median_outliers_errors row !! k);
           Some (x + p)%float)
    ∧ (∀ l, l ≠ dl → l ≠ el → σ' !! l = σ !! l).
Proof.
  intros Hne Hd He Hrun.
  destruct (median_outlier_extrapolation_inv _ _ _ _ _ _ _ Hne Hd He Hrun)
    as (e0 & d0 & minpos & df0 & ef0 & He0 & Hd0 & _ & _ & _ & _ & _ & _ & ->).
  exists d0, (add_in_place e0 (map (map _get_median_outliers_errors) (data d0))).
  split; [by rewrite lookup_insert_ne, lookup_insert_eq|].
  split; [by rewrite lookup_insert_eq|].
  split; [intros i j k; by apply set_first_candidates_spec|].
  split.
  - intros i j k. rewrite get3_add_in_place.
    rewrite (set_first_candidates_spec _ _ _ _ i j k He0).
    rewrite !list_lookup_fmap.
    destruct (data d0 !! i) as [plane|]; simpl; [|done].
    rewrite list_lookup_fmap. by destruct (plane !! j).
  - intros l Hl1 Hl2. by rewrite !lookup_insert_ne.
Qed.

(** The instance of C10 on the example: the caller's errors of the outlier
    went from [0.125] to [47.625], and the first candidate of the entry
    without a valid error from NaN to [0], in both arrays. *)
Lemma median_outlier_extrapolation_mutates_inputs_witness :
  ∃ r σ' d' e',
    @_median_outlier_extrapolation double_env 0 1
      (<[1 := example_errors]> (<[0 := example_candidates]> ∅)) = (Some r, σ')
    ∧ σ' !! 0 = Some d' ∧ σ' !! 1 = Some e'
    ∧ get3 example_errors 0 1 2 = Some 0.125%float
    ∧ get3 e' 0 1 2 = Some 47.625%float
    ∧ get3 example_candidates 0 0 0 = Some nan
    ∧ get3 d' 0 0 0 = Some 0%float
    ∧ get3 e' 0 0 0 = Some 0%float.
Proof.
  pose proof example_selection_run as Hrun.
  destruct example_store_lookups as [Hd He].
  destruct (@median_outlier_extrapolation_mutates_inputs double_env _ _ 0 1 _ _ _
              ltac:(done) Hd He Hrun) as (d' & e' & Hd' & He' & _).
  eexists _, _, d', e'. split; [exact Hrun|]. split; [exact Hd'|]. split; [exact He'|].
  rewrite lookup_insert_ne, lookup_insert_eq in Hd' by done.
  rewrite lookup_insert_eq in He'. injection Hd' as <-. injection He' as <-.
  split_and!; reflexivity.
Defined.

(** *** The candidate the selection takes *)

Lemma SFleb_key f g :
  f ≠ S754_nan → g ≠ S754_nan →
  SFleb f g = true ↔ key_le (order_key f) (order_key g).
Proof.
  intros Hf Hg. unfold SFleb, key_le.
  destruct f as [s1|s1| |s1 m1 e1], g as [s2|s2| |s2 m2 e2]; try done;
    try destruct s1; try destruct s2; simpl;
    rewrite ?Pos.compare_cont_spec; simpl;
    try destruct (Z.compare_spec e1 e2); simpl;
    try destruct (Pos.compare_spec m1 m2); simpl;
    (split; [intros ?; try done; lia|intros ?; try done; lia]).
Qed.

Lemma is_nan_Prim2SF x : is_nan x = false ↔ Prim2SF x ≠ S754_nan.
Proof.
  unfold is_nan. rewrite FloatAxioms.eqb_spec. unfold SFeqb.
  destruct (Prim2SF x) as [s|s| |s m e]; simpl; [done|by destruct s|naive_solver|].
  destruct s; rewrite Z.compare_refl, Pos.compare_cont_refl; done.
Qed.

Lemma float_leb_key x y :
  (x <=? y)%float = true ↔
  is_nan x = false ∧ is_nan y = false
  ∧ key_le (order_key (Prim2SF x)) (order_key (Prim2SF y)).
Proof.
  rewrite leb_spec, !is_nan_Prim2SF.
  destruct (Prim2SF x) as [s1|s1| |s1 m1 e1] eqn:Hx;
    [| |split; [done|by intros [? _]]|];
    (destruct (Prim2SF y) as [s2|s2| |s2 m2 e2] eqn:Hy;
      [| |split; [done|by intros (_ & ? & _)]|]);
    rewrite SFleb_key by done; (split; [by intros ?|by intros (_ & _ & ?)]).
Qed.

Lemma float_leb_trans x y z :
  (x <=? y)%float = true → (y <=? z)%float = true → (x <=? z)%float = true.
Proof.
  rewrite !float_leb_key. unfold key_le.
  intros (? & ? & ?) (? & ? & ?). split_and!; [done..|lia].
Qed.

Lemma float_leb_total x y :
  is_nan x = false → is_nan y = false →
  (x <=? y)%float = false → (y <=? x)%float = true.
Proof.
  intros Hx Hy Hxy. apply float_leb_key. split_and!; [done..|].
  apply not_true_iff_false in Hxy. rewrite float_leb_key in Hxy. unfold key_le in *.
  destruct (decide ((order_key (Prim2SF y)).1.1 < (order_key (Prim2SF x)).1.1
     ∨ (order_key (Prim2SF y)).1.1 = (order_key (Prim2SF x)).1.1
       ∧ ((order_key (Prim2SF y)).1.2 < (order_key (Prim2SF x)).1.2
          ∨ (order_key (Prim2SF y)).1.2 = (order_key (Prim2SF x)).1.2
            ∧ (order_key (Prim2SF y)).2 ≤ (order_key (Prim2SF x)).2))%Z); [done|].
  exfalso. apply Hxy. split_and!; [done..|lia].
Qed.

Lemma float_leb_refl x : is_nan x = false → (x <=? x)%float = true.
Proof. intros Hx. apply float_leb_key. unfold key_le. split_and!; [done..|lia]. Qed.

Lemma float_leb_not_nan x y :
  (x <=? y)%float = true → is_nan x = false ∧ is_nan y = false.
Proof. rewrite float_leb_key. tauto. Qed.

(** The loop of [argmin] keeps the first of the smallest elements it has
    seen. *)
Lemma argmin_loop_spec ip : ∀ l mp min_ind,
  Forall (λ x, is_nan x = false) (l ++ ip) →
  l !! min_ind = Some mp →
  (∀ j w, l !! j = Some w → (mp <=? w)%float = true) →
  (∀ j w, j < min_ind → l !! j = Some w → (w <=? mp)%float = false) →
  ∃ v, (l ++ ip) !! argmin_loop mp min_ind (length l) ip = Some v
       ∧ (∀ j w, (l ++ ip) !! j = Some w → (v <=? w)%float = true)
       ∧ (∀ j w, j < argmin_loop mp min_ind (length l) ip →
                 (l ++ ip) !! j = Some w → (w <=? v)%float = false).
Proof.
  induction ip as [|v ip IH]; intros l mp min_ind Hnn Hmp Hle Hlt.
  { simpl. rewrite app_nil_r. by exists mp. }
  assert (is_nan v = false) as Hv.
  { rewrite Forall_app, Forall_cons in Hnn. tauto. }
  assert (is_nan mp = false) as Hm by (by eapply float_leb_not_nan, Hle).
  simpl. rewrite Hv. rewrite (assoc_L app l [v] ip : l ++ v :: ip = (l ++ [v]) ++ ip) in *.
  replace (S (length l)) with (length (l ++ [v])) by (rewrite length_app; simpl; lia).
  destruct (mp <=? v)%float eqn:Hmv; simpl.
  - apply IH; [done|by apply lookup_app_l_Some| |].
    + intros j w [Hw|[_ Hw]]%lookup_app_Some; [by eapply Hle|].
      apply list_lookup_singleton_Some in Hw as [_ <-]. done.
    + intros j w Hj Hw. apply (Hlt j w Hj).
      apply lookup_lt_Some in Hmp. rewrite lookup_app_l in Hw by lia. done.
  - pose proof (float_leb_total _ _ Hm Hv Hmv) as Hvm.
    apply IH; [done|by rewrite lookup_app_r, Nat.sub_diag| |].
    + intros j w [Hw|[_ Hw]]%lookup_app_Some.
      * eapply float_leb_trans; [done|by eapply Hle].
      * apply list_lookup_singleton_Some in Hw as [_ <-]. by apply float_leb_refl.
    + intros j w Hj Hw. rewrite lookup_app_l in Hw by done.
      destruct (w <=? v)%float eqn:Hwv; [|done].
      assert ((mp <=? v)%float = true) as Hc
        by (eapply float_leb_trans; [by eapply Hle|done]).
      congruence.
Qed.

Lemma np_argmin_spec a k :
  Forall (λ x, is_nan x = false) a →
  np_argmin a = Some k →
  ∃ v, a !! k = Some v
       ∧ (∀ j w, a !! j = Some w → (v <=? w)%float = true)
       ∧ (∀ j w, j < k → a !! j = Some w → (w <=? v)%float = false).
Proof.
  destruct a as [|mp ip]; [done|]. intros Hnn [= <-].
  assert (is_nan mp = false) as Hm by (by inversion Hnn).
  rewrite Hm.
  apply (argmin_loop_spec ip [mp] mp 0); [done|done| |].
  - intros j w [_ <-]%list_lookup_singleton_Some. by apply float_leb_refl.
  - intros j w Hj. lia.
Qed.

(** [np.nanargmin] returns the first position of the smallest element,
    every NaN read as [+inf]. *)
Lemma np_nanargmin_spec a k :
  np_nanargmin a = Some k →
  ∃ v, a !! k = Some v
       ∧ (∀ j w, a !! j = Some w → is_nan w = false →
                 ((if is_nan v then infinity else v) <=? w)%float = true)
       ∧ (∀ j w, j < k → a !! j = Some w →
                 ((if is_nan w then infinity else w)
                  <=? (if is_nan v then infinity else v))%float = false).
Proof.
  unfold np_nanargmin. destruct (forallb is_nan a); [done|]. intros Hk.
  apply np_argmin_spec in Hk as (v' & Hv' & Hle & Hlt).
  - rewrite list_lookup_fmap in Hv'.
    destruct (a !! k) as [v|] eqn:Hv; simplify_eq/=. exists v. split; [done|]. split.
    + intros j w Hw Hnw. specialize (Hle j w). rewrite list_lookup_fmap, Hw in Hle.
      simpl in Hle. rewrite Hnw in Hle. by apply Hle.
    + intros j w Hj Hw. apply (Hlt j); [done|]. by rewrite list_lookup_fmap, Hw.
  - apply Forall_fmap, Forall_forall. intros x _. simpl. by destruct (is_nan x) eqn:Hx.
Qed.

Lemma gather_lookup (a : ndarray3) minpos m i j pos k row :
  gather a minpos = Some m →
  minpos !! i = Some pos → pos !! j = Some k → row3 a i j = Some row →
  mget m i j = row !! k.
Proof.
  unfold gather, row3, mget. intros Hm Hpos Hk Hrow.
  destruct (data a !! i) as [plane|] eqn:Hplane; simplify_eq/=.
  apply mapM_Some in Hm.
  destruct (Forall2_lookup_l _ _ _ i (plane, pos) Hm) as (mrow & -> & Hmrow).
  { by rewrite lookup_zip_with, Hplane, Hpos. }
  simpl. apply mapM_Some in Hmrow.
  destruct (Forall2_lookup_l _ _ _ j (row, k) Hmrow) as (x & -> & Hx).
  { by rewrite lookup_zip_with, Hrow, Hk. }
  done.
Qed.

Lemma gather_lookup_inv (a : ndarray3) minpos m i j x :
  gather a minpos = Some m → mget m i j = Some x →
  ∃ pos k row, minpos !! i = Some pos ∧ pos !! j = Some k ∧ row3 a i j = Some row
               ∧ row !! k = Some x.
Proof.
  unfold gather, row3, mget. intros Hm Hx.
  destruct (m !! i) as [mrow|] eqn:Hmrow; simplify_eq/=.
  apply mapM_Some in Hm.
  destruct (Forall2_lookup_r _ _ _ i mrow Hm Hmrow) as ([plane pos] & Hz & Hrow).
  apply lookup_zip_with_Some in Hz as (? & ? & [= <- <-] & Hplane & Hpos).
  apply mapM_Some in Hrow.
  destruct (Forall2_lookup_r _ _ _ j x Hrow Hx) as ([row k] & Hz & Hk).
  apply lookup_zip_with_Some in Hz as (? & ? & [= <- <-] & Hr & Hkk).
  exists pos, k, row. rewrite Hplane. by split_and!.
Qed.

Lemma minpos_lookup (a : ndarray3) minpos i j pos k :
  mapM (mapM np_nanargmin) (data a) = Some minpos →
  minpos !! i = Some pos → pos !! j = Some k →
  ∃ row, row3 a i j = Some row ∧ np_nanargmin row = Some k.
Proof.
  unfold row3. intros Hm Hpos Hk. apply mapM_Some in Hm.
  destruct (Forall2_lookup_r _ _ _ i pos Hm Hpos) as (plane & -> & Hplane).
  apply mapM_Some in Hplane.
  destruct (Forall2_lookup_r _ _ _ j k Hplane Hk) as (row & Hrow & Hmin).
  by exists row.
Qed.

(** X5. The entry [(i, j)] of the result of [_median_outlier_extrapolation],
    when not every error of the entry was NaN: the candidate at the position
    [np.nanargmin] gives for the errors of the entry with the penalties of
    the outliers added, together with that error; the position is the first
    one of the smallest of these errors, every NaN read as [+inf]. *)
Lemma selection_takes_first_smallest_error `{env : CLEnvironment}
    (σ σ' : gmap nat ndarray3) dl el d e r i j x :
  dl ≠ el → σ !! dl = Some d → σ !! el = Some e →
  _median_outlier_extrapolation dl el σ = (Some r, σ') →
  (i, j) ∉ all_nan_entries e →
  mget r.1 i j = Some x →
  ∃ d' e' candidates errors k v,
    σ' !! dl = Some d' ∧ σ' !! el = Some e'
    ∧ row3 d' i j = Some candidates ∧ row3 e' i j = Some errors
    ∧ np_nanargmin errors = Some k
    ∧ candidates !! k = Some x ∧ errors !! k = Some v ∧ mget r.2 i j = Some v
    ∧ (∀ k' w, errors !! k' = Some w → is_nan w = false →
               ((if is_nan v then infinity else v) <=? w)%float = true)
    ∧ (∀ k' w, k' < k → errors !! k' = Some w →
               ((if is_nan w then infinity else w)
                <=? (if is_nan v then infinity else v))%float = false).
Proof.
  intros Hne Hd He Hrun Hnin Hx.
  destruct (median_outlier_extrapolation_inv _ _ _ _ _ _ _ Hne Hd He Hrun)
    as (e0 & d0 & minpos & df0 & ef0 & _ & _ & _ & Hmin & Hdf0 & Hef0 & Hdf & Hef & ->).
  rewrite (set_entries_spec _ _ _ _ i j Hdf), decide_False in Hx by done.
  destruct (gather_lookup_inv _ _ _ _ _ _ Hdf0 Hx)
    as (pos & k & candidates & Hpos & Hk & Hcand & Hxk).
  destruct (minpos_lookup _ _ _ _ _ _ Hmin Hpos Hk) as (errors & Herr & Hargmin).
  destruct (np_nanargmin_spec _ _ Hargmin) as (v & Hv & Hle & Hlt).
  eexists d0, _, candidates, errors, k, v. split_and!; try done.
  - by rewrite lookup_insert_ne, lookup_insert_eq.
  - by rewrite lookup_insert_eq.
  - rewrite (set_entries_spec _ _ _ _ i j Hef), decide_False by done.
    by rewrite (gather_lookup _ _ _ _ _ _ _ _ Hef0 Hpos Hk Herr).
Qed.

(** Equal errors: the two routines on an entry all of whose errors are the
    same number. *)
Lemma argmin_loop_replicate e n min_ind i :
  is_nan e = false → argmin_loop e min_ind i (replicate n e) = min_ind.
Proof.
  intros He. revert i. induction n as [|n IH]; intros i; [done|].
  simpl. rewrite float_leb_refl by done. simpl. apply IH.
Qed.

Lemma np_nanargmin_replicate e n :
  is_nan e = false → np_nanargmin (replicate (S n) e) = Some 0.
Proof.
  intros He. unfold np_nanargmin. simpl. rewrite He. simpl.
  rewrite He. f_equal.
  replace (map _ (replicate n e)) with (replicate n e); [by apply argmin_loop_replicate|].
  rewrite fmap_replicate. by rewrite He.
Qed.

Lemma np_nanmin_replicate e n :
  is_nan e = false → Mapping.np_nanmin (replicate (S n) e) = e.
Proof.
  intros He. simpl. induction n as [|n IH]; [done|].
  simpl. unfold Mapping.np_fmin at 2. rewrite float_leb_refl by done. simpl. apply IH.
Qed.

Lemma flatnonzero_eq_replicate e n :
  is_nan e = false → Mapping.flatnonzero_eq (replicate n e) e = seq 0 n.
Proof.
  intros He. unfold Mapping.flatnonzero_eq.
  assert (∀ g : nat → nat,
    omap (λ '(k, v), if (v =? e)%float then Some k else None)
         (imap (λ i, pair (g i)) (replicate n e)) = g <$> seq 0 n) as H.
  { induction n as [|n IH]; intros g; [done|].
    simpl. unfold is_nan in He. apply negb_false_iff in He. rewrite He.
    f_equal. rewrite <- fmap_S_seq, <- list_fmap_compose. apply (IH (g ∘ S)). }
  specialize (H id). rewrite list_fmap_id in H. exact H.
Qed.

Lemma arg_min_of_entry_replicate e n :
  is_nan e = false →
  Mapping.arg_min_of_entry (replicate (S n) e) = Some (S n `div` 2).
Proof.
  intros He. unfold Mapping.arg_min_of_entry.
  rewrite np_nanmin_replicate, flatnonzero_eq_replicate by done.
  rewrite length_seq. apply lookup_seq. split; [done|].
  apply Nat.div_lt; lia.
Qed.

(** C6 at a tie. Three candidates [5, 6, 7] of one entry have the same
    error and none is an outlier. [_median_outlier_extrapolation] returns
    the first of them, where [np.nanargmin] stops; [_get_arg_min] of the
    older routine takes the middle one of the minimal errors, the second.
    In general [np.nanargmin] returns the first position of a smallest
    error, and on [n + 1] equal errors the new routine takes position [0]
    where the older one takes position [(n + 1) / 2]. *)
Theorem tie_takes_first_candidate :
  (@run_median_outlier_extrapolation double_env tied_candidates tied_errors
   = Some ([[5]]%float, [[1]]%float)
   ∧ np_nanargmin [1; 1; 1]%float = Some 0
   ∧ Mapping.arg_min_of_entry [1; 1; 1]%float = Some 1
   ∧ Mapping._get_arg_min [[1]; [1]; [1]]%float = Some [1])
  ∧ (∀ errors k,
       np_nanargmin errors = Some k →
       ∃ v, errors !! k = Some v
            ∧ (∀ j w, errors !! j = Some w → is_nan w = false →
                      ((if is_nan v then infinity else v) <=? w)%float = true)
            ∧ (∀ j w, j < k → errors !! j = Some w →
                      ((if is_nan w then infinity else w)
                       <=? (if is_nan v then infinity else v))%float = false))
  ∧ (∀ e n,
       is_nan e = false →
       np_nanargmin (replicate (S n) e) = Some 0
       ∧ Mapping.arg_min_of_entry (replicate (S n) e) = Some (S n `div` 2)).
Proof.
  split; [split_and!; vm_compute; reflexivity|]. split.
  - apply np_nanargmin_spec.
  - intros e n He. split.
    + by apply np_nanargmin_replicate.
    + by apply arg_min_of_entry_replicate.
Qed.

(** *** The older kernel on an infeasible start *)

(** C7, as the code has it. When the initial point of an instance fails the
    bound check, the kernel returns before it writes: the output buffers of
    the instance hold what their allocation held, and every instance of the
    batch gets the result of the kernel on its own slices. *)
Theorem infeasible_start_leaves_buffers `{env : CLEnvironment} (m : Mapping.model)
    nmr_steps step_ratio (parameters : list (list float))
    (allocated : list Mapping.buffers) rules k x b :
  Mapping._get_richardson_rules step_ratio = Some rules →
  parameters !! k = Some x → allocated !! k = Some b →
  Mapping._initial_point_within_bounds m k nmr_steps (map to_mot_float_type x) = false →
  ∃ out,
    Mapping.run_procedure m nmr_steps step_ratio parameters allocated = Some out
    ∧ length out = length parameters `min` length allocated
    ∧ (∃ bk, out !! k = Some bk
             ∧ Mapping.step_evaluates bk = Mapping.step_evaluates b
             ∧ Mapping.step_evaluates_convoluted bk = Mapping.step_evaluates_convoluted b
             ∧ Mapping.steps bk = replicate (nmr_steps * nmr_columns parameters) 0%float)
    ∧ ∀ j xj bj,
        parameters !! j = Some xj → allocated !! j = Some bj →
        out !! j
        = Some (Mapping.compute m j (nmr_columns parameters) nmr_steps step_ratio rules xj
                  (Mapping.Buffers (replicate (nmr_steps * nmr_columns parameters) 0%float)
                     (Mapping.step_evaluates bj) (Mapping.step_evaluates_convoluted bj))).
Proof.
  intros Hrules Hx Hb Hout. unfold Mapping.run_procedure. rewrite Hrules. simpl.
  eexists. split; [done|].
  split; [by rewrite length_imap, length_zip|].
  assert (∀ j xj bj, parameters !! j = Some xj → allocated !! j = Some bj →
            zip parameters allocated !! j = Some (xj, bj)) as Hzip.
  { intros j xj bj Hxj Hbj. by rewrite lookup_zip_with, Hxj, Hbj. }
  split.
  - eexists. rewrite list_lookup_imap, (Hzip _ _ _ Hx Hb). simpl.
    split; [done|]. unfold Mapping.compute. rewrite Hout. done.
  - intros j xj bj Hxj Hbj. by rewrite list_lookup_imap, (Hzip _ _ _ Hxj Hbj).
Qed.

(** The instance of the amended C7: the first of two instances starts
    outside of [[0, 1]]. *)
Lemma infeasible_start_leaves_buffers_witness :
  ∃ out b0 b1,
    @Mapping.run_procedure double_env unit_interval_model 1 2%float [[-1]; [0.5]]%float
      [Mapping.Buffers [] [7] [9]; Mapping.Buffers [] [7] [9]]%float = Some out
    ∧ out !! 0 = Some b0 ∧ out !! 1 = Some b1
    ∧ Mapping.step_evaluates b0 = [7%float]
    ∧ Mapping.step_evaluates_convoluted b0 = [9%float]
    ∧ Mapping.step_evaluates b1 = [2%float].
Proof.
  destruct (@infeasible_start_leaves_buffers double_env unit_interval_model 1 2%float
              [[-1]; [0.5]]%float
              [Mapping.Buffers [] [7] [9]; Mapping.Buffers [] [7] [9]]%float
              ([-0.33333333333333331; 1.3333333333333333]%float,
               [0.022222222222222223; -0.44444444444444442; 1.4222222222222223]%float)
              0 [-1]%float (Mapping.Buffers [] [7] [9])%float)
    as (out & Hrun & _ & (b0 & Hb0 & He0 & Hc0 & _) & Hothers);
    [vm_compute; reflexivity|reflexivity|reflexivity|vm_compute; reflexivity|].
  specialize (Hothers 1 [0.5]%float (Mapping.Buffers [] [7] [9])%float eq_refl eq_refl).
  eexists out, b0, _. split; [exact Hrun|]. split; [exact Hb0|]. split; [exact Hothers|].
  split; [exact He0|]. split; [exact Hc0|]. vm_compute. reflexivity.
Defined.

(** C7 as it is stated fails twice. An instance that starts outside of its
    bounds keeps the zeros of a zero-filled allocation, which are no NaN,
    while the next instance is computed. And when the bound check admits no
    step, [_generate_grid_points] still reports success, the kernel goes on,
    and the value it writes for the second step is [2], no NaN. *)
Lemma infeasible_instances_are_not_marked :
  @Mapping.run_procedure double_env unit_interval_model 1 2%float [[-1]; [0.5]]%float
    [Mapping.Buffers [] [0] [0]; Mapping.Buffers [] [0] [0]]%float
  = Some [Mapping.Buffers [0] [0] [0]; Mapping.Buffers [0.5] [2] [0]]%float
  ∧ is_nan 0%float = false
  ∧ @Mapping._generate_grid_points double_env no_step_model 0 1 2 2%float [1]%float
      [0; 0]%float
    = (true, [0; 0.00048828125]%float)
  ∧ @Mapping.run_procedure double_env no_step_model 2 2%float [[1]]%float
      [Mapping.Buffers [] [0; 0] [0; 0]]%float
    = Some [Mapping.Buffers [0; 0.00048828125] [nan; 2] [nan; 2]]%float
  ∧ is_nan 2%float = false.
Proof. split_and!; vm_compute; reflexivity. Qed.

(** *** The problems of the result *)

Lemma initial_step_size_length model (parameters : list (list float)) lb ub st :
  _get_initial_step_size model parameters lb ub = Some st → length st = length parameters.
Proof.
  unfold _get_initial_step_size. intros H.
  destruct (initial_step_loop _ _ _ _ _ _ _ (NoDup_seq 0 _) H) as (Hlen & _);
    [by rewrite length_map|done].
Qed.

Lemma compute_derivatives_length `{env : CLEnvironment} model f (parameters : list (list float))
    step_ratio step_offset nmr_steps lb ub raw :
  _compute_derivatives model f parameters step_ratio step_offset nmr_steps lb ub = Some raw →
  length (data raw) = length parameters.
Proof.
  unfold _compute_derivatives. intros H.
  destruct (_get_initial_step_size _ _ _ _) as [st0|] eqn:Hst; simplify_eq/=.
  destruct (offset_initial_step _ _ _) as [st|] eqn:Hoff; simplify_eq/=.
  apply initial_step_size_length in Hst. apply offset_initial_step_length in Hoff.
  rewrite length_imap, length_zip_with. lia.
Qed.

Lemma richardson_data_length `{env : CLEnvironment} (d : ndarray3) step_ratio r e :
  _richardson_extrapolation d step_ratio = Some (r, e) →
  length (data r) = length (data d) ∧ length (data e) = length (data d).
Proof.
  unfold _richardson_extrapolation. intros H.
  case_guard; simplify_eq/=.
  destruct (_get_richardson_coefficients _ _); simplify_eq/=.
  case_guard; simplify_eq/=. by rewrite !length_map.
Qed.

Lemma wynn_data_length `{env : CLEnvironment} (a w we : ndarray3) :
  _wynn_extrapolate a = Some (w, we) →
  length (data w) = length (data a) ∧ length (data we) = length (data a).
Proof.
  unfold _wynn_extrapolate. intros H. case_guard; simplify_eq/=.
  by rewrite !length_map.
Qed.

Lemma take_first_length (a : ndarray3) m :
  take_first a = Some m → length m = length (data a).
Proof.
  unfold take_first. intros H. destruct (shape2 a); simplify_eq/=. by rewrite length_map.
Qed.

Lemma finalize_derivatives_length model p derivatives H :
  finalize_derivatives model p derivatives = Some H → length H = length derivatives.
Proof.
  unfold finalize_derivatives, _results_vector_to_matrix. intros HH.
  destruct (mapM _ derivatives) as [matrices|] eqn:Hm; simplify_eq/=.
  case_guard; simplify_eq/=. apply length_mapM in Hm. by rewrite length_map.
Qed.

Lemma set_entries_length x entries (m m' : list (list float)) :
  set_entries x entries m = Some m' → length m' = length m.
Proof.
  unfold set_entries. revert m. induction entries as [|[a b] entries IH]; intros m Hm.
  { simpl in Hm. by simplify_eq. }
  simpl in Hm. unfold set2 in Hm at 2.
  destruct (mget m a b); simpl in Hm; [|by rewrite foldl_set_entries_None in Hm].
  rewrite (IH _ Hm). unfold mset. by rewrite length_alter.
Qed.

Lemma set_first_candidates_length x entries (a a' : ndarray3) :
  set_first_candidates x entries a = Some a' → length (data a') = length (data a).
Proof.
  unfold set_first_candidates. revert a.
  induction entries as [|[b c] entries IH]; intros a Ha; [by simplify_eq/=|].
  simpl in Ha. destruct (set3 a b c 0 x) as [a1|] eqn:Ha1;
    [|by rewrite foldl_set_first_candidates_None in Ha].
  rewrite (IH _ Ha). unfold set3 in Ha1.
  destruct (data a !! b) as [plane|]; simplify_eq/=.
  destruct (plane !! c) as [row|]; simplify_eq/=.
  case_guard; simplify_eq/=. by rewrite length_insert.
Qed.

Lemma run_median_outlier_extrapolation_length `{env : CLEnvironment}
    (derivatives errors : ndarray3) r :
  run_median_outlier_extrapolation derivatives errors = Some r →
  length (data errors) = length (data derivatives) →
  length r.1 = length (data derivatives).
Proof.
  unfold run_median_outlier_extrapolation. intros Hrun Hlen.
  destruct (_median_outlier_extrapolation 0 1 _) as [o σ'] eqn:Hm. simpl in Hrun. subst o.
  eapply median_outlier_extrapolation_inv in Hm
    as (e0 & d0 & minpos & df0 & ef0 & He0 & Hd0 & _ & Hmin & Hdf0 & _ & Hdf & _);
    [|done|by rewrite lookup_insert_ne, lookup_insert_eq|by rewrite lookup_insert_eq].
  apply set_entries_length in Hdf. apply length_mapM in Hdf0, Hmin.
  apply set_first_candidates_length in He0, Hd0.
  rewrite length_zip_with in Hdf0. simpl in Hmin.
  rewrite length_zip_with, length_map in Hmin. lia.
Qed.

(** The Hessians [numerical_hessian] returns: one for every problem. *)
Lemma numerical_hessian_length `{env : CLEnvironment} model f parameters lb ub
    step_ratio nmr_steps step_offset H :
  numerical_hessian model f parameters lb ub step_ratio nmr_steps step_offset = Some H →
  length H = length (at_least_2d parameters).
Proof.
  unfold numerical_hessian. intros HH.
  destruct (_compute_derivatives _ _ _ _ _ _ _ _) as [raw|] eqn:Hraw; simplify_eq/=.
  apply compute_derivatives_length in Hraw.
  case_decide.
  { destruct (take_first raw) as [first|] eqn:Hfirst; simplify_eq/=.
    apply take_first_length in Hfirst. apply finalize_derivatives_length in HH. congruence. }
  destruct (_richardson_extrapolation raw step_ratio) as [[c ce]|] eqn:Hr;
    [|by simplify_eq].
  apply richardson_data_length in Hr as [Hc Hce].
  change ((if decide (nmr_steps ≤ 3)
           then take_first (c, ce).1 ≫= finalize_derivatives model
                  (nmr_columns (at_least_2d parameters))
           else wynn_stage (c, ce) ≫= λ candidates,
                  select_stage candidates ≫= finalize_derivatives model
                    (nmr_columns (at_least_2d parameters))) = Some H) in HH.
  destruct (decide (nmr_steps ≤ 3)).
  { destruct (take_first (c, ce).1) as [first|] eqn:Hfirst; [|by simplify_eq].
    apply take_first_length in Hfirst. apply finalize_derivatives_length in HH.
    simpl in *. congruence. }
  destruct (wynn_stage (c, ce)) as [[w we]|] eqn:Hw; [|by simplify_eq].
  change (select_stage (w, we) ≫= finalize_derivatives model
            (nmr_columns (at_least_2d parameters)) = Some H) in HH.
  assert (length (data w) = length (data c) ∧ length (data we) = length (data c))
    as [Hlw Hlwe].
  { unfold wynn_stage in Hw. case_decide; [by apply wynn_data_length|].
    simplify_eq. split; congruence. }
  destruct (select_stage (w, we)) as [best|] eqn:Hbest; simplify_eq/=.
  apply finalize_derivatives_length in HH. rewrite HH.
  unfold select_stage in Hbest. case_decide.
  - apply take_first_length in Hbest. congruence.
  - destruct (run_median_outlier_extrapolation w we) as [r|] eqn:Hrun; simplify_eq/=.
    apply run_median_outlier_extrapolation_length in Hrun; congruence.
Qed.

(** C9. A one dimensional [parameters] array of length [p] is the single
    row of a [(1, p)] matrix: the routine returns what it returns for that
    matrix, and what it returns is the Hessian of one problem instance. *)
Theorem one_dimensional_parameters_are_one_problem `{env : CLEnvironment} model f
    (v : list float) lb ub step_ratio nmr_steps step_offset :
  at_least_2d (Parameters1d v) = [v]
  ∧ length (at_least_2d (Parameters1d v)) = 1
  ∧ nmr_columns (at_least_2d (Parameters1d v)) = length v
  ∧ numerical_hessian model f (Parameters1d v) lb ub step_ratio nmr_steps step_offset
    = numerical_hessian model f (Parameters2d [v]) lb ub step_ratio nmr_steps step_offset
  ∧ ∀ H,
      numerical_hessian model f (Parameters1d v) lb ub step_ratio nmr_steps step_offset
      = Some H →
      length H = 1.
Proof.
  split_and!; try reflexivity.
  intros H HH. by apply numerical_hessian_length in HH.
Qed.

Lemma one_dimensional_parameters_are_one_problem_witness :
  @numerical_hessian double_env unbounded_model sum_of_squares
    (Parameters1d [1; 1]%float) [] [] 2%float 5 None
  = @numerical_hessian double_env unbounded_model sum_of_squares
      (Parameters2d [[1; 1]]%float) [] [] 2%float 5 None
  ∧ length [[[2; 0]; [0; 2]]]%float = 1.
Proof.
  destruct (@one_dimensional_parameters_are_one_problem double_env unbounded_model
              sum_of_squares [1; 1]%float [] [] 2%float 5 None)
    as (_ & _ & _ & Hsame & Hone).
  split; [exact Hsame|].
  apply Hone. vm_compute. reflexivity.
Defined.

(** ** Part III: further properties of the two routines *)

(** *** The shape of the result *)

Lemma mset_shape (m : list (list float)) i j x :
  length <$> mset m i j x = length <$> m.
Proof.
  unfold mset. apply list_eq. intros k. rewrite !list_lookup_fmap.
  destruct (decide (k = i)) as [->|Hne].
  - rewrite list_lookup_alter_eq. destruct (m !! i); simpl; [|done].
    by rewrite length_insert.
  - by rewrite list_lookup_alter_ne.
Qed.

Lemma foldl_fill_entry_shape v cs : ∀ m0 k0 m k,
  foldl (fill_entry v) (Some (m0, k0)) cs = Some (m, k) →
  length <$> m = length <$> m0.
Proof.
  induction cs as [|c cs IH]; intros m0 k0 m k H; [by simplify_eq/=|].
  simpl in H. destruct (v !! k0) as [x|]; simpl in H;
    [|by rewrite foldl_fill_entry_None in H].
  rewrite (IH _ _ _ _ H). by rewrite !mset_shape.
Qed.

Lemma results_vector_to_matrix1_shape v p M :
  results_vector_to_matrix1 v p = Some M →
  length M = p ∧ Forall (λ row, length row = p) M.
Proof.
  rewrite results_vector_to_matrix1_coords. intros H.
  destruct (foldl _ _ _) as [[m k]|] eqn:Hfold; simplify_eq/=.
  apply foldl_fill_entry_shape in Hfold.
  assert (length <$> zeros2 p p = replicate p p) as Hz.
  { unfold zeros2. by rewrite fmap_replicate, length_replicate. }
  rewrite Hz in Hfold. split.
  - by rewrite <- (length_fmap length), Hfold, length_replicate.
  - apply Forall_forall. intros row Hin.
    assert (length row ∈ length <$> M) as Hl by (by apply list_elem_of_fmap_2).
    rewrite Hfold in Hl. by apply elem_of_replicate in Hl as [? _].
Qed.

Lemma finalize_derivatives_shape model p derivatives H :
  finalize_derivatives model p derivatives = Some H →
  Forall (λ M, length M = p ∧ Forall (λ row, length row = p) M) H.
Proof.
  unfold finalize_derivatives, _results_vector_to_matrix. intros HH.
  destruct (mapM _ derivatives) as [matrices|] eqn:Hm; simplify_eq/=.
  case_guard as Hs; simplify_eq/=.
  apply mapM_Some in Hm. apply Forall_fmap, Forall_forall. intros M HM.
  apply list_elem_of_lookup in HM as [k HM].
  destruct (Forall2_lookup_r _ _ _ _ _ Hm HM) as (v & _ & Hv).
  apply results_vector_to_matrix1_shape in Hv as [HlM Hrows]. simpl.
  assert (length (np_outer (numdiff_get_scaling_factors model)
                           (numdiff_get_scaling_factors model))
          = length (numdiff_get_scaling_factors model)) as Ho
    by (unfold np_outer; by rewrite length_map).
  split.
  - rewrite length_zip_with. lia.
  - apply Forall_forall. intros row Hrow.
    apply list_elem_of_lookup in Hrow as [i Hrow].
    apply lookup_zip_with_Some in Hrow as (r1 & r2 & -> & Hr1 & Hr2).
    rewrite length_zip_with.
    assert (length r1 = length (numdiff_get_scaling_factors model)) as -> by
      (by eapply (proj1 (Forall_forall _ _) Hrows), list_elem_of_lookup_2).
    unfold np_outer in Hr2. apply list_lookup_fmap_Some in Hr2 as (s & -> & _).
    rewrite length_map. lia.
Qed.

(** X1. For a model with one scaling factor for every parameter,
    [numerical_hessian] returns one matrix for every problem instance, and
    every one of them is square of the order of the number of parameters.
    (With another number of scaling factors the product of line 88 raises or
    is broadcast to another shape.) *)
Theorem numerical_hessian_shape `{env : CLEnvironment} model f parameters lb ub
    step_ratio nmr_steps step_offset H :
  length (numdiff_get_scaling_factors model) = nmr_columns (at_least_2d parameters) →
  numerical_hessian model f parameters lb ub step_ratio nmr_steps step_offset = Some H →
  length H = length (at_least_2d parameters)
  ∧ Forall (λ M, length M = nmr_columns (at_least_2d parameters)
                 ∧ Forall (λ row, length row = nmr_columns (at_least_2d parameters)) M) H.
Proof.
  intros _ HH. split; [by eapply numerical_hessian_length|].
  apply numerical_hessian_finalized in HH as [derivatives HH].
  by eapply finalize_derivatives_shape.
Qed.

Lemma numerical_hessian_shape_witness :
  ∃ H, @numerical_hessian double_env unbounded_model sum_of_squares
         (Parameters2d [[1; 1]; [2; 3]]%float) [] [] 2%float 5 None = Some H
       ∧ length H = 2
       ∧ Forall (λ M, length M = 2 ∧ Forall (λ row, length row = 2) M) H.
Proof.
  destruct (@numerical_hessian double_env unbounded_model sum_of_squares
              (Parameters2d [[1; 1]; [2; 3]]%float) [] [] 2%float 5 None) as [H|] eqn:HH;
    [|vm_compute in HH; discriminate].
  exists H. split; [done|].
  exact (@numerical_hessian_shape double_env unbounded_model sum_of_squares
           (Parameters2d [[1; 1]; [2; 3]]%float) [] [] 2%float 5 None H eq_refl HH).
Defined.

(** *** The vector of derivatives behind a matrix *)

Lemma foldl_fill_entry_Some_inv (v : vector) cs : ∀ m0 k0,
  is_Some (foldl (fill_entry v) (Some (m0, k0)) cs) →
  cs = [] ∨ k0 + length cs ≤ length v.
Proof.
  induction cs as [|c cs IH]; intros m0 k0 H; [by left|]. right.
  simpl in H. destruct (v !! k0) as [x|] eqn:Hx; simpl in H;
    [|rewrite foldl_fill_entry_None in H; by destruct H].
  apply lookup_lt_Some in Hx.
  destruct (IH _ _ H) as [->|Hle]; simpl; lia.
Qed.

(** X2. [_results_vector_to_matrix] reads the first [(p ** 2 - p) // 2 + p]
    elements of every vector: it returns exactly when every vector has that
    many elements, and raises its [IndexError] when one is shorter. *)
Theorem results_vector_to_matrix_needs_all_derivatives (vectors : list (list float)) p :
  is_Some (_results_vector_to_matrix vectors p)
  ↔ Forall (λ v, nmr_derivatives_of p ≤ length v) vectors.
Proof.
  unfold _results_vector_to_matrix. rewrite mapM_is_Some.
  apply Forall_iff. intros v. simpl. split.
  - rewrite results_vector_to_matrix1_coords, fmap_is_Some. intros H.
    apply foldl_fill_entry_Some_inv in H as [H|H].
    + rewrite <- length_coords, H. simpl. lia.
    + rewrite <- length_coords. lia.
  - apply results_vector_to_matrix1_is_Some.
Qed.

(** *** The reads of the Richardson kernels *)

Lemma buf_app_l (b after : list float) i : i < length b → buf (b ++ after) i = buf b i.
Proof. intros Hi. unfold buf. by apply app_nth1. Qed.

Lemma foldl_ext_in {A B} (f g : A → B → A) (l : list B) : ∀ a,
  (∀ acc x, x ∈ l → f acc x = g acc x) → foldl f a l = foldl g a l.
Proof.
  induction l as [|x l IH]; intros a Hfg; [done|]. simpl.
  rewrite Hfg by apply list_elem_of_here. apply IH.
  intros acc y Hy. apply Hfg. by apply list_elem_of_further.
Qed.

(** X3. In a run of [_richardson_extrapolation] and of [_wynn_extrapolate]
    the kernels read nothing outside of the slices of their entry: the
    convolution, the error estimate and the iterations of Wynn's algorithm
    give the same values whatever follows the [nmr_steps] derivatives and
    the [nmr_convolutions] extrapolations of the entry in the buffers. *)
Theorem richardson_kernels_read_inside `{env : CLEnvironment} (d : ndarray3) step_ratio r e :
  pinv_keeps_square →
  _richardson_extrapolation d step_ratio = Some (r, e) →
  (∃ coefficients,
     _get_richardson_coefficients step_ratio (shape2 d `min` 3 - 1) = Some coefficients
     ∧ ∀ derivatives extrapolations after after',
         length derivatives = shape2 d →
         length extrapolations = shape2 d + 2 - length coefficients →
         _apply_richardson_convolution (shape2 d) (shape2 d + 2 - length coefficients)
           coefficients (derivatives ++ after)
         = _apply_richardson_convolution (shape2 d) (shape2 d + 2 - length coefficients)
             coefficients derivatives
         ∧ _compute_richardson_errors (shape2 d) (shape2 d + 2 - length coefficients)
             coefficients (derivatives ++ after) (extrapolations ++ after')
           = _compute_richardson_errors (shape2 d) (shape2 d + 2 - length coefficients)
               coefficients derivatives extrapolations)
  ∧ (∀ w we, _wynn_extrapolate r = Some (w, we) →
       ∀ candidates after i,
         length candidates = shape2 r → i < shape2 r - 2 →
         wynn_step (candidates ++ after) i = wynn_step candidates i).
Proof.
  intros Hpinv Hr.
  assert (1 ≤ shape2 d) as Hn.
  { unfold _richardson_extrapolation in Hr. by case_guard; simplify_eq/=. }
  destruct (richardson_coefficients_length step_ratio (shape2 d `min` 3 - 1) Hpinv)
    as (coefficients & Hc & Hlen).
  split.
  - exists coefficients. split; [done|].
    intros derivatives extrapolations after after' Hd He. split.
    + unfold _apply_richardson_convolution. apply list_fmap_ext.
      intros k step_ind [-> Hs]%lookup_seq. apply foldl_ext_in.
      intros acc kernel_ind [_ Hk]%elem_of_seq.
      rewrite buf_app_l; [done|]. rewrite Hd. unfold reflect. case_decide; lia.
    + unfold _compute_richardson_errors. apply list_fmap_ext.
      intros k conv_ind [-> Hci]%lookup_seq.
      rewrite !(buf_app_l extrapolations) by lia.
      by rewrite (buf_app_l derivatives) by lia.
  - intros w we Hw candidates after i Hcand Hi. unfold wynn_step.
    by rewrite !buf_app_l by lia.
Qed.

Lemma richardson_kernels_read_inside_witness :
  ∃ r e coefficients,
    @_richardson_extrapolation double_env seven_steps 2%float = Some (r, e)
    ∧ @_get_richardson_coefficients double_env 2%float 2 = Some coefficients
    ∧ _apply_richardson_convolution 7 (7 + 2 - length coefficients) coefficients
        ([2.5; 2.125; 2.0625; 2.03125; 2; 2.25; 1.75] ++ [1000; 2000])%float
      = _apply_richardson_convolution 7 (7 + 2 - length coefficients) coefficients
          [2.5; 2.125; 2.0625; 2.03125; 2; 2.25; 1.75]%float
    ∧ @wynn_step double_env ([3; 1.5; 1.75; 2; 2.5] ++ [1000])%float 2
      = @wynn_step double_env [3; 1.5; 1.75; 2; 2.5]%float 2.
Proof.
  destruct (@_richardson_extrapolation double_env seven_steps 2%float) as [[r e]|] eqn:Hr;
    [|vm_compute in Hr; discriminate].
  destruct (@richardson_kernels_read_inside double_env seven_steps 2%float r e
              double_env_pinv_keeps_square Hr) as [(coefficients & Hc & Hread) Hwynn].
  exists r, e, coefficients. split; [done|]. split; [exact Hc|].
  assert (length coefficients = 3) as Hlen.
  { vm_compute in Hc. by injection Hc as <-. }
  split.
  - destruct (Hread [2.5; 2.125; 2.0625; 2.03125; 2; 2.25; 1.75]%float
                (replicate (7 + 2 - length coefficients) 0%float)
                [1000; 2000]%float []) as [Hconv _];
      [reflexivity|by rewrite length_replicate|exact Hconv].
  - assert (shape2 r = 5) as Hs.
    { vm_compute in Hr. by injection Hr as <- _. }
    destruct (@_wynn_extrapolate double_env r) as [[w we]|] eqn:Hw.
    + apply (Hwynn w we eq_refl); [by rewrite Hs|rewrite Hs; simpl; lia].
    + unfold _wynn_extrapolate in Hw. rewrite Hs in Hw. vm_compute in Hw. discriminate.
Defined.

(** *** The initial step and the maximal step *)

Lemma np_minimum_le_r a m :
  is_nan (np_minimum a m) = false → (np_minimum a m <=? m)%float = true.
Proof.
  unfold np_minimum. destruct (a <=? m)%float eqn:Ham; simpl; [done|].
  destruct (is_nan a) eqn:Ha; [congruence|]. apply float_leb_refl.
Qed.

(** X4. An initial step that [_get_initial_step_size] returns and that is a
    number is at most the maximal step of its parameter. *)
Theorem initial_step_never_exceeds_max_step model (parameters : list (list float))
    lb ub steps k ind x :
  _get_initial_step_size model parameters lb ub = Some steps →
  ind < nmr_columns parameters →
  mget parameters k ind = Some x →
  ∃ max_step s,
    numdiff_get_max_step model !! ind = Some max_step
    ∧ mget steps k ind = Some s
    ∧ (is_nan s = false → (s <=? max_step)%float = true).
Proof.
  unfold _get_initial_step_size. intros Hsteps Hind Hx.
  destruct (initial_step_loop _ _ _ _ _ _ _ (NoDup_seq 0 _) Hsteps)
    as (_ & _ & Hcols); [by rewrite length_map|].
  destruct (Hcols ind) as (col & Hcol & Hspec); [apply elem_of_seq; lia|].
  destruct (initial_step_column_lookup _ _ _ _ _ _ _ _ Hcol Hx)
    as (ms & ubd & Hms & Hubd & Hk).
  assert (mget steps k ind = col !! k) as Hget.
  { unfold mget in Hx. destruct (parameters !! k) as [row|] eqn:Hrow; simplify_eq/=.
    apply (Hspec k (map (λ _, 0%float) row)).
    - by rewrite list_lookup_fmap, Hrow.
    - rewrite length_map. by eapply lookup_lt_Some. }
  exists ms. destruct ubd.
  - destruct Hk as (ul & uu & sc & _ & _ & _ & l & u & _ & _ & Hk).
    eexists. split; [done|]. split; [by rewrite Hget|]. apply np_minimum_le_r.
  - exists ms. split; [done|]. split; [by rewrite Hget|]. apply float_leb_refl.
Qed.

Lemma initial_step_never_exceeds_max_step_witness :
  ∃ steps s,
    _get_initial_step_size bounded_model [[1; 1; 1; 1]; [1; 1; 1; 1]]%float
      example_lower_bounds example_upper_bounds = Some steps
    ∧ mget steps 0 2 = Some s ∧ (s <=? 1)%float = true.
Proof.
  destruct (_get_initial_step_size bounded_model [[1; 1; 1; 1]; [1; 1; 1; 1]]%float
              example_lower_bounds example_upper_bounds) as [steps|] eqn:Hs;
    [|vm_compute in Hs; discriminate].
  destruct (initial_step_never_exceeds_max_step bounded_model _ _ _ steps 0 2 1%float Hs)
    as (ms & s & Hms & Hget & Hle); [simpl; lia|reflexivity|].
  exists steps, s. split; [done|]. split; [done|].
  vm_compute in Hms. injection Hms as <-.
  apply Hle. vm_compute in Hs. injection Hs as <-. vm_compute in Hget.
  injection Hget as <-. reflexivity.
Defined.

(** *** The search for the first step in the older kernel *)

Lemma halve_first_step_keeps_found `{env : CLEnvironment} (m : Mapping.model) problem_id
    x_input param_ind l : ∀ first_step step_sizes,
  (foldl (Mapping.halve_first_step m problem_id x_input param_ind)
         (first_step, true, step_sizes) l).1.2 = true.
Proof.
  induction l as [|i l IH]; intros first_step step_sizes; [done|].
  simpl. destruct (Mapping.numdiff_get_bound_check_function _ _ _ _ _); apply IH.
Qed.

Lemma generate_grid_points_loop_true `{env : CLEnvironment} (m : Mapping.model)
    problem_id nmr_params nmr_steps step_ratio x_input params : ∀ step_sizes,
  (Mapping.generate_grid_points_loop m problem_id nmr_params nmr_steps step_ratio
     x_input params true step_sizes).1 = true.
Proof.
  induction params as [|param_ind params IH]; intros step_sizes; [done|].
  cbn -[foldl seq].
  pose proof (halve_first_step_keeps_found m problem_id x_input param_ind (seq 0 10)
                (to_mot_float_type (buf (Mapping.numdiff_get_max_step m) param_ind))
                step_sizes) as Hfound.
  destruct (foldl _ _ (seq 0 10)) as [[first_step found] sizes].
  cbn -[foldl seq] in Hfound. subst found. cbn -[foldl seq]. apply IH.
Qed.

(** X6. [_generate_grid_points] of the older kernel returns [true] on every
    input, also when no halving of the maximal step passes the bound check:
    [first_step_found] starts as [true] and nothing resets it. So the kernel,
    once the initial point is within bounds, always goes on to write the
    steps, the step evaluates and their convolution. *)
Theorem generate_grid_points_never_fails `{env : CLEnvironment} (m : Mapping.model)
    problem_id nmr_params nmr_steps step_ratio rules (parameters : list float) b :
  (∀ x_input step_sizes,
     (Mapping._generate_grid_points m problem_id nmr_params nmr_steps step_ratio
        x_input step_sizes).1 = true)
  ∧ (Mapping._initial_point_within_bounds m problem_id nmr_steps
       (map to_mot_float_type parameters) = true →
     Mapping.steps (Mapping.compute m problem_id nmr_params nmr_steps step_ratio rules
                      parameters b)
     = (Mapping._generate_grid_points m problem_id nmr_params nmr_steps step_ratio
          (map to_mot_float_type parameters) (Mapping.steps b)).2
     ∧ Mapping.step_evaluates_convoluted
         (Mapping.compute m problem_id nmr_params nmr_steps step_ratio rules parameters b)
       = Mapping._apply_richardson_convolution nmr_params nmr_steps rules
           (Mapping.step_evaluates
              (Mapping.compute m problem_id nmr_params nmr_steps step_ratio rules
                 parameters b))
           (Mapping.step_evaluates_convoluted b)).
Proof.
  split.
  - intros x_input step_sizes. apply generate_grid_points_loop_true.
  - intros Hin. unfold Mapping.compute. rewrite Hin. simpl.
    pose proof (generate_grid_points_loop_true m problem_id nmr_params nmr_steps step_ratio
                  (map to_mot_float_type parameters)
                  (seq 0 nmr_params) (Mapping.steps b)) as Htrue.
    unfold Mapping._generate_grid_points.
    destruct (Mapping.generate_grid_points_loop _ _ _ _ _ _ _ _ _) as [within steps'].
    simpl in Htrue. subst within. done.
Qed.

(** *** The position of the smallest error *)

(** X8. [_get_arg_min] of the older routine catches the [ValueError] of
    [np.nanargmin] for the whole array: when the errors of one entry are all
    NaN, the first candidate is taken for every entry, whatever the errors
    of the other entries are. *)
Theorem get_arg_min_falls_back_for_every_entry (errors : list (list float)) i col :
  i < nmr_columns errors →
  column errors i = Some col → forallb is_nan col = true →
  Mapping._get_arg_min errors = Some (seq 0 (nmr_columns errors)).
Proof.
  intros Hi Hcol Hnan. unfold Mapping._get_arg_min.
  destruct (mapM _ _) as [l|] eqn:Hm; [|done]. exfalso.
  apply mapM_Some in Hm.
  destruct (Forall2_lookup_l _ _ _ i i Hm) as (k & _ & Hk).
  { by apply lookup_seq. }
  simpl in Hk. rewrite Hcol in Hk. simpl in Hk.
  unfold np_nanargmin in Hk. by rewrite Hnan in Hk.
Qed.

Lemma get_arg_min_falls_back_for_every_entry_witness :
  Mapping._get_arg_min [[nan; 3]; [nan; 1]; [nan; 2]]%float = Some [0; 1].
Proof.
  apply (get_arg_min_falls_back_for_every_entry
           [[nan; 3]; [nan; 1]; [nan; 2]]%float 0 [nan; nan; nan]%float);
    [simpl; lia|reflexivity|reflexivity].
Defined.

Lemma np_fmin_cases a b :
  is_nan a = false →
  is_nan (Mapping.np_fmin a b) = false
  ∧ (Mapping.np_fmin a b <=? a)%float = true
  ∧ (is_nan b = false → (Mapping.np_fmin a b <=? b)%float = true)
  ∧ (Mapping.np_fmin a b = a ∨ Mapping.np_fmin a b = b).
Proof.
  intros Ha. unfold Mapping.np_fmin.
  destruct (a <=? b)%float eqn:Hab; simpl.
  { split_and!; [done|by apply float_leb_refl|done|by left]. }
  destruct (is_nan b) eqn:Hb.
  { split_and!; [done|by apply float_leb_refl|done|by left]. }
  split_and!; [done|by apply float_leb_total|intros _; by apply float_leb_refl|by right].
Qed.

Lemma foldl_np_fmin_spec rest : ∀ acc,
  is_nan acc = false →
  is_nan (foldl Mapping.np_fmin acc rest) = false
  ∧ (foldl Mapping.np_fmin acc rest <=? acc)%float = true
  ∧ (∀ w, w ∈ rest → is_nan w = false → (foldl Mapping.np_fmin acc rest <=? w)%float = true)
  ∧ foldl Mapping.np_fmin acc rest ∈ acc :: rest.
Proof.
  induction rest as [|b rest IH]; intros acc Hacc.
  { simpl. split_and!; [done|by apply float_leb_refl| |by left].
    intros w Hw. by apply elem_of_nil in Hw. }
  simpl. destruct (np_fmin_cases acc b Hacc) as (Hn & Hle & Hleb & Hor).
  destruct (IH _ Hn) as (IHn & IHle & IHrest & IHin).
  split_and!; [done|by eapply float_leb_trans| |].
  - intros w [->|Hw]%elem_of_cons Hnw; [|by apply IHrest].
    eapply float_leb_trans; [done|by apply Hleb].
  - apply elem_of_cons in IHin as [->|Hin].
    + destruct Hor as [->| ->]; [by left|right; by left].
    + right. by right.
Qed.

Lemma foldl_np_fmin_nan rest : ∀ acc,
  is_nan acc = true → forallb is_nan rest = false →
  is_nan (foldl Mapping.np_fmin acc rest) = false
  ∧ foldl Mapping.np_fmin acc rest ∈ rest
  ∧ ∀ w, w ∈ rest → is_nan w = false → (foldl Mapping.np_fmin acc rest <=? w)%float = true.
Proof.
  induction rest as [|b rest IH]; intros acc Hacc Hall; [done|].
  simpl. unfold Mapping.np_fmin at 2 4 6.
  assert ((acc <=? b)%float = false) as ->.
  { destruct (acc <=? b)%float eqn:Hab; [|done].
    apply float_leb_not_nan in Hab as [? _]. congruence. }
  simpl in *. destruct (is_nan b) eqn:Hb; simpl in *.
  - destruct (IH acc Hacc Hall) as (Hn & Hin & Hle). split_and!; [done|by right|].
    intros w [->|Hw]%elem_of_cons Hnw; [congruence|by apply Hle].
  - destruct (foldl_np_fmin_spec rest b Hb) as (Hn & Hle & Hrest & Hin).
    split_and!; [done|done|].
    intros w [->|Hw]%elem_of_cons Hnw; [done|by apply Hrest].
Qed.

Lemma np_nanmin_spec (a : list float) :
  forallb is_nan a = false →
  is_nan (Mapping.np_nanmin a) = false
  ∧ Mapping.np_nanmin a ∈ a
  ∧ ∀ w, w ∈ a → is_nan w = false → (Mapping.np_nanmin a <=? w)%float = true.
Proof.
  destruct a as [|x a]; [done|]. simpl. intros Hall.
  destruct (is_nan x) eqn:Hx; simpl in Hall.
  - destruct (foldl_np_fmin_nan a x Hx Hall) as (Hn & Hin & Hle).
    split_and!; [done|by right|].
    intros w [->|Hw]%elem_of_cons Hnw; [congruence|by apply Hle].
  - destruct (foldl_np_fmin_spec a x Hx) as (Hn & Hle & Hrest & Hin).
    split_and!; [done|done|].
    intros w [->|Hw]%elem_of_cons Hnw; [done|by apply Hrest].
Qed.

Lemma elem_of_flatnonzero_eq (a : list float) x k :
  k ∈ Mapping.flatnonzero_eq a x ↔ ∃ v, a !! k = Some v ∧ (v =? x)%float = true.
Proof.
  unfold Mapping.flatnonzero_eq. rewrite list_elem_of_omap. split.
  - intros ([j v] & Hin & Hv). apply list_elem_of_lookup in Hin as [i Hin].
    apply list_lookup_imap_Some in Hin as (v' & Hv' & Heq).
    injection Heq as -> ->.
    destruct (v' =? x)%float eqn:He; simplify_eq. by exists v'.
  - intros (v & Hv & He). exists (k, v). split.
    + apply list_elem_of_lookup. exists k. apply list_lookup_imap_Some. by exists v.
    + by rewrite He.
Qed.

Lemma flatnonzero_eq_sorted (a : list float) x :
  StronglySorted lt (Mapping.flatnonzero_eq a x).
Proof.
  unfold Mapping.flatnonzero_eq.
  assert (∀ g : nat → nat, (∀ i j, i < j → g i < g j) →
    StronglySorted lt
      (omap (λ '(k, v), if (v =? x)%float then Some k else None)
            (imap (λ i, pair (g i)) a))) as H.
  { induction a as [|v a IH]; intros g Hg; [constructor|].
    simpl. specialize (IH (g ∘ S)).
    destruct (v =? x)%float.
    - constructor; [apply IH; intros i j Hij; apply Hg; lia|].
      apply Forall_forall. intros k Hk.
      apply list_elem_of_omap in Hk as ([j w] & Hin & Hw).
      apply list_elem_of_lookup in Hin as [i Hin].
      apply list_lookup_imap_Some in Hin as (w' & _ & Heq).
      injection Heq as -> ->.
      destruct (w' =? x)%float; simplify_eq. simpl. apply Hg. lia.
    - apply IH. intros i j Hij. apply Hg. lia. }
  apply (H id). intros i j Hij. done.
Qed.

(** X9. For the errors of an entry that are not all NaN, the loop body of
    [_get_arg_min] returns a position of the smallest error: [np.nanmin] is
    a number, at most every error that is a number, and the position
    returned is the middle one ([idx[idx.size // 2]]) of the positions, in
    increasing order, whose error equals it. *)
Theorem arg_min_of_entry_takes_a_smallest_error (errors_i : list float) :
  forallb is_nan errors_i = false →
  ∃ k v ties,
    Mapping.arg_min_of_entry errors_i = Some k
    ∧ errors_i !! k = Some v
    ∧ (v =? Mapping.np_nanmin errors_i)%float = true
    ∧ is_nan (Mapping.np_nanmin errors_i) = false
    ∧ (∀ j w, errors_i !! j = Some w → is_nan w = false →
              (Mapping.np_nanmin errors_i <=? w)%float = true)
    ∧ StronglySorted lt ties
    ∧ (∀ j, j ∈ ties ↔ ∃ w, errors_i !! j = Some w
                            ∧ (w =? Mapping.np_nanmin errors_i)%float = true)
    ∧ ties !! (length ties `div` 2) = Some k.
Proof.
  intros Hall. destruct (np_nanmin_spec errors_i Hall) as (Hn & Hin & Hle).
  unfold Mapping.arg_min_of_entry.
  set (min_error := Mapping.np_nanmin errors_i) in *.
  set (idx := Mapping.flatnonzero_eq errors_i min_error).
  assert ((min_error =? min_error)%float = true) as Hrefl.
  { unfold is_nan in Hn. by apply negb_false_iff in Hn. }
  assert (0 < length idx) as Hlen.
  { apply list_elem_of_lookup in Hin as [j Hj].
    assert (j ∈ idx) as Hjin by (apply elem_of_flatnonzero_eq; by exists min_error).
    destruct idx; [by apply elem_of_nil in Hjin|simpl; lia]. }
  destruct (lookup_lt_is_Some_2 idx (length idx `div` 2)) as [k Hk].
  { apply Nat.div_lt; lia. }
  assert (k ∈ idx) as Hkin by (by eapply list_elem_of_lookup_2).
  apply elem_of_flatnonzero_eq in Hkin as (v & Hv & Hveq).
  exists k, v, idx. split_and!; try done.
  - intros j w Hw Hnw. apply Hle; [by eapply list_elem_of_lookup_2|done].
  - apply flatnonzero_eq_sorted.
  - intros j. apply elem_of_flatnonzero_eq.
Qed.

Lemma arg_min_of_entry_takes_a_smallest_error_witness :
  Mapping.arg_min_of_entry [3; 1; nan; 1; 2; 1]%float = Some 3
  ∧ Mapping.np_nanmin [3; 1; nan; 1; 2; 1]%float = 1%float.
Proof.
  destruct (arg_min_of_entry_takes_a_smallest_error [3; 1; nan; 1; 2; 1]%float eq_refl)
    as (k & v & ties & Hk & _).
  split; [|reflexivity].
  rewrite Hk. vm_compute in Hk. by injection Hk as <-.
Defined.

(** *** The buffer of the raw derivatives *)

Lemma initial_step_loop_is_Some model (parameters : list (list float)) lb ub inds : ∀ st0,
  Forall (λ ind, is_Some (initial_step_column model parameters lb ub ind)) inds →
  is_Some (foldl (λ acc ind,
                    initial_step ← acc;
                    col ← initial_step_column model parameters lb ub ind;
                    Some (set_column initial_step ind col))
                 (Some st0) inds).
Proof.
  induction inds as [|ind inds IH]; intros st0 Hall; [by eexists|].
  apply Forall_cons in Hall as [[col Hcol] Hall]. simpl. rewrite Hcol. simpl.
  by apply IH.
Qed.

Lemma initial_step_size_without_bounds model (parameters : list (list float)) lb ub :
  nmr_columns parameters ≤ length (numdiff_get_max_step model) →
  (∀ ind, ind < nmr_columns parameters → numdiff_use_bounds model !! ind = Some false) →
  is_Some (_get_initial_step_size model parameters lb ub).
Proof.
  intros Hmax Hub. unfold _get_initial_step_size. apply initial_step_loop_is_Some.
  apply Forall_forall. intros ind Hind. apply elem_of_seq in Hind.
  unfold initial_step_column.
  destruct (lookup_lt_is_Some_2 (numdiff_get_max_step model) ind) as [ms ->]; [lia|].
  simpl. rewrite Hub by lia. simpl. by eexists.
Qed.

Lemma compute_derivatives_well_shaped `{env : CLEnvironment} model f
    (parameters : list (list float)) step_ratio step_offset nmr_steps lb ub raw :
  _compute_derivatives model f parameters step_ratio step_offset nmr_steps lb ub = Some raw →
  (shape0 raw, shape1 raw, shape2 raw)
  = (length parameters, nmr_derivatives_of (nmr_columns parameters), nmr_steps)
  ∧ well_shaped raw.
Proof.
  intros Hraw. pose proof (compute_derivatives_length _ _ _ _ _ _ _ _ _ Hraw) as Hlen.
  unfold _compute_derivatives in Hraw.
  destruct (_get_initial_step_size _ _ _ _) as [st0|]; simplify_eq/=.
  destruct (offset_initial_step _ _ _) as [st|]; simplify_eq/=.
  split; [done|]. split; [done|]. simpl.
  apply Forall_forall. intros plane Hplane.
  apply list_elem_of_lookup in Hplane as [k Hplane].
  apply list_lookup_imap_Some in Hplane as ([x h] & _ & ->).
  unfold derivation_kernel. rewrite length_map, length_coords. split; [done|].
  apply Forall_fmap, Forall_forall. intros [px py] _. simpl.
  by rewrite length_map, length_seq.
Qed.

(** X10. The array [_compute_derivatives] returns has the shape of the
    buffer it allocates, [(nmr_problems, (p ** 2 - p) // 2 + p, nmr_steps)],
    and the kernel has filled it: one row of [nmr_steps] values for every
    entry of the coordinate table, of which there are as many as the
    formula says. *)
Theorem compute_derivatives_fills_its_buffer `{env : CLEnvironment} model f
    (parameters : list (list float)) step_ratio step_offset nmr_steps lb ub raw :
  _compute_derivatives model f parameters step_ratio step_offset nmr_steps lb ub = Some raw →
  (shape0 raw, shape1 raw, shape2 raw)
  = (length parameters,
     (nmr_columns parameters ^ 2 - nmr_columns parameters) `div` 2 + nmr_columns parameters,
     nmr_steps)
  ∧ well_shaped raw.
Proof.
  intros Hraw.
  destruct (compute_derivatives_well_shaped _ _ _ _ _ _ _ _ _ Hraw) as [Hshape Hws].
  by split.
Qed.

Lemma compute_derivatives_fills_its_buffer_witness :
  ∃ raw,
    @_compute_derivatives double_env unbounded_model sum_of_squares
      [[1; 1]; [2; 3]]%float 2%float None 4 [] [] = Some raw
    ∧ (shape0 raw, shape1 raw, shape2 raw) = (2, 3, 4)
    ∧ well_shaped raw.
Proof.
  destruct (@_compute_derivatives double_env unbounded_model sum_of_squares
              [[1; 1]; [2; 3]]%float 2%float None 4 [] []) as [raw|] eqn:Hraw;
    [|vm_compute in Hraw; discriminate].
  exists raw. split; [done|].
  exact (@compute_derivatives_fills_its_buffer double_env _ _ _ _ _ _ _ _ _ Hraw).
Defined.

(** *** Where [numerical_hessian] can raise *)

Lemma well_shaped_map (a : ndarray3) (g : list float → list float) n :
  well_shaped a → (∀ row, length row = shape2 a → length (g row) = n) →
  well_shaped (Ndarray3 (shape0 a) (shape1 a) n (map (map g) (data a))).
Proof.
  intros [Hlen Hplanes] Hg. split; simpl; [by rewrite length_map|].
  apply Forall_fmap. eapply Forall_impl; [exact Hplanes|].
  intros plane [Hp Hrows]. simpl. rewrite length_map. split; [done|].
  apply Forall_fmap. eapply Forall_impl; [exact Hrows|]. intros row Hrow. by apply Hg.
Qed.

Lemma richardson_well_shaped `{env : CLEnvironment} (d : ndarray3) step_ratio r e :
  well_shaped d → _richardson_extrapolation d step_ratio = Some (r, e) →
  well_shaped r ∧ well_shaped e
  ∧ (shape0 r, shape1 r) = (shape0 d, shape1 d)
  ∧ (shape0 e, shape1 e, shape2 e) = (shape0 d, shape1 d, shape2 r).
Proof.
  intros Hd Hr. unfold _richardson_extrapolation in Hr.
  case_guard; simplify_eq/=.
  destruct (_get_richardson_coefficients _ _) as [cs|]; simplify_eq/=.
  case_guard; simplify_eq/=.
  split_and!.
  - unfold take_last_axis.
    apply (well_shaped_map
             (Ndarray3 (shape0 d) (shape1 d) (shape2 d + 2 - length cs)
                (map (map (_apply_richardson_convolution (shape2 d)
                             (shape2 d + 2 - length cs) cs)) (data d)))).
    + apply (well_shaped_map d); [done|]. intros row _.
      unfold _apply_richardson_convolution. by rewrite length_map, length_seq.
    + simpl. intros row Hrow. rewrite length_take. lia.
  - apply (well_shaped_map d); [done|]. intros row _.
    unfold _compute_richardson_errors. by rewrite length_map, length_seq.
  - done.
  - simpl. f_equal. lia.
Qed.

Lemma wynn_well_shaped `{env : CLEnvironment} (a w we : ndarray3) :
  well_shaped a → _wynn_extrapolate a = Some (w, we) →
  well_shaped w ∧ well_shaped we
  ∧ (shape0 w, shape1 w, shape2 w) = (shape0 a, shape1 a, shape2 a - 2)
  ∧ (shape0 we, shape1 we, shape2 we) = (shape0 a, shape1 a, shape2 a - 2).
Proof.
  intros Ha Hw. unfold _wynn_extrapolate in Hw. case_guard; simplify_eq/=.
  split_and!; [| |done..];
    (apply (well_shaped_map a); [done|]; intros row _; by rewrite length_map, length_seq).
Qed.

Lemma take_first_rows (a : ndarray3) :
  well_shaped a → 1 ≤ shape2 a →
  ∃ m, take_first a = Some m ∧ Forall (λ v : list float, length v = shape1 a) m.
Proof.
  intros [_ Hplanes] Hn. unfold take_first.
  destruct (shape2 a) as [|n]; [lia|]. eexists. split; [done|].
  apply Forall_fmap. eapply Forall_impl; [exact Hplanes|].
  intros plane [Hp _]. simpl. by rewrite length_map.
Qed.

Lemma finalize_derivatives_is_Some model p (derivatives : list (list float)) :
  length (numdiff_get_scaling_factors model) = p →
  Forall (λ v, length v = nmr_derivatives_of p) derivatives →
  is_Some (finalize_derivatives model p derivatives).
Proof.
  intros Hs Hall. unfold finalize_derivatives, _results_vector_to_matrix.
  destruct (mapM _ derivatives) as [matrices|] eqn:Hm.
  - simpl. case_guard; simpl; [by eexists|done].
  - assert (is_Some (mapM (λ v, results_vector_to_matrix1 v p) derivatives)) as [? H].
    { apply mapM_is_Some. eapply Forall_impl; [exact Hall|]. intros v Hv. simpl.
      apply results_vector_to_matrix1_is_Some. by rewrite Hv. }
    congruence.
Qed.

Lemma set3_planes (a a' : ndarray3) i j k x :
  set3 a i j k x = Some a' → length <$> data a' = length <$> data a.
Proof.
  unfold set3. intros Ha.
  destruct (data a !! i) as [plane|] eqn:Hplane; simplify_eq/=.
  destruct (plane !! j) as [row|] eqn:Hrow; simplify_eq/=.
  case_guard; simplify_eq/=.
  apply list_eq. intros i'. rewrite !list_lookup_fmap, list_lookup_insert.
  case_decide as Hi; [|done]. destruct Hi as [<- _]. rewrite Hplane. simpl.
  by rewrite length_insert.
Qed.

Lemma set_first_candidates_planes x entries (a a' : ndarray3) :
  set_first_candidates x entries a = Some a' → length <$> data a' = length <$> data a.
Proof.
  unfold set_first_candidates. revert a.
  induction entries as [|[b c] entries IH]; intros a Ha; [by simplify_eq/=|].
  simpl in Ha. destruct (set3 a b c 0 x) as [a1|] eqn:Ha1;
    [|by rewrite foldl_set_first_candidates_None in Ha].
  rewrite (IH _ Ha). by eapply set3_planes.
Qed.

Lemma set_entries_shape x entries (m m' : list (list float)) :
  set_entries x entries m = Some m' → length <$> m' = length <$> m.
Proof.
  unfold set_entries. revert m. induction entries as [|[a b] entries IH]; intros m Hm.
  { simpl in Hm. by simplify_eq. }
  simpl in Hm. unfold set2 in Hm at 2.
  destruct (mget m a b); simpl in Hm; [|by rewrite foldl_set_entries_None in Hm].
  rewrite (IH _ Hm). unfold mset.
  apply list_eq. intros k. rewrite !list_lookup_fmap.
  destruct (decide (k = a)) as [->|Hne].
  - rewrite list_lookup_alter_eq. destruct (m !! a); simpl; [|done].
    by rewrite length_insert.
  - by rewrite list_lookup_alter_ne.
Qed.

Lemma run_median_outlier_extrapolation_rows `{env : CLEnvironment}
    (derivatives errors : ndarray3) r :
  well_shaped derivatives → well_shaped errors →
  shape1 errors = shape1 derivatives →
  run_median_outlier_extrapolation derivatives errors = Some r →
  Forall (λ v : list float, length v = shape1 derivatives) r.1.
Proof.
  intros [_ Hd] [_ He] Hs1. unfold run_median_outlier_extrapolation. intros Hrun.
  destruct (_median_outlier_extrapolation 0 1 _) as [o σ'] eqn:Hm. simpl in Hrun. subst o.
  eapply median_outlier_extrapolation_inv in Hm
    as (e0 & d0 & minpos & df0 & ef0 & He0 & Hd0 & _ & Hmin & Hdf0 & _ & Hdf & _);
    [|done|by rewrite lookup_insert_ne, lookup_insert_eq|by rewrite lookup_insert_eq].
  apply set_entries_shape in Hdf.
  apply set_first_candidates_planes in He0, Hd0.
  apply Forall_forall. intros v Hv.
  assert (length v ∈ length <$> r.1) as Hlv by (by apply list_elem_of_fmap_2).
  rewrite Hdf in Hlv. apply list_elem_of_fmap in Hlv as (mrow & -> & Hmrow).
  apply list_elem_of_lookup in Hmrow as [i Hmrow].
  unfold gather in Hdf0. apply mapM_Some in Hdf0.
  destruct (Forall2_lookup_r _ _ _ _ _ Hdf0 Hmrow) as ([plane pos] & Hz & Hrow).
  apply lookup_zip_with_Some in Hz as (? & ? & [= <- <-] & Hplane & Hpos).
  apply length_mapM in Hrow. rewrite length_zip_with in Hrow.
  apply mapM_Some in Hmin.
  destruct (Forall2_lookup_r _ _ _ _ _ Hmin Hpos) as (eplane & Heplane & Hmp).
  apply length_mapM in Hmp. simpl in Heplane.
  apply lookup_zip_with_Some in Heplane as (e0plane & pplane & -> & He0p & Hpp).
  rewrite list_lookup_fmap, Hplane in Hpp. simpl in Hpp. injection Hpp as <-.
  rewrite length_zip_with, length_map in Hmp.
  assert (length plane = shape1 derivatives) as Hlp.
  { assert (length plane ∈ length <$> data d0) as Hin
      by (apply list_elem_of_fmap_2; by eapply list_elem_of_lookup_2).
    rewrite Hd0 in Hin. apply list_elem_of_fmap in Hin as (pl & -> & Hpl).
    by apply (proj1 (Forall_forall _ _) Hd pl). }
  assert (length e0plane = shape1 derivatives) as Hle.
  { assert (length e0plane ∈ length <$> data e0) as Hin
      by (apply list_elem_of_fmap_2; by eapply list_elem_of_lookup_2).
    rewrite He0 in Hin. apply list_elem_of_fmap in Hin as (pl & -> & Hpl).
    rewrite <- Hs1. by apply (proj1 (Forall_forall _ _) He pl). }
  lia.
Qed.

Lemma offset_initial_step_is_Some `{env : CLEnvironment} step_ratio step_offset
    (initial_step : list (list float)) :
  (∀ off, step_offset = Some off → off ≠ 0%Z →
          is_Some (float_pow_int step_ratio (- off))) →
  is_Some (offset_initial_step step_ratio step_offset initial_step).
Proof.
  intros Hpow. unfold offset_initial_step.
  destruct step_offset as [off|]; [|by eexists].
  case_decide as Hoff; [by eexists|].
  destruct (Hpow off eq_refl Hoff) as [factor ->]. by eexists.
Qed.

(** X11. Where the kernels run and the pseudo inverse is returned, the
    Python code of [numerical_hessian] raises nowhere but in the selection.
    That is for at least one problem and one parameter, a model that uses
    no bounds and has a maximal step for every parameter and as many
    scalings as parameters, a step ratio that is finite and not zero, and a
    step offset for which [float(step_ratio) ** -step_offset] is computed.
    With one, two, three or five steps the routine then returns (with five
    the single value of Wynn's algorithm is the result), and with four steps
    or more than five it returns exactly when
    [_median_outlier_extrapolation] does on the candidates it is given. *)
Theorem numerical_hessian_fails_only_in_selection `{env : CLEnvironment} model f
    parameters lb ub step_ratio nmr_steps step_offset :
  pinv_keeps_square →
  is_finite step_ratio = true → (step_ratio =? 0)%float = false →
  (∀ off, step_offset = Some off → off ≠ 0%Z →
          is_Some (float_pow_int step_ratio (- off))) →
  1 ≤ length (at_least_2d parameters) →
  1 ≤ nmr_columns (at_least_2d parameters) →
  nmr_columns (at_least_2d parameters) ≤ length (numdiff_get_max_step model) →
  length (numdiff_get_scaling_factors model) = nmr_columns (at_least_2d parameters) →
  (∀ ind, ind < nmr_columns (at_least_2d parameters) →
          numdiff_use_bounds model !! ind = Some false) →
  1 ≤ nmr_steps →
  (nmr_steps ≤ 3 ∨ nmr_steps = 5 →
   is_Some (numerical_hessian model f parameters lb ub step_ratio nmr_steps step_offset))
  ∧ (nmr_steps = 4 ∨ 6 ≤ nmr_steps →
     ∃ raw candidates errors w we,
       _compute_derivatives model f (at_least_2d parameters) step_ratio step_offset
         nmr_steps lb ub = Some raw
       ∧ _richardson_extrapolation raw step_ratio = Some (candidates, errors)
       ∧ wynn_stage (candidates, errors) = Some (w, we)
       ∧ (is_Some (numerical_hessian model f parameters lb ub step_ratio nmr_steps
                     step_offset)
          ↔ is_Some (run_median_outlier_extrapolation w we))).
Proof.
  intros Hpinv _ _ Hpow _ _ Hmax Hscal Hub Hn.
  destruct (initial_step_size_without_bounds model (at_least_2d parameters) lb ub Hmax Hub)
    as [st Hst].
  destruct (offset_initial_step_is_Some step_ratio step_offset st Hpow) as [st' Hst'].
  destruct (_compute_derivatives model f (at_least_2d parameters) step_ratio step_offset
              nmr_steps lb ub) as [raw|] eqn:Hraw;
    [|unfold _compute_derivatives in Hraw; rewrite Hst in Hraw; simpl in Hraw;
      rewrite Hst' in Hraw; done].
  destruct (compute_derivatives_well_shaped _ _ _ _ _ _ _ _ _ Hraw) as [[= Hs0 Hs1 Hs2] Hws].
  destruct (richardson_shape raw step_ratio Hpinv)
    as (cs & c & ce & Hcs & Hlen & Hr & Hsc & Hsce & _); [lia|].
  destruct (richardson_well_shaped _ _ _ _ Hws Hr) as (Hwc & Hwce & [= Hc0 Hc1] & [= He0 He1 He2]).
  assert (∀ a : ndarray3, well_shaped a → shape1 a = shape1 raw → 1 ≤ shape2 a →
            is_Some (take_first a ≫= finalize_derivatives model
                                       (nmr_columns (at_least_2d parameters)))) as Hfirst.
  { intros a Ha Ha1 Ha2. destruct (take_first_rows a Ha Ha2) as (m & -> & Hm). simpl.
    apply finalize_derivatives_is_Some; [done|].
    eapply Forall_impl; [exact Hm|]. intros v Hv. simpl in Hv. congruence. }
  assert (numerical_hessian model f parameters lb ub step_ratio nmr_steps step_offset
          = if decide (nmr_steps = 1)
            then take_first raw ≫= finalize_derivatives model
                                     (nmr_columns (at_least_2d parameters))
            else if decide (nmr_steps ≤ 3)
            then take_first c ≫= finalize_derivatives model
                                   (nmr_columns (at_least_2d parameters))
            else wynn_stage (c, ce)
                   ≫= λ w, select_stage w
                             ≫= finalize_derivatives model
                                  (nmr_columns (at_least_2d parameters))) as Hrun.
  { unfold numerical_hessian. rewrite Hraw. simpl. case_decide; [done|].
    rewrite Hr. simpl. by case_decide. }
  split.
  - intros Hshort. rewrite Hrun.
    destruct (decide (nmr_steps = 1)); [apply Hfirst; [done|done|lia]|].
    destruct (decide (nmr_steps ≤ 3)); [apply Hfirst; [done|done|lia]|].
    assert (nmr_steps = 5) as -> by lia.
    destruct (wynn_shape c) as (w & we & Hw & Hsw & _); [lia|].
    destruct (wynn_well_shaped _ _ _ Hwc Hw) as (Hww & _ & [= Hw0 Hw1 Hw2] & _).
    unfold wynn_stage. rewrite decide_True by lia. rewrite Hw. simpl.
    unfold select_stage. rewrite decide_True by lia.
    apply Hfirst; [done|congruence|lia].
  - intros Hlong.
    assert (∃ w we, wynn_stage (c, ce) = Some (w, we)
                    ∧ well_shaped w ∧ well_shaped we
                    ∧ shape1 w = shape1 raw ∧ shape1 we = shape1 raw
                    ∧ shape2 w ≠ 1) as (w & we & Hw & Hww & Hwwe & Hw1 & Hwe1 & Hw2).
    { unfold wynn_stage. destruct (decide (2 < shape2 c)) as [Hd|Hd].
      - destruct (wynn_shape c) as (w & we & Hw & Hsw & _); [lia|].
        destruct (wynn_well_shaped _ _ _ Hwc Hw)
          as (Hww & Hwwe & [= Hw0 Hw1 Hw2] & [= Hx0 Hx1 Hx2]).
        exists w, we. split_and!; [done|done|done|congruence|congruence|lia].
      - exists c, ce. split_and!; [done|done|done|congruence|congruence|lia]. }
    exists raw, c, ce, w, we. split_and!; [done..|].
    rewrite Hrun. rewrite !decide_False by lia. rewrite Hw. simpl.
    unfold select_stage. rewrite decide_False by done.
    destruct (run_median_outlier_extrapolation w we) as [r|] eqn:Hsel; simpl.
    + split; [by eexists|]. intros _.
      apply finalize_derivatives_is_Some; [done|].
      pose proof (run_median_outlier_extrapolation_rows w we r Hww Hwwe
                    ltac:(congruence) Hsel) as Hrows.
      eapply Forall_impl; [exact Hrows|]. intros v Hv. simpl in Hv. congruence.
    + split; intros [? ?]; done.
Qed.

Lemma numerical_hessian_fails_only_in_selection_witness :
  is_Some (@numerical_hessian double_env unbounded_model sum_of_squares
             (Parameters1d [1; 1]%float) [] [] 2%float 5 None)
  ∧ is_Some (@numerical_hessian double_env unbounded_model sum_of_squares
               (Parameters1d [1; 1]%float) [] [] 2%float 3 (Some 1%Z)).
Proof.
  split.
  - apply (@numerical_hessian_fails_only_in_selection double_env unbounded_model
             sum_of_squares (Parameters1d [1; 1]%float) [] [] 2%float 5 None);
      [exact double_env_pinv_keeps_square|reflexivity|reflexivity|by intros off [=]
      |simpl; lia|simpl; lia|simpl; lia|reflexivity| |lia|by right].
    intros ind Hind. change (ind < 2) in Hind.
    destruct ind as [|[|ind]]; [reflexivity|reflexivity|lia].
  - apply (@numerical_hessian_fails_only_in_selection double_env unbounded_model
             sum_of_squares (Parameters1d [1; 1]%float) [] [] 2%float 3 (Some 1%Z));
      [exact double_env_pinv_keeps_square|reflexivity|reflexivity|
      |simpl; lia|simpl; lia|simpl; lia|reflexivity| |lia|left; lia].
    + intros off [= <-] _. vm_compute. by eexists.
    + intros ind Hind. change (ind < 2) in Hind.
      destruct ind as [|[|ind]]; [reflexivity|reflexivity|lia].
Defined.

(** *** The instance of X5 on the example arrays *)

Lemma selection_takes_first_smallest_error_witness :
  ∃ k,
    np_nanargmin [0.5; 0.25; 47.625]%float = Some k
    ∧ [2; 2.5; 50]%float !! k = Some 2.5%float
    ∧ [0.5; 0.25; 47.625]%float !! k = Some 0.25%float.
Proof.
  destruct example_store_lookups as [Hd He].
  destruct (@selection_takes_first_smallest_error double_env _ _ 0 1 example_candidates
              example_errors _ 0 1 2.5%float ltac:(done) Hd He example_selection_run)
    as (d' & e' & candidates & errors & k & v & Hd' & He' & Hc & Hr & Hk & Hx & Hv & Hm & _).
  { change (all_nan_entries example_errors) with [(0, 0)].
    intros [=]%list_elem_of_singleton. }
  { reflexivity. }
  rewrite lookup_insert_ne, lookup_insert_eq in Hd' by done.
  rewrite lookup_insert_eq in He'. injection Hd' as <-. injection He' as <-.
  vm_compute in Hc. injection Hc as <-. vm_compute in Hr. injection Hr as <-.
  exists k. split; [exact Hk|]. split; [exact Hx|].
  vm_compute in Hm. injection Hm as <-. exact Hv.
Defined.

(** *** More arithmetic of the doubles *)

Lemma shr_exact_52 (m : positive) (e : Z) :
  shr {| shr_m := Z.pos (Pos.iter xO m 52); shr_r := false; shr_s := false |} e 52
  = ({| shr_m := Z.pos m; shr_r := false; shr_s := false |}, (e + 52)%Z).
Proof. reflexivity. Qed.

Lemma digits2_shift_52 (m : positive) :
  Z.pos (digits2_pos (Pos.iter xO m 52)) = (Z.pos (digits2_pos m) + 52)%Z.
Proof.
  change (Pos.iter xO m 52) with
    (m~0~0~0~0~0~0~0~0~0~0~0~0~0~0~0~0~0~0~0~0~0~0~0~0~0~0~0~0~0~0~0~0~0~0~0~0~0~0~0~0~0~0~0~0~0~0~0~0~0~0~0~0)%positive.
  cbn [digits2_pos]. rewrite !Pos2Z.inj_succ. lia.
Qed.

Lemma mul_pow52 (m : positive) : (m * 4503599627370496)%positive = Pos.iter xO m 52.
Proof. rewrite Pos.mul_comm. reflexivity. Qed.

Lemma SFmul_1_r (x : spec_float) :
  valid_binary x = true →
  SF64mul x (S754_finite false 4503599627370496 (-52)) = x.
Proof.
  destruct x as [s|s| |s m e]; intros Hvalid; simpl;
    [by destruct s|by destruct s|done|].
  unfold SpecFloat.valid_binary, bounded, canonical_mantissa in Hvalid.
  apply andb_true_iff in Hvalid as [Hcanon Hbound].
  apply Z.eqb_eq in Hcanon.
  rewrite mul_pow52. unfold binary_round_aux, shr_fexp.
  unfold Zdigits2 at 1. rewrite digits2_shift_52.
  replace (Z.pos (digits2_pos m) + 52 + (e + -52))%Z
    with (Z.pos (digits2_pos m) + e)%Z by lia.
  rewrite Hcanon.
  replace (e - (e + -52))%Z with 52%Z by lia.
  unfold shr_record_of_loc. rewrite shr_exact_52.
  cbn [shr_m loc_of_shr_record round_nearest_even shr_r shr_s].
  replace (e + -52 + 52)%Z with e by lia.
  unfold Zdigits2. rewrite Hcanon, Z.sub_diag. cbn [shr shr_m].
  rewrite Hbound. by destruct s.
Qed.

Lemma float_mul_1_r (x : float) : (x * 1)%float = x.
Proof.
  apply Prim2SF_inj. rewrite mul_spec.
  change (Prim2SF 1) with (S754_finite false 4503599627370496 (-52)).
  apply SFmul_1_r, Prim2SF_valid.
Qed.

Lemma SFabs_compare_Eq (x y : spec_float) :
  SFcompare (SFabs x) (SFabs y) = Some Eq → SFabs x = SFabs y.
Proof.
  destruct x as [sx|sx| |sx mx ex], y as [sy|sy| |sy my ey]; simpl; try done.
  destruct (Z.compare_spec ex ey) as [->| |]; try done.
  rewrite Pos.compare_cont_spec. simpl.
  destruct (Pos.compare_spec mx my) as [->| |]; done.
Qed.

Lemma cl_max_abs_np_maximum (u v : float) :
  is_nan u = false → is_nan v = false →
  cl_max (abs u) (abs v) = Extrapolation.np_maximum (abs v) (abs u).
Proof.
  intros Hu Hv. unfold cl_max, Extrapolation.np_maximum.
  assert (is_nan (abs v) = false) as Hav.
  { apply is_nan_Prim2SF. rewrite abs_spec. apply is_nan_Prim2SF in Hv.
    by destruct (Prim2SF v). }
  assert (is_nan (abs u) = false) as Hau.
  { apply is_nan_Prim2SF. rewrite abs_spec. apply is_nan_Prim2SF in Hu.
    by destruct (Prim2SF u). }
  rewrite Hav, orb_false_r. rewrite ltb_spec, leb_spec. unfold SFltb, SFleb.
  destruct (SFcompare (Prim2SF (abs u)) (Prim2SF (abs v))) as [[| |]|] eqn:Hc; try done.
  apply Prim2SF_inj. rewrite !abs_spec in *. by apply SFabs_compare_Eq.
Qed.

Lemma cl_max_np_maximum (x y : float) :
  is_nan y = false → cl_max x y = Extrapolation.np_maximum x y.
Proof.
  intros Hy. unfold cl_max, Extrapolation.np_maximum.
  destruct (is_nan x) eqn:Hx.
  - rewrite orb_true_r.
    assert ((x <? y)%float = false) as ->; [|done].
    rewrite ltb_spec. unfold SFltb.
    assert (Prim2SF x = S754_nan) as ->; [|done].
    destruct (Prim2SF x) eqn:Hp; try done;
      assert (is_nan x = false) by (apply is_nan_Prim2SF; by rewrite Hp); congruence.
  - rewrite orb_false_r. destruct (y <=? x)%float eqn:Hyx.
    + assert ((x <? y)%float = false) as ->; [|done].
      rewrite ltb_spec. rewrite leb_spec in Hyx. unfold SFltb, SFleb in *.
      apply is_nan_Prim2SF in Hx, Hy.
      destruct (Prim2SF x) as [sx|sx| |sx mx ex], (Prim2SF y) as [sy|sy| |sy my ey];
        try done; simpl in *;
        repeat match goal with s : bool |- _ => destruct s end; try done;
        rewrite ?Pos.compare_cont_spec in *; simpl in *;
        destruct (Z.compare_spec ex ey), (Z.compare_spec ey ex); try lia; try done;
        subst; destruct (Pos.compare_spec mx my), (Pos.compare_spec my mx);
        try lia; try done.
    + pose proof (float_leb_total _ _ Hy Hx Hyx) as Hxy.
      assert ((x <? y)%float = true) as ->; [|done].
      rewrite ltb_spec. rewrite leb_spec in Hxy, Hyx. unfold SFltb, SFleb in *.
      destruct (SFcompare (Prim2SF x) (Prim2SF y)) as [[| |]|] eqn:Hc; try done.
      exfalso.
      apply is_nan_Prim2SF in Hx, Hy.
      destruct (Prim2SF x) as [sx|sx| |sx mx ex], (Prim2SF y) as [sy|sy| |sy my ey];
        try done; simpl in *;
        repeat match goal with s : bool |- _ => destruct s end; try done;
        rewrite ?Pos.compare_cont_spec in *; simpl in *;
        destruct (Z.compare_spec ex ey), (Z.compare_spec ey ex); try lia; try done;
        subst; destruct (Pos.compare_spec mx my), (Pos.compare_spec my mx);
        try lia; try done.
Qed.

Lemma is_nan_true (x : float) : is_nan x = true → x = nan.
Proof.
  intros Hx. apply Prim2SF_inj. change (Prim2SF nan) with S754_nan.
  destruct (Prim2SF x) eqn:Hp; try done;
    assert (is_nan x = false) by (apply is_nan_Prim2SF; by rewrite Hp); congruence.
Qed.

Lemma float_sub_nan_l x : (nan - x)%float = nan.
Proof. apply Prim2SF_inj. rewrite sub_spec. change (Prim2SF nan) with S754_nan. done. Qed.

Lemma float_sub_nan_r x : (x - nan)%float = nan.
Proof.
  apply Prim2SF_inj. rewrite sub_spec. change (Prim2SF nan) with S754_nan.
  by destruct (Prim2SF x).
Qed.

Lemma float_add_nan_l x : (nan + x)%float = nan.
Proof. apply Prim2SF_inj. rewrite add_spec. change (Prim2SF nan) with S754_nan. done. Qed.

Lemma float_add_nan_r x : (x + nan)%float = nan.
Proof.
  apply Prim2SF_inj. rewrite add_spec. change (Prim2SF nan) with S754_nan.
  by destruct (Prim2SF x).
Qed.

Lemma float_mul_nan_l x : (nan * x)%float = nan.
Proof. apply Prim2SF_inj. rewrite mul_spec. change (Prim2SF nan) with S754_nan. done. Qed.

Lemma float_mul_nan_r x : (x * nan)%float = nan.
Proof.
  apply Prim2SF_inj. rewrite mul_spec. change (Prim2SF nan) with S754_nan.
  by destruct (Prim2SF x).
Qed.

Lemma float_div_nan_r x : (x / nan)%float = nan.
Proof.
  apply Prim2SF_inj. rewrite div_spec. change (Prim2SF nan) with S754_nan.
  by destruct (Prim2SF x).
Qed.

Lemma float_abs_nan : abs nan = nan.
Proof. reflexivity. Qed.

Lemma float_leb_nan_l x : (nan <=? x)%float = false.
Proof. rewrite leb_spec. done. Qed.

Lemma float_ltb_nan_l x : (nan <? x)%float = false.
Proof. rewrite ltb_spec. done. Qed.

Lemma float_leb_nan_r x : (x <=? nan)%float = false.
Proof. rewrite leb_spec. change (Prim2SF nan) with S754_nan. by destruct (Prim2SF x). Qed.

Lemma float_ltb_nan_r x : (x <? nan)%float = false.
Proof. rewrite ltb_spec. change (Prim2SF nan) with S754_nan. by destruct (Prim2SF x). Qed.

Lemma SFabs_binary_round s s' m e :
  SFabs (binary_round prec emax s m e) = SFabs (binary_round prec emax s' m e).
Proof.
  unfold binary_round, binary_round_aux.
  destruct (shl_align m e _) as [mz ez].
  destruct (shr_fexp prec emax (Z.pos mz) ez loc_Exact) as [mrs' e'].
  destruct (shr_fexp prec emax _ e' loc_Exact) as [mrs'' e''].
  destruct (shr_m mrs''); try done. by destruct (_ <=? _)%Z.
Qed.

Lemma SFabs_sub_comm (x y : spec_float) :
  SFabs (SF64sub x y) = SFabs (SF64sub y x).
Proof.
  destruct x as [sx|sx| |sx mx ex], y as [sy|sy| |sy my ey]; simpl;
    try (by repeat match goal with s : bool |- _ => destruct s end).
  rewrite (Z.min_comm ey ex).
  set (a := cond_Zopp sx (Z.pos (shl_align mx ex (Z.min ex ey)).1)).
  set (b := cond_Zopp sy (Z.pos (shl_align my ey (Z.min ex ey)).1)).
  clearbody a b.
  assert (b - a = - (a - b))%Z as -> by lia.
  destruct (a - b)%Z as [|p|p]; simpl; [done|apply SFabs_binary_round..].
Qed.

Lemma float_abs_sub_comm (x y : float) : abs (x - y) = abs (y - x).
Proof. apply Prim2SF_inj. rewrite !abs_spec, !sub_spec. apply SFabs_sub_comm. Qed.

Lemma cl_max_abs_np_maximum' (u v : float) :
  is_nan v = false →
  cl_max (abs u) (abs v) = Extrapolation.np_maximum (abs v) (abs u).
Proof.
  intros Hv. destruct (is_nan u) eqn:Hu; [|by apply cl_max_abs_np_maximum].
  apply is_nan_true in Hu as ->. rewrite float_abs_nan.
  unfold cl_max, Extrapolation.np_maximum.
  rewrite float_ltb_nan_l, float_leb_nan_l. simpl.
  assert (is_nan (abs v) = false) as ->; [|done].
  apply is_nan_Prim2SF. rewrite abs_spec. apply is_nan_Prim2SF in Hv.
  by destruct (Prim2SF v).
Qed.

Ltac nan_simpl :=
  repeat first
    [ rewrite float_sub_nan_l | rewrite float_sub_nan_r
    | rewrite float_add_nan_l | rewrite float_add_nan_r
    | rewrite float_mul_nan_l | rewrite float_mul_nan_r
    | rewrite float_div_nan_r | rewrite float_abs_nan
    | rewrite float_leb_nan_l | rewrite float_ltb_nan_l
    | rewrite andb_false_r | rewrite andb_false_l
    | progress cbn [orb andb] ].

Lemma wynn_step_dea3_element `{env : CLEnvironment} (row : list float) i :
  MOT_EPSILON = Extrapolation.EPS → MOT_MIN = Extrapolation._TINY →
  wynn_step row i
  = Extrapolation.dea3_element (buf row i) (buf row (i + 1)) (buf row (i + 2)).
Proof.
  intros Heps Hmin. unfold wynn_step, Extrapolation.dea3_element.
  rewrite Heps, Hmin. unfold Extrapolation.max_abs.
  generalize (buf row i) (buf row (i + 1)) (buf row (i + 2)). intros v0 v1 v2.
  destruct (is_nan v1) eqn:H1.
  { apply is_nan_true in H1 as ->. nan_simpl. done. }
  destruct (is_nan v2) eqn:H2.
  { apply is_nan_true in H2 as ->. nan_simpl. done. }
  rewrite <- (cl_max_abs_np_maximum' v0 v1) by done.
  rewrite <- (cl_max_abs_np_maximum' v1 v2) by done.
  by rewrite float_mul_1_r.
Qed.

(** *** The columns of the older routine

    The older routine keeps the steps of one entry in a column of its
    arrays. *)

Lemma buf_lookup (row : list float) i x : row !! i = Some x → buf row i = x.
Proof. intros H. unfold buf. by apply nth_lookup_Some with (d := 0%float) in H. Qed.

Lemma lookup_buf (row : list float) i : i < length row → row !! i = Some (buf row i).
Proof.
  intros Hi. destruct (lookup_lt_is_Some_2 row i Hi) as [x Hx].
  by rewrite (buf_lookup _ _ _ Hx).
Qed.

Lemma map2_col {A B C} (f : A → B → C) (a : list A) (b : list B) :
  length a = length b →
  Extrapolation.map2 f (map (λ x, [x]) a) (map (λ x, [x]) b)
  = Some (map (λ x, [x]) (zip_with f a b)).
Proof.
  intros Hlen. unfold Extrapolation.map2. rewrite !length_map, decide_True by done.
  revert b Hlen. induction a as [|x a IH]; intros [|y b] Hlen; simplify_eq/=; [done|].
  by rewrite IH.
Qed.

Lemma map_map_col {A B} (f : A → B) (a : list A) :
  map (map f) (map (λ x, [x]) a) = map (λ x, [x]) (map f a).
Proof. rewrite <- !list_fmap_compose. done. Qed.

(** *** The Wynn kernel and [dea3] *)

Lemma windows_of_three {A} (g : float → float → float → A) (row : list float) :
  zip_with (λ e0 '(e1, e2), g e0 e1 e2)
           (take (length row - 2) row)
           (zip_with pair (drop 1 (take (length row - 1) row)) (drop 2 row))
  = map (λ i, g (buf row i) (buf row (i + 1)) (buf row (i + 2)))
        (seq 0 (length row - 2)).
Proof.
  apply list_eq. intros i.
  rewrite !lookup_zip_with, list_lookup_fmap, !lookup_drop.
  destruct (decide (i < length row - 2)) as [Hi|Hi].
  - rewrite lookup_seq_lt by done. rewrite !lookup_take_lt by lia.
    replace (1 + i) with (i + 1) by lia. replace (2 + i) with (i + 2) by lia.
    rewrite (lookup_buf row i) by lia. simpl.
    rewrite (lookup_buf row (i + 1)) by lia. simpl.
    rewrite (lookup_buf row (i + 2)) by lia. done.
  - rewrite lookup_seq_ge by lia. rewrite (lookup_take_ge row (length row - 2)) by lia. done.
Qed.

(** X12. The kernel of [_wynn_extrapolation_kernel] computes what [dea3] of
    the older routine computes. With the machine epsilon and the smallest
    normal double as the constants of the kernel, the extrapolations and
    the errors that [_wynn_extrapolate] stores for an entry are, as a
    column, the result of [Extrapolate._wynn_extrapolate] on the column of
    the steps of that entry, whatever the values are, NaN included. *)
Theorem wynn_kernel_computes_dea3 `{env : CLEnvironment} (a w we : ndarray3) i j row steps :
  MOT_EPSILON = Extrapolation.EPS → MOT_MIN = Extrapolation._TINY →
  _wynn_extrapolate a = Some (w, we) →
  row3 a i j = Some row → length row = shape2 a →
  ∃ extrapolations errors,
    row3 w i j = Some extrapolations ∧ row3 we i j = Some errors
    ∧ length extrapolations = shape2 a - 2
    ∧ Extrapolation._wynn_extrapolate (map (λ x, [x]) row) steps
      = Some (map (λ x, [x]) extrapolations, map (λ x, [x]) errors, drop 2 steps).
Proof.
  intros Heps Hmin Hw Hrow Hlen.
  unfold _wynn_extrapolate in Hw. case_guard as Hn; simplify_eq/=.
  unfold row3 in *. simpl. rewrite !list_lookup_fmap.
  destruct (data a !! i) as [plane|]; simplify_eq/=. rewrite !list_lookup_fmap, Hrow. simpl.
  eexists _, _. split; [done|]. split; [done|].
  split; [by rewrite length_map, length_seq|].
  unfold Extrapolation._wynn_extrapolate, Extrapolation.dea3.
  rewrite length_map, <- !fmap_take, <- !fmap_drop.
  rewrite map2_col by (rewrite !length_drop, !length_take; lia). cbn [mbind option_bind].
  rewrite map2_col by (rewrite length_zip_with, !length_drop, !length_take; lia).
  cbn [mbind option_bind andb]. rewrite windows_of_three, !map_map_col.
  rewrite Hlen, <- !list_fmap_compose.
  f_equal. f_equal. f_equal; apply list_fmap_ext; intros k idx Hk;
    apply lookup_seq in Hk as [-> Hk]; cbn [Nat.add compose];
    by rewrite <- wynn_step_dea3_element.
Qed.

Lemma wynn_kernel_computes_dea3_witness :
  ∃ w we extrapolations errors,
    @_wynn_extrapolate double_env seven_steps = Some (w, we)
    ∧ row3 w 0 0 = Some extrapolations ∧ row3 we 0 0 = Some errors
    ∧ length extrapolations = 7 - 2
    ∧ Extrapolation._wynn_extrapolate
        (map (λ x, [x]) [2.5; 2.125; 2.0625; 2.03125; 2; 2.25; 1.75]%float) []
      = Some (map (λ x, [x]) extrapolations, map (λ x, [x]) errors, drop 2 []).
Proof.
  destruct (@_wynn_extrapolate double_env seven_steps) as [[w we]|] eqn:Hw;
    [|vm_compute in Hw; discriminate].
  destruct (@wynn_kernel_computes_dea3 double_env seven_steps w we 0 0
              [2.5; 2.125; 2.0625; 2.03125; 2; 2.25; 1.75]%float []
              eq_refl eq_refl Hw eq_refl eq_refl)
    as (extrapolations & errors & H).
  by exists w, we, extrapolations, errors.
Defined.

(** *** The Richardson kernels and [Richardson] *)

Lemma rule_is_richardson_coefficients `{env : CLEnvironment} step_ratio ne :
  1 ≤ ne →
  Extrapolation.rule (Extrapolation.Build_Richardson step_ratio 2 2 2) (Some ne)
  = _get_richardson_coefficients step_ratio (ne `min` 3 - 1).
Proof.
  intros Hne. destruct ne as [|[|[|n]]]; [lia|reflexivity|reflexivity|].
  replace (S (S (S n)) `min` 3) with 3 by lia. reflexivity.
Qed.

Lemma richardson_fact_estimate_fact `{env : CLEnvironment} (cs : list float) :
  double_precision = true → MOT_EPSILON = Extrapolation.EPS →
  richardson_fact cs = Extrapolation.estimate_fact cs.
Proof.
  intros Hd Heps. unfold richardson_fact, Extrapolation.estimate_fact, to_mot_float_type.
  rewrite Hd, Heps. by apply cl_max_np_maximum.
Qed.

Lemma richardson_error_element (r0 r1 d fact eps : float) :
  (if (abs (r0 - r1) * fact <=? cl_max (abs r1) (abs r0) * eps * fact)%float
   then (abs (r0 - r1) * fact + cl_max (abs r1) (abs r0) * eps * fact * 10)%float
   else (abs (r0 - r1) * fact + abs (r0 - d) * fact)%float)
  = (abs (r1 - r0) * fact
     + (if (abs (r1 - r0) * fact
            <=? Extrapolation.max_abs r1 r0 * eps * fact)%float
        then Extrapolation.max_abs r1 r0 * eps * fact * 10
        else abs (r0 - d) * fact))%float.
Proof.
  unfold Extrapolation.max_abs.
  destruct (is_nan r0) eqn:H0.
  - apply is_nan_true in H0 as ->. nan_simpl. done.
  - rewrite (float_abs_sub_comm r1 r0).
    rewrite <- (cl_max_np_maximum (abs r1) (abs r0)).
    + by destruct (_ <=? _)%float.
    + apply is_nan_Prim2SF. rewrite abs_spec. apply is_nan_Prim2SF in H0.
      by destruct (Prim2SF r0).
Qed.

Lemma estimate_error_of_column `{env : CLEnvironment} (conv row : list float) steps cs :
  double_precision = true → MOT_EPSILON = Extrapolation.EPS →
  2 ≤ length conv → 2 ≤ length row → length conv ≤ length row + 1 →
  Extrapolation._estimate_error (map (λ x, [x]) conv) (map (λ x, [x]) row) steps cs
  = Some (map (λ x, [x])
              (_compute_richardson_errors (length row) (length conv) cs row conv)).
Proof.
  intros Hd Heps Hc Hr Hcr. unfold Extrapolation._estimate_error. rewrite !length_map.
  rewrite !decide_False by lia.
  unfold Extrapolation.np_diff, Extrapolation.py_last, Extrapolation.add_where.
  rewrite decide_False by lia.
  rewrite !length_map, <- !fmap_drop, <- !fmap_take.
  rewrite map2_col by (rewrite length_drop, length_take; lia). cbn [mbind option_bind].
  rewrite map2_col by (rewrite length_drop, length_take; lia). cbn [mbind option_bind].
  rewrite map2_col by (rewrite length_drop, length_take; lia). cbn [mbind option_bind].
  rewrite map_map_col.
  rewrite map2_col
    by (rewrite length_map, !length_zip_with, !length_drop, !length_take; lia).
  cbn [mbind option_bind].
  rewrite map2_col
    by (rewrite !length_zip_with, length_map, !length_zip_with, !length_drop,
          !length_take; lia).
  f_equal. f_equal. unfold _compute_richardson_errors.
  rewrite (richardson_fact_estimate_fact cs Hd Heps), Heps.
  set (fact := Extrapolation.estimate_fact cs).
  apply list_eq. intros c. rewrite !lookup_zip_with, !list_lookup_fmap, !lookup_zip_with.
  rewrite !lookup_drop.
  destruct (decide (c < length conv - 1)) as [Hlt|Hge].
  - rewrite lookup_seq_lt by done. rewrite !lookup_take_lt by lia. simpl.
    rewrite (lookup_buf conv (S c)) by lia. rewrite (lookup_buf conv c) by lia.
    rewrite (lookup_buf row (length row - (length conv - 1) + c)) by lia. simpl.
    f_equal.
    replace (c + 1) with (S c) by lia.
    replace (length row + 1 - length conv + c)
      with (length row - (length conv - 1) + c) by lia.
    symmetry. apply richardson_error_element.
  - rewrite lookup_seq_ge by lia. rewrite !lookup_take_ge by lia. simpl.
    by destruct (conv !! (S c)).
Qed.

Lemma py_take_nonneg {A} (m : nat) (l : list A) :
  Extrapolation.py_take (Z.of_nat m) l = take m l.
Proof.
  unfold Extrapolation.py_take. rewrite (proj2 (Z.leb_le 0 (Z.of_nat m))) by lia.
  by rewrite Nat2Z.id.
Qed.

(** X13. The candidates and the errors of [_richardson_extrapolation] are
    those of [Richardson.__call__]. For a derivative of at least two steps,
    in double precision, the rule of
    [Richardson(step_ratio, step=2, order=2, num_terms=2)] is the list of
    coefficients of the new routine, and [__call__] on the column of the
    steps and on a sequence that starts with the convolutions of the kernel
    returns the candidates and the errors that the new routine stores for
    the entry. *)
Theorem richardson_kernel_computes_estimate_error `{env : CLEnvironment}
    (d r e : ndarray3) step_ratio i j row :
  double_precision = true → MOT_EPSILON = Extrapolation.EPS → pinv_keeps_square →
  2 ≤ shape2 d →
  _richardson_extrapolation d step_ratio = Some (r, e) →
  row3 d i j = Some row → length row = shape2 d →
  ∃ coefficients candidates errors,
    Extrapolation.rule (Extrapolation.Build_Richardson step_ratio 2 2 2) (Some (shape2 d))
    = Some coefficients
    ∧ _get_richardson_coefficients step_ratio (shape2 d `min` 3 - 1) = Some coefficients
    ∧ row3 r i j = Some candidates ∧ row3 e i j = Some errors
    ∧ length candidates = shape2 d - (length coefficients - 1)
    ∧ ∀ new_sequence steps,
        take (shape2 r + 1) new_sequence
        = map (λ x, [x])
              (_apply_richardson_convolution (shape2 d) (shape2 r + 1) coefficients row) →
        Extrapolation.call (Extrapolation.Build_Richardson step_ratio 2 2 2)
                           (map (λ x, [x]) row) new_sequence steps
        = Some (map (λ x, [x]) candidates, map (λ x, [x]) errors,
                take (shape2 r) steps).
Proof.
  intros Hd Heps Hpinv Hn Hr Hrow Hlen.
  destruct (richardson_coefficients_length step_ratio (shape2 d `min` 3 - 1) Hpinv)
    as (cs & Hcs & Hlcs).
  unfold _richardson_extrapolation in Hr. rewrite Hcs in Hr.
  case_guard; [|done]. simpl in Hr. case_guard; [|done]. simpl in Hr.
  injection Hr as <- <-.
  exists cs. unfold row3 in *. cbn [data take_last_axis shape2].
  destruct (data d !! i) as [plane|] eqn:Hplane; [|done]. simpl in Hrow.
  rewrite !list_lookup_fmap, Hplane. simpl. rewrite !list_lookup_fmap, Hrow. simpl.
  eexists _, _.
  split; [by rewrite rule_is_richardson_coefficients by lia|].
  split; [done|]. split; [done|]. split; [done|].
  assert ((shape2 d + 2 - length cs - 1) `min` (shape2 d + 2 - length cs)
          = shape2 d + 1 - length cs) as Hm by lia.
  split.
  { unfold _apply_richardson_convolution.
    rewrite length_take, length_map, length_seq. lia. }
  intros new_sequence steps Hnew. rewrite Hm in *.
  replace (shape2 d + 1 - length cs + 1) with (shape2 d + 2 - length cs) in Hnew by lia.
  unfold Extrapolation.call. rewrite length_map, Hlen.
  rewrite rule_is_richardson_coefficients, Hcs by lia. simpl.
  replace (Z.of_nat (shape2 d) - (Z.of_nat (length cs) - 1))%Z
    with (Z.of_nat (shape2 d + 1 - length cs)) by lia.
  replace (Z.of_nat (shape2 d) `min` (Z.of_nat (shape2 d + 1 - length cs) + 1))%Z
    with (Z.of_nat (shape2 d + 2 - length cs)) by lia.
  rewrite !py_take_nonneg, Hnew.
  set (conv := _apply_richardson_convolution (shape2 d) (shape2 d + 2 - length cs) cs row).
  assert (length conv = shape2 d + 2 - length cs) as Hlconv.
  { unfold conv, _apply_richardson_convolution. by rewrite length_map, length_seq. }
  rewrite (estimate_error_of_column conv row steps cs Hd Heps) by lia.
  cbn [mbind option_bind]. rewrite !py_take_nonneg.
  rewrite Hlen, Hlconv.
  replace (shape2 d + 2 - length cs - 1) with (shape2 d + 1 - length cs) by lia.
  f_equal. f_equal. f_equal.
  - assert (take (shape2 d + 1 - length cs) new_sequence
            = take (shape2 d + 1 - length cs) (take (shape2 d + 2 - length cs) new_sequence))
      as -> by (rewrite take_take; f_equal; lia).
    rewrite Hnew. by rewrite fmap_take.
  - rewrite <- fmap_take. f_equal. apply take_ge.
    unfold _compute_richardson_errors. rewrite length_map, length_seq. lia.
Qed.

Lemma richardson_kernel_computes_estimate_error_witness :
  ∃ r e coefficients candidates errors,
    @_richardson_extrapolation double_env seven_steps 2%float = Some (r, e)
    ∧ row3 r 0 0 = Some candidates ∧ row3 e 0 0 = Some errors
    ∧ length candidates = 7 - (length coefficients - 1)
    ∧ @Extrapolation.call double_env (Extrapolation.Build_Richardson 2 2 2 2)
        (map (λ x, [x]) [2.5; 2.125; 2.0625; 2.03125; 2; 2.25; 1.75]%float)
        (map (λ x, [x])
             (_apply_richardson_convolution 7 (shape2 r + 1) coefficients
                [2.5; 2.125; 2.0625; 2.03125; 2; 2.25; 1.75]%float))
        []
      = Some (map (λ x, [x]) candidates, map (λ x, [x]) errors, take (shape2 r) []).
Proof.
  destruct (@_richardson_extrapolation double_env seven_steps 2%float) as [[r e]|] eqn:Hr;
    [|vm_compute in Hr; discriminate].
  destruct (@richardson_kernel_computes_estimate_error double_env seven_steps r e 2%float
              0 0 [2.5; 2.125; 2.0625; 2.03125; 2; 2.25; 1.75]%float
              eq_refl eq_refl double_env_pinv_keeps_square
              ltac:(simpl; lia) Hr eq_refl eq_refl)
    as (coefficients & candidates & errors & _ & _ & Hc & He & Hlen & Hcall).
  exists r, e, coefficients, candidates, errors.
  split; [done|]. split; [done|]. split; [done|]. split; [exact Hlen|].
  apply Hcall. apply take_ge.
  unfold _apply_richardson_convolution. rewrite !length_map, length_seq. lia.
Defined.

(** X14. The three places that compute the Richardson rule agree. For a
    sequence of [ne ≥ 1] steps [Richardson.rule] of
    [Richardson(step_ratio, step=2, order=2, num_terms=2)] is
    [_get_richardson_coefficients(step_ratio, min(ne, 3) - 1)] of the new
    routine; without a length it is the rule of three terms; and the two
    rules that the older routine passes to its kernel are the rules for two
    and for three steps. *)
Theorem richardson_rules_agree `{env : CLEnvironment} (step_ratio : float) :
  (∀ ne, 1 ≤ ne →
     Extrapolation.rule (Extrapolation.Build_Richardson step_ratio 2 2 2) (Some ne)
     = _get_richardson_coefficients step_ratio (ne `min` 3 - 1))
  ∧ Extrapolation.rule (Extrapolation.Build_Richardson step_ratio 2 2 2) None
    = _get_richardson_coefficients step_ratio 2
  ∧ Mapping._get_richardson_rules step_ratio
    = (k2 ← Extrapolation.rule (Extrapolation.Build_Richardson step_ratio 2 2 2) (Some 2);
       k3 ← Extrapolation.rule (Extrapolation.Build_Richardson step_ratio 2 2 2) (Some 3);
       Some (k2, k3)).
Proof.
  split; [intros ne Hne; by apply rule_is_richardson_coefficients|].
  split; reflexivity.
Qed.


(** *** The shapes of [Richardson.__call__] *)

Lemma map2_of_shape {A B C} (f : A → B → C) a b n k :
  of_shape n k a → of_shape n k b →
  ∃ c, Extrapolation.map2 f a b = Some c ∧ of_shape n k c.
Proof.
  intros [Ha Hra] [Hb Hrb]. unfold Extrapolation.map2.
  rewrite decide_True by congruence.
  assert (∃ c, mapM (λ rows, Extrapolation.zip_same f rows.1 rows.2) (zip a b) = Some c
               ∧ length c = length (zip a b) ∧ Forall (λ row, length row = k) c)
    as (c & Hc & Hlen & Hrows).
  { clear Ha Hb. revert b Hrb. induction Hra as [|r a Hr Hra IH]; intros b Hrb.
    - exists []. by repeat constructor.
    - destruct Hrb as [|s b Hs Hrb]; [exists []; by repeat constructor|].
      destruct (IH b Hrb) as (c & Hc & Hlen & Hrows).
      exists (zip_with f r s :: c). simpl. rewrite Hc. unfold Extrapolation.zip_same.
      rewrite decide_True by congruence. simpl.
      split; [done|]. split; [by rewrite Hlen|].
      constructor; [|done]. rewrite length_zip_with. lia. }
  exists c. split; [done|]. split; [|done].
  rewrite Hlen, length_zip. lia.
Qed.

Lemma take_of_shape {A} m n k (a : list (list A)) :
  of_shape n k a → of_shape (m `min` n) k (take m a).
Proof.
  intros [Ha Hra]. split; [by rewrite length_take, Ha|by apply Forall_take].
Qed.

Lemma drop_of_shape {A} m n k (a : list (list A)) :
  of_shape n k a → of_shape (n - m) k (drop m a).
Proof.
  intros [Ha Hra]. split; [by rewrite length_drop, Ha|by apply Forall_drop].
Qed.

Lemma map_of_shape {A B} (f : A → B) n k (a : list (list A)) :
  of_shape n k a → of_shape n k (map (map f) a).
Proof.
  intros [Ha Hra]. split; [by rewrite length_map|].
  apply Forall_fmap. eapply Forall_impl; [done|]. intros row Hrow. simpl.
  by rewrite length_map.
Qed.

Lemma of_shape_eq {A} n n' k (a : list (list A)) :
  n = n' → of_shape n k a → of_shape n' k a.
Proof. by intros ->. Qed.

Lemma rule_length `{env : CLEnvironment} (self : Extrapolation.Richardson) ne :
  pinv_keeps_square →
  ∃ rule,
    Extrapolation.rule self (Some ne) = Some rule
    ∧ length rule = Extrapolation.num_terms self `min` (ne - 1) + 1.
Proof.
  intros Hpinv. unfold Extrapolation.rule. simpl.
  set (nt := Extrapolation.num_terms self `min` (ne - 1)).
  case_decide as Hn; [|exists [1%float]; split; [done|simpl; lia]].
  assert (length (Extrapolation._r_matrix self nt) = nt + 1
          ∧ Forall (λ row, length row = nt + 1) (Extrapolation._r_matrix self nt))
    as [Hlen Hrows].
  { unfold Extrapolation._r_matrix. split; [by rewrite length_map, length_seq|].
    apply Forall_forall. intros row (i & -> & _)%list_elem_of_fmap.
    simpl. rewrite length_map, length_seq. lia. }
  destruct (Hpinv _ _ Hlen Hrows) as [Hlen' Hrows'].
  destruct (linalg_pinv (Extrapolation._r_matrix self nt)) as [|row rest] eqn:E;
    [simpl in Hlen'; lia|].
  exists row. split; [done|]. by apply Forall_cons in Hrows' as [? _].
Qed.

(** X15. Where the pseudo inverse is returned, [Richardson.__call__] on
    arrays of [ne ≥ 1] steps of [k] entries, for a step ratio that is not
    zero and a rule of at least one term, returns
    [ne - min(num_terms, ne - 1)] estimates, errors and steps of [k]
    entries each; the estimates and the steps are the first rows of its
    arguments. *)
Theorem richardson_call_counts `{env : CLEnvironment} (self : Extrapolation.Richardson)
    (sequence new_sequence steps : list (list float)) (ne k : nat) :
  pinv_keeps_square → (Extrapolation.step_ratio self =? 0)%float = false →
  1 ≤ Extrapolation.num_terms self → 1 ≤ ne →
  of_shape ne k sequence → of_shape ne k new_sequence → of_shape ne k steps →
  ∃ estimates errors final_steps,
    Extrapolation.call self sequence new_sequence steps
    = Some (estimates, errors, final_steps)
    ∧ let m := ne - (Extrapolation.num_terms self `min` (ne - 1)) in
      1 ≤ m ∧ of_shape m k estimates ∧ of_shape m k errors ∧ of_shape m k final_steps
      ∧ estimates = take m new_sequence ∧ final_steps = take m steps.
Proof.
  intros Hpinv _ Hnt Hne Hseq Hnew Hsteps.
  destruct (rule_length self ne Hpinv) as (rule & Hrule & Hlen).
  unfold Extrapolation.call. rewrite (proj1 Hseq), Hrule. cbn [mbind option_bind].
  set (nt := Extrapolation.num_terms self `min` (ne - 1)) in *.
  replace (Z.of_nat ne - (Z.of_nat (length rule) - 1))%Z
    with (Z.of_nat (ne - nt)) by lia.
  replace (Z.of_nat ne `min` (Z.of_nat (ne - nt) + 1))%Z
    with (Z.of_nat (ne `min` (ne - nt + 1))) by lia.
  rewrite !py_take_nonneg.
  assert (∃ abserr,
            Extrapolation._estimate_error (take (ne `min` (ne - nt + 1)) new_sequence)
              sequence steps rule = Some abserr
            ∧ of_shape (ne - nt) k abserr) as (abserr & -> & Habserr).
  { unfold Extrapolation._estimate_error.
    rewrite length_take, (proj1 Hseq), (proj1 Hnew).
    destruct (decide (ne < 2)) as [H1|H2].
    - assert (ne = 1) as -> by lia. assert (nt = 0) as -> by lia.
      apply map2_of_shape; [|done].
      eapply of_shape_eq; [|by apply take_of_shape]. lia.
    - rewrite decide_False by lia.
      set (m := (ne `min` (ne - nt + 1)) `min` ne).
      assert (m - 1 = ne - nt) as Hm by lia.
      set (new := take (ne `min` (ne - nt + 1)) new_sequence).
      assert (of_shape m k new) as Hnew'.
      { eapply of_shape_eq; [|by apply take_of_shape]. lia. }
      unfold Extrapolation.np_diff, Extrapolation.add_where, Extrapolation.py_last.
      rewrite (proj1 Hnew'), (proj1 Hseq). rewrite decide_False by lia.
      destruct (map2_of_shape (λ x y, x - y)%float (drop 1 new) (take (m - 1) new)
                  (ne - nt) k) as (delta & -> & Hdelta).
      { eapply of_shape_eq; [|by apply drop_of_shape]. lia. }
      { eapply of_shape_eq; [|by apply take_of_shape]. lia. }
      cbn [mbind option_bind].
      destruct (map2_of_shape
                  (λ a b, Extrapolation.max_abs a b * Extrapolation.EPS
                          * Extrapolation.estimate_fact rule)%float
                  (drop 1 new) (take (m - 1) new) (ne - nt) k) as (tol & -> & Htol).
      { eapply of_shape_eq; [|by apply drop_of_shape]. lia. }
      { eapply of_shape_eq; [|by apply take_of_shape]. lia. }
      cbn [mbind option_bind].
      destruct (map2_of_shape
                  (λ n o, abs (n - o) * Extrapolation.estimate_fact rule)%float
                  (take (m - 1) new) (drop (ne - (m - 1)) sequence) (ne - nt) k)
        as (otherwise & -> & Hotherwise).
      { eapply of_shape_eq; [|by apply take_of_shape]. lia. }
      { eapply of_shape_eq; [|by apply drop_of_shape]. lia. }
      cbn [mbind option_bind].
      destruct (map2_of_shape pair
                  (map (map (λ d, abs d * Extrapolation.estimate_fact rule)%float) delta)
                  tol (ne - nt) k) as (err_tol & -> & Herr_tol);
        [by apply map_of_shape|done|].
      cbn [mbind option_bind].
      by apply map2_of_shape. }
  cbn [mbind option_bind]. rewrite !py_take_nonneg.
  eexists _, _, _. split; [done|]. cbn zeta.
  split; [lia|]. split_and!; [| |  |done|done].
  - eapply of_shape_eq; [|by apply take_of_shape]. lia.
  - eapply of_shape_eq; [|by apply take_of_shape]. lia.
  - eapply of_shape_eq; [|by apply take_of_shape]. lia.
Qed.

Lemma richardson_call_counts_witness :
  ∃ estimates errors final_steps,
    @Extrapolation.call double_env (Extrapolation.Build_Richardson 2 2 2 2)
      [[2.5; 1]; [2.125; 1]; [2.0625; 1]; [2.03125; 1]]%float
      [[2; 1]; [2.04; 1]; [2.02; 1]; [2.01; 1]]%float
      [[1; 1]; [0.5; 0.5]; [0.25; 0.25]; [0.125; 0.125]]%float
    = Some (estimates, errors, final_steps)
    ∧ of_shape 2 2 estimates ∧ of_shape 2 2 errors ∧ of_shape 2 2 final_steps.
Proof.
  destruct (@richardson_call_counts double_env (Extrapolation.Build_Richardson 2 2 2 2)
              [[2.5; 1]; [2.125; 1]; [2.0625; 1]; [2.03125; 1]]%float
              [[2; 1]; [2.04; 1]; [2.02; 1]; [2.01; 1]]%float
              [[1; 1]; [0.5; 0.5]; [0.25; 0.25]; [0.125; 0.125]]%float 4 2
              double_env_pinv_keeps_square eq_refl ltac:(simpl; lia) ltac:(lia)
              ltac:(split; [reflexivity|by repeat constructor])
              ltac:(split; [reflexivity|by repeat constructor])
              ltac:(split; [reflexivity|by repeat constructor]))
    as (estimates & errors & final_steps & Hcall & _ & He & Hr & Hs & _).
  by exists estimates, errors, final_steps.
Defined.

(** *** A sequence that has converged *)

Lemma is_finite_Prim2SF (x : float) :
  is_finite x = true →
  (∃ s, Prim2SF x = S754_zero s) ∨ (∃ s m e, Prim2SF x = S754_finite s m e).
Proof.
  unfold is_finite. intros [Hnan Hinf]%negb_true_iff%orb_false_iff.
  apply is_nan_Prim2SF in Hnan. unfold is_infinity in Hinf.
  rewrite FloatAxioms.eqb_spec, abs_spec in Hinf.
  destruct (Prim2SF x) as [s|s| |s m e]; [by left; exists s|done|done|].
  right. by exists s, m, e.
Qed.

Lemma float_sub_diag (x : float) : is_finite x = true → (x - x)%float = 0%float.
Proof.
  intros Hx. apply Prim2SF_inj. rewrite sub_spec.
  change (Prim2SF 0) with (S754_zero false).
  destruct (is_finite_Prim2SF x Hx) as [[s ->]|(s & m & e & ->)].
  - by destruct s.
  - simpl. by rewrite Z.sub_diag.
Qed.

Lemma shr_1_nonneg (mrs : shr_record) : (0 ≤ shr_m mrs)%Z → (0 ≤ shr_m (shr_1 mrs))%Z.
Proof. destruct mrs as [[|[p|p|]|p] r s]; simpl; lia. Qed.

Lemma iter_shr_1_nonneg (p : positive) (mrs : shr_record) :
  (0 ≤ shr_m mrs)%Z → (0 ≤ shr_m (SpecFloat.iter_pos shr_1 p mrs))%Z.
Proof.
  revert mrs. induction p as [p IH|p IH|]; intros mrs Hm; simpl.
  - by apply IH, IH, shr_1_nonneg.
  - by apply IH, IH.
  - by apply shr_1_nonneg.
Qed.

Lemma shr_fexp_nonneg (m e : Z) (l : location) :
  (0 ≤ m)%Z → (0 ≤ shr_m (shr_fexp prec emax m e l).1)%Z.
Proof.
  intros Hm. unfold shr_fexp, shr.
  assert (0 ≤ shr_m (shr_record_of_loc m l))%Z as Hrec
    by (by destruct l as [|[| |]]).
  destruct (_ - e)%Z; simpl; [done| |done]. by apply iter_shr_1_nonneg.
Qed.

Lemma round_nearest_even_nonneg (m : Z) (l : location) :
  (0 ≤ m)%Z → (0 ≤ round_nearest_even m l)%Z.
Proof.
  intros Hm. destruct l as [|[| |]]; simpl; try lia. destruct (Z.even m); lia.
Qed.

Lemma binary_round_aux_nonneg m e l :
  (0 ≤ m)%Z → sf_nonneg (binary_round_aux prec emax false m e l) = true.
Proof.
  intros Hm. unfold binary_round_aux.
  pose proof (shr_fexp_nonneg m e l Hm) as H1.
  destruct (shr_fexp prec emax m e l) as [mrs' e']. simpl in H1.
  pose proof (shr_fexp_nonneg _ e' loc_Exact
                (round_nearest_even_nonneg _ (loc_of_shr_record mrs') H1)) as H2.
  destruct (shr_fexp prec emax _ e' loc_Exact) as [mrs'' e'']. simpl in H2.
  destruct (shr_m mrs''); [done| |lia]. by destruct (_ <=? _)%Z.
Qed.

Lemma SFmul_nonneg (a : spec_float) m e :
  sf_nonneg a = true → sf_nonneg (SF64mul a (S754_finite false m e)) = true.
Proof.
  destruct a as [[]|[]| |[] ma ea]; try done. intros _.
  by apply binary_round_aux_nonneg.
Qed.

Lemma SFabs_nonneg (a : spec_float) : a ≠ S754_nan → sf_nonneg (SFabs a) = true.
Proof. by destruct a. Qed.

Lemma float_leb_0_nonneg (y : float) :
  sf_nonneg (Prim2SF y) = true → (0 <=? y)%float = true.
Proof.
  intros Hy. rewrite leb_spec. change (Prim2SF 0) with (S754_zero false).
  by destruct (Prim2SF y) as [[]|[]| |[] m e].
Qed.

Lemma float_add_0_nonneg (y : float) :
  sf_nonneg (Prim2SF y) = true → (0 + y)%float = y.
Proof.
  intros Hy. apply Prim2SF_inj. rewrite add_spec.
  change (Prim2SF 0) with (S754_zero false).
  by destruct (Prim2SF y) as [[]|[]| |[] m e].
Qed.

Lemma np_maximum_diag (a : float) : Extrapolation.np_maximum a a = a.
Proof. unfold Extrapolation.np_maximum. by destruct (_ || _). Qed.

Lemma dea3_element_converged (x : float) :
  is_finite x = true →
  Extrapolation.dea3_element x x x
  = (x, (abs x * Extrapolation.EPS * 10)%float).
Proof.
  intros Hx. unfold Extrapolation.dea3_element, Extrapolation.max_abs.
  rewrite (float_sub_diag x Hx), np_maximum_diag.
  change (abs 0) with 0%float.
  assert (sf_nonneg (Prim2SF (abs x * Extrapolation.EPS)) = true) as Htol.
  { rewrite mul_spec, abs_spec. apply SFmul_nonneg, SFabs_nonneg.
    destruct (is_finite_Prim2SF x Hx) as [[s ->]|(s & m & e & ->)]; done. }
  rewrite (float_leb_0_nonneg _ Htol). cbn [andb orb].
  rewrite float_mul_1_r. f_equal.
  change (0 + 0)%float with 0%float. apply float_add_0_nonneg.
  rewrite mul_spec. by apply SFmul_nonneg.
Qed.

(** X16. A sequence that has converged is kept. For three equal finite
    values [x] the kernel of [_wynn_extrapolation_kernel] and [dea3] return
    [x] itself, with the error [|x| * eps * 10]: the differences of zero
    are replaced before the division. *)
Theorem converged_sequence_is_kept `{env : CLEnvironment} (row : list float) i x :
  MOT_EPSILON = Extrapolation.EPS → MOT_MIN = Extrapolation._TINY →
  is_finite x = true →
  buf row i = x → buf row (i + 1) = x → buf row (i + 2) = x →
  wynn_step row i = (x, (abs x * Extrapolation.EPS * 10)%float)
  ∧ Extrapolation.dea3_element x x x = (x, (abs x * Extrapolation.EPS * 10)%float).
Proof.
  intros Heps Hmin Hx H0 H1 H2. split; [|by apply dea3_element_converged].
  rewrite wynn_step_dea3_element, H0, H1, H2 by done.
  by apply dea3_element_converged.
Qed.

Lemma converged_sequence_is_kept_witness :
  @wynn_step double_env [3; 1.5; 1.5; 1.5]%float 1
  = (1.5, (abs 1.5 * Extrapolation.EPS * 10))%float
  ∧ Extrapolation.dea3_element 1.5 1.5 1.5
    = (1.5, (abs 1.5 * Extrapolation.EPS * 10))%float.
Proof.
  apply (@converged_sequence_is_kept double_env [3; 1.5; 1.5; 1.5]%float 1 1.5%float);
    reflexivity.
Defined.
